(** * Bidder config watcher: the synchronisation core of [main.go]

    A shallow embedding of the watcher's change detection, [.env] rewriting,
    atomic file replacement and post-write confirmation, with the properties
    the specification states about them.

    Go strings are byte sequences: [list ascii].  The Go library calls the
    program makes ([strings], [regexp], [bufio], [fmt], [os]) are given their
    documented behaviour in the modules below; the functions of package
    [main] follow, under the names they have in the source. *)

From Stdlib Require Import ZArith Ascii Lia.
From Stdlib Require String.
From Stdlib Require Import SpecFloat DecimalString.
From stdpp Require Import base option list gmap strings.

Local Open Scope Z_scope.

Abbreviation gostring := (list ascii) (only parsing).

(** A Go string literal. *)
Definition bs (s : string) : gostring := String.list_ascii_of_string s.

Definition TAB : ascii := "009"%char.
Definition LF : ascii := "010"%char.
Definition CR : ascii := "013"%char.
Definition EQ : ascii := "="%char.

(** ** Package [strings] *)
Module GoStrings.

(** [len(s) >= len(prefix) && s[:len(prefix)] == prefix] *)
Definition HasPrefix (s prefix : gostring) : bool :=
  bool_decide (length prefix ≤ length s)%nat
  && bool_decide (take (length prefix) s = prefix).

(** [len(s) >= len(suffix) && s[len(s)-len(suffix):] == suffix] *)
Definition HasSuffix (s suffix : gostring) : bool :=
  bool_decide (length suffix ≤ length s)%nat
  && bool_decide (drop (length s - length suffix) s = suffix).

(** [strings.Index(s, "=")] and the like, for a one-byte needle: the
    offset of its first occurrence, or -1. *)
Fixpoint IndexByte (s : gostring) (c : ascii) : Z :=
  match s with
  | [] => -1
  | d :: t =>
      if bool_decide (d = c) then 0
      else let i := IndexByte t c in if i <? 0 then -1 else i + 1
  end.

(** [strings.TrimRight(s, cutset)] for a cutset of a single ASCII byte,
    the only way the program calls it: the library then runs
    [for len(s) > 0 && s[len(s)-1] == c { s = s[:len(s)-1] }]. *)
Fixpoint TrimRight (s : gostring) (c : ascii) : gostring :=
  match s with
  | [] => []
  | d :: t =>
      match TrimRight t c with
      | [] => if bool_decide (d = c) then [] else [d]
      | t' => d :: t'
      end
  end.

(** The UTF-8 encodings of the code points [unicode.IsSpace] accepts:
    TAB, LF, VT, FF, CR, SPACE, U+0085, U+00A0, U+1680, U+2000..U+200A,
    U+2028, U+2029, U+202F, U+205F, U+3000. *)
Definition space_encodings : list gostring :=
  let b := ascii_of_nat in
  [ [b 9]; [b 10]; [b 11]; [b 12]; [b 13]; [b 32];
    [b 194; b 133]; [b 194; b 160];
    [b 225; b 154; b 128];
    [b 226; b 128; b 128]; [b 226; b 128; b 129]; [b 226; b 128; b 130];
    [b 226; b 128; b 131]; [b 226; b 128; b 132]; [b 226; b 128; b 133];
    [b 226; b 128; b 134]; [b 226; b 128; b 135]; [b 226; b 128; b 136];
    [b 226; b 128; b 137]; [b 226; b 128; b 138];
    [b 226; b 128; b 168]; [b 226; b 128; b 169]; [b 226; b 128; b 175];
    [b 226; b 129; b 159];
    [b 227; b 128; b 128] ]%nat.

(** The rest of [s] after a leading white-space rune, if it has one. *)
Fixpoint cut_space (encs : list gostring) (s : gostring) : option gostring :=
  match encs with
  | [] => None
  | e :: encs' =>
      if HasPrefix s e then Some (drop (length e) s) else cut_space encs' s
  end.

Fixpoint trim_left (encs : list gostring) (fuel : nat) (s : gostring) : gostring :=
  match fuel with
  | O => s
  | S fuel' =>
      match cut_space encs s with
      | Some r => trim_left encs fuel' r
      | None => s
      end
  end.

(** [strings.TrimLeftFunc(s, unicode.IsSpace)]: decoding from the left, a
    white-space rune is exactly one of the encodings above.  Every cut
    removes a byte at least, so [length s] rounds are enough. *)
Definition TrimLeftSpace (s : gostring) : gostring :=
  trim_left space_encodings (length s) s.

(** [strings.TrimRightFunc(s, unicode.IsSpace)]: decoding from the right
    ([utf8.DecodeLastRuneInString]) finds a white-space rune exactly when
    the string ends with one of the encodings. *)
Definition TrimRightSpace (s : gostring) : gostring :=
  reverse (trim_left (reverse <$> space_encodings) (length s) (reverse s)).

(** [strings.TrimSpace]: the left end first, then the right end of what
    is left. *)
Definition TrimSpace (s : gostring) : gostring :=
  TrimRightSpace (TrimLeftSpace s).

End GoStrings.
Import GoStrings.

(** ** Package [regexp], for the one pattern the program compiles

    [(?m)^(export\s+)?KEY=.*$] where [KEY] is [regexp.QuoteMeta(key)], a
    literal.  With flag [m], [^] holds at offset 0 and after every LF and [$]
    at the end of the text and before every LF; [.] is any character but LF;
    [\s] is [[\t\n\f\r ]].  Matching is leftmost-first (Perl-like): the
    optional group is tried before its absence and [\s+] gives back white
    space only when the rest fails.

    The library matches rune by rune.  The key is taken to be valid UTF-8
    without U+FFFD, as the three keys of the program are: the literal then
    matches exactly its own bytes, [.] takes whole runes none of which holds
    a LF byte, and the match is the one found byte by byte below. *)
Module GoRegexp.

Definition re_space (c : ascii) : bool :=
  bool_decide (c ∈ [ascii_of_nat 9; ascii_of_nat 10; ascii_of_nat 12;
                    ascii_of_nat 13; ascii_of_nat 32]).

(** The characters [.*] takes: all up to the next LF or the end. *)
Fixpoint dot_star (s : gostring) : nat :=
  match s with
  | [] => O
  | c :: t => if bool_decide (c = LF) then O else S (dot_star t)
  end.

(** [KEY=.*$] at the head of [s]: the length of the match.  After [.*]
    the text is at its end or at a LF, so [$] holds. *)
Definition match_assign (key s : gostring) : option nat :=
  if HasPrefix s (key ++ [EQ])
  then Some (length key + 1 + dot_star (drop (length key + 1) s))%nat
  else None.

(** [\s+KEY=.*$] at the head of [s]: the length of the white space and of
    the whole.  More white space is tried first. *)
Fixpoint match_spaces (key s : gostring) : option (nat * nat) :=
  match s with
  | [] => None
  | c :: t =>
      if re_space c then
        match match_spaces key t with
        | Some (w, n) => Some (S w, S n)
        | None => (λ n, (1%nat, S n)) <$> match_assign key t
        end
      else None
  end.

(** The whole pattern at an offset where [^] holds: the length of group 1
    (0 when the group takes no part) and the length of the match. *)
Definition match_here (key s : gostring) : option (nat * nat) :=
  let with_export :=
    if HasPrefix s (bs "export")
    then (λ '(w, n), (6 + w, 6 + n)%nat) <$> match_spaces key (drop 6 s)
    else None in
  match with_export with
  | Some r => Some r
  | None => (λ n, (O, n)) <$> match_assign key s
  end.

(** The leftmost match in [s], searched from its head: offset, length of
    group 1, length of the match.  [bol] tells whether [^] holds at the
    head. *)
Fixpoint find (key : gostring) (bol : bool) (s : gostring) : option (nat * nat * nat) :=
  match (if bol then match_here key s else None) with
  | Some (g, n) => Some (O, g, n)
  | None =>
      match s with
      | [] => None
      | c :: t =>
          (λ '(i, g, n), (S i, g, n)) <$> find key (bool_decide (c = LF)) t
      end
  end.

(** [re.FindStringSubmatch(s)]: the match and group 1, or [nil]. *)
Definition FindStringSubmatch (key s : gostring) : option (list gostring) :=
  (λ '(i, g, n), [take n (drop i s); take g (drop i s)]) <$> find key true s.

(** [re.ReplaceAllStringFunc(src, repl)]: every match, left to right and
    not overlapping, is replaced by [repl] of its text.  The pattern
    matches no empty string, so the search resumes where a match ended.
    [skip] counts the bytes of the current match still to be passed;
    [bol] is whether [^] holds here.  [repl] fails when the callback
    panics.  The result comes with whether [repl] was called at all. *)
Fixpoint replace_scan (key : gostring) (repl : gostring → option gostring)
    (bol : bool) (skip : nat) (s : gostring) : option (gostring * bool) :=
  match s with
  | [] => Some ([], false)
  | c :: t =>
      match skip with
      | S k => replace_scan key repl false k t
      | O =>
          match (if bol then match_here key s else None) with
          | Some (_, n) =>
              r ← repl (take n s);
              '(rest, _) ← replace_scan key repl false (pred n) t;
              Some (r ++ rest, true)
          | None =>
              '(rest, called) ← replace_scan key repl (bool_decide (c = LF)) O t;
              Some (c :: rest, called)
          end
      end
  end.

Definition ReplaceAllStringFunc (key : gostring)
    (repl : gostring → option gostring) (src : gostring)
    : option (gostring * bool) :=
  replace_scan key repl true O src.

End GoRegexp.
Import GoRegexp.

(** ** Package [bufio]: a [Scanner] with the default split function *)
Module GoBufio.

(** [bufio.MaxScanTokenSize]: the scanner's buffer never grows beyond
    it, and a line that does not fit, with its LF or before the end of the
    input is seen, stops the scan with [ErrTooLong]. *)
Definition MaxScanTokenSize : Z := 64 * 1024.

(** [dropCR]: one trailing CR is not part of the line. *)
Definition dropCR (line : gostring) : gostring :=
  match reverse line with
  | c :: r => if bool_decide (c = CR) then reverse r else line
  | [] => line
  end.

(** The tokens [Scan] and [Text] yield with [ScanLines]: the lines of
    the input without their end-of-line marker; the last line may lack its
    LF, and an input that ends in LF has no empty last line.  [cur] is the
    line read so far. *)
Fixpoint scan (s cur : gostring) : list gostring :=
  match s with
  | [] =>
      if bool_decide (cur = []) then []
      else if MaxScanTokenSize <=? Z.of_nat (length cur) then []
      else [dropCR cur]
  | c :: t =>
      if bool_decide (c = LF) then
        if MaxScanTokenSize <=? Z.of_nat (length cur) then []
        else dropCR cur :: scan t []
      else scan t (cur ++ [c])
  end.

Definition ScanLines (data : gostring) : list gostring := scan data [].

End GoBufio.
Import GoBufio.

(** ** Package [fmt]: the two verbs the program uses *)
Module GoFmt.

Definition digit (n : Z) : ascii := ascii_of_nat (48 + Z.to_nat (n mod 10)).

(** A natural number in decimal, without leading zeros ([0] is "0"). *)
Definition decimal (n : Z) : gostring :=
  bs (NilZero.string_of_uint (N.to_uint (Z.to_N n))).

(** [fmt.Sprintf("%d", n)] *)
Definition Sprintf_d (n : Z) : gostring :=
  if n <? 0 then bs "-" ++ decimal (- n) else decimal n.

(** The quotient [num / den] rounded to the nearest integer, a tie to the
    even one: how [strconv] rounds the exact decimal expansion of a float
    to a given number of digits. *)
Definition round_half_even (num den : Z) : Z :=
  let q := num / den in
  let r := num mod den in
  if 2 * r <? den then q
  else if den <? 2 * r then q + 1
  else if Z.even q then q else q + 1.

(** [m * 2^e * 10^6], rounded to an integer. *)
Definition micros (m : positive) (e : Z) : Z :=
  if 0 <=? e then Z.pos m * 2 ^ e * 10 ^ 6
  else round_half_even (Z.pos m * 10 ^ 6) (2 ^ (- e)).

Definition sign_text (s : bool) : gostring := if s then bs "-" else [].

(** Six decimals of a number of millionths: integer part, point, six
    digits. *)
Definition six_digits (n : Z) : gostring :=
  [digit (n / 100000); digit (n / 10000); digit (n / 1000);
   digit (n / 100); digit (n / 10); digit n].

Definition fixed6 (n : Z) : gostring :=
  decimal (n / 10 ^ 6) ++ bs "." ++ six_digits n.

(** [fmt.Sprintf("%.6f", f)] for a [float64], given as its sign, integer
    mantissa and binary exponent.  The sign is the sign bit, also of a
    zero. *)
Definition Sprintf_6f (f : spec_float) : gostring :=
  match f with
  | S754_nan => bs "NaN"
  | S754_infinity s => (if s then bs "-" else bs "+") ++ bs "Inf"
  | S754_zero s => sign_text s ++ fixed6 0
  | S754_finite s m e => sign_text s ++ fixed6 (micros m e)
  end.

End GoFmt.
Import GoFmt.

(** ** Package [os]: files, and the calls that can fail *)
Module GoOS.

(** A regular file: its bytes and permission bits.  A file system maps
    clean path names to files. *)
Record file := File { f_data : gostring; f_perm : N }.

(** The state of the machine: the files now, every earlier state of the
    files (the latest first), and the commands run so far. *)
Record world := World {
  fs : gmap gostring file;
  past : list (gmap gostring file);
  ran : list (list gostring)
}.

(** A change of the files: the state before stays on record. *)
Definition commit (fs' : gmap gostring file) (w : world) : world :=
  {| fs := fs'; past := fs w :: past w; ran := ran w |}.

(** All the states the files went through, the current one included. *)
Definition states (w : world) : list (gmap gostring file) := fs w :: past w.

(** What the environment decides in one cycle: which calls fail, the
    random part of the temporary name, and the order in which each [range]
    over a map visits it. *)
Record env := Env {
  stat_fails : bool;
  read_fails : bool;
  tmp_random : gostring;
  create_fails : bool;
  chmod_fails : bool;
  write_fails : option nat;   (* the bytes written before the failure *)
  sync_fails : bool;
  close_fails : bool;
  rename_fails : bool;
  confirm_read_fails : bool;
  exec_fails : nat → bool;
  range_order : nat → gmap gostring gostring → list (gostring * gostring)
}.

(** A [range] over a Go map visits every entry once, in an order of its
    own choice. *)
Definition range_sound (E : env) : Prop :=
  ∀ i (m : gmap gostring gostring), range_order E i m ≡ₚ map_to_list m.

(** Permission bits of a file [os.CreateTemp] makes: 0600. *)
Definition temp_perm : N := 384.

End GoOS.
Import GoOS.

(** ** Package [main] *)

Inductive error :=
  | ErrGet | ErrStatus (code : Z) (body : gostring) | ErrDecode
  | ErrStat | ErrRead | ErrCreateTemp | ErrChmod | ErrWrite | ErrSync
  | ErrClose | ErrRename
  | ErrConfirmRead
  | ErrNotFound (k : gostring)
  | ErrMismatch (k actual expected : gostring)
  | ErrUpdate (e : error)      (* "failed to update .env: %w" *)
  | ErrConfirm (e : error).    (* "failed to confirm .env changes: %w" *)

(** How a call ends: normally, with an error value, or in a panic. *)
Inductive result (A : Type) :=
  | Ok (a : A)
  | Failed (e : error)
  | Panic.
Arguments Ok {A} a.
Arguments Failed {A} e.
Arguments Panic {A}.

(** Calls that act on the files and may fail. *)
Definition io (A : Type) : Type := world → result A * world.

#[global] Instance io_ret : MRet io := λ A a w, (Ok a, w).

#[global] Instance io_bind : MBind io := λ A B k c w,
  match c w with
  | (Ok a, w') => k a w'
  | (Failed e, w') => (Failed e, w')
  | (Panic, w') => (Panic, w')
  end.

(** [defer]: the deferred calls run when the function returns, however it
    returns; the errors they report are dropped. *)
Definition defer {A} (cleanup : world → world) (body : io A) : io A :=
  λ w, let '(r, w') := body w in (r, cleanup w').

(** A call that changes nothing and fails as the environment says. *)
Definition check (fails : bool) (e : error) : io unit :=
  λ w, if fails then (Failed e, w) else (Ok (), w).

Definition envSmallBid : gostring := bs "BID_SMALL_AMOUNT".
Definition envLargeBid : gostring := bs "BID_LARGE_AMOUNT".
Definition envMaxConcurrency : gostring := bs "BIDDER_MAX_CONCURRENT_PROOFS".

(** [ConfigPayload]: a nil pointer is [None]. *)
Record ConfigPayload := {
  pSmallBid : option spec_float;
  pLargeBid : option spec_float;
  pMaxConcurrency : option Z
}.

Record LastSeen := {
  SmallBid : spec_float;
  HasSmallBid : bool;
  LargeBid : spec_float;
  HasLargeBid : bool;
  MaxConcurrency : Z;
  HasMaxConcurrency : bool;
  Initialized : bool
}.

(** [&LastSeen{}] *)
Definition LastSeen_zero : LastSeen :=
  {| SmallBid := S754_zero false; HasSmallBid := false;
     LargeBid := S754_zero false; HasLargeBid := false;
     MaxConcurrency := 0; HasMaxConcurrency := false;
     Initialized := false |}.

(** [a != b] on [float64]: IEEE comparison, so a NaN differs from itself
    and the two zeros are equal.  A [float64] is a [spec_float] in its
    canonical form (53 bits of mantissa unless subnormal), on which [SFeqb]
    is that comparison. *)
Definition float_ne (a b : spec_float) : bool := negb (SFeqb a b).

Definition formatFloat (f : spec_float) : gostring :=
  TrimRight (TrimRight (Sprintf_6f f) "0") ".".

(** [pollAndUpdate], lines 114-131: the update set. *)
Definition detectChanges (payload : ConfigPayload) (last : LastSeen)
    : gmap gostring gostring :=
  let updates : gmap gostring gostring := ∅ in
  let updates :=
    match pSmallBid payload with
    | Some v =>
        if negb (Initialized last) || negb (HasSmallBid last)
           || float_ne (SmallBid last) v
        then <[envSmallBid := formatFloat v]> updates else updates
    | None => updates
    end in
  let updates :=
    match pLargeBid payload with
    | Some v =>
        if negb (Initialized last) || negb (HasLargeBid last)
           || float_ne (LargeBid last) v
        then <[envLargeBid := formatFloat v]> updates else updates
    | None => updates
    end in
  match pMaxConcurrency payload with
  | Some v =>
      if negb (Initialized last) || negb (HasMaxConcurrency last)
         || negb (bool_decide (MaxConcurrency last = v))
      then <[envMaxConcurrency := Sprintf_d v]> updates else updates
  | None => updates
  end.

(** The callback given to [ReplaceAllStringFunc]: [matches[1]] panics when
    [FindStringSubmatch] returns nil. *)
Definition replaceLine (key val line : gostring) : option gostring :=
  matches ← FindStringSubmatch key line;
  exportPrefix ← matches !! 1%nat;
  Some (exportPrefix ++ key ++ [EQ] ++ val).

(** One round of the first loop of [updateEnvFile]: the callback sets
    [replaced] when it is called. *)
Definition replaceKey (st : gostring * gmap gostring bool)
    (kv : gostring * gostring) : option (gostring * gmap gostring bool) :=
  let '(content, changed) := st in
  let '(key, val) := kv in
  '(content', replaced) ← ReplaceAllStringFunc key (replaceLine key val) content;
  Some (content', <[key := replaced]> changed).

Fixpoint replaceKeys (order : list (gostring * gostring))
    (st : gostring * gmap gostring bool) : option (gostring * gmap gostring bool) :=
  match order with
  | [] => Some st
  | kv :: order' => st' ← replaceKey st kv; replaceKeys order' st'
  end.

(** One round of the second loop: the builder and [hasTrailingNewline]. *)
Definition appendKey (changed : gmap gostring bool)
    (st : gostring * bool) (kv : gostring * gostring) : gostring * bool :=
  let '(builder, hasTrailingNewline) := st in
  let '(key, val) := kv in
  if default false (changed !! key) then st
  else
    let '(builder, hasTrailingNewline) :=
      if bool_decide (0 < length builder)%nat && negb hasTrailingNewline
      then (builder ++ [LF], true) else (builder, hasTrailingNewline) in
    (builder ++ (key ++ [EQ] ++ val ++ [LF]), true).

(** [updateEnvFile], lines 196-229: the new content of the file, from the
    old one.  [order1] and [order2] are the orders in which the two loops
    visit [updates]. *)
Definition rewriteEnv (order1 order2 : list (gostring * gostring))
    (content : gostring) : option gostring :=
  '(content, changed) ← replaceKeys order1 (content, ∅);
  let hasTrailingNewline := HasSuffix content [LF] in
  let '(builder, _) :=
    foldl (appendKey changed) (content, hasTrailingNewline) order2 in
  let content := builder in
  Some (if negb (HasSuffix content [LF]) then content ++ [LF] else content).

(** [filepath.Join(dir, base + ".tmp-" + random)] for a clean [path]. *)
Definition tempName (path random : gostring) : gostring :=
  path ++ bs ".tmp-" ++ random.

(** [os.CreateTemp]: a new, empty file under a name not in use.  The
    environment supplies the name the call settles on; were it in use the
    call would fail. *)
Definition CreateTemp (E : env) (path : gostring) : io gostring :=
  λ w, let name := tempName path (tmp_random E) in
       if create_fails E || bool_decide (is_Some (fs w !! name))
       then (Failed ErrCreateTemp, w)
       else (Ok name, commit (<[name := File [] temp_perm]> (fs w)) w).

Definition Chmod (E : env) (name : gostring) (perm : N) : io unit :=
  λ w, if chmod_fails E then (Failed ErrChmod, w)
       else match fs w !! name with
            | Some f => (Ok (), commit (<[name := File (f_data f) perm]> (fs w)) w)
            | None => (Failed ErrChmod, w)
            end.

(** [tmpFile.WriteString]: a failing write may leave part of the bytes. *)
Definition WriteString (E : env) (name content : gostring) : io unit :=
  λ w, match fs w !! name with
       | Some f =>
           match write_fails E with
           | Some n =>
               (Failed ErrWrite,
                commit (<[name := File (f_data f ++ take n content) (f_perm f)]> (fs w)) w)
           | None =>
               (Ok (), commit (<[name := File (f_data f ++ content) (f_perm f)]> (fs w)) w)
           end
       | None => (Failed ErrWrite, w)
       end.

(** [os.Rename]: the new name gets the file, whatever it named before. *)
Definition Rename (E : env) (old new : gostring) : io unit :=
  λ w, if rename_fails E then (Failed ErrRename, w)
       else match fs w !! old with
            | Some f => (Ok (), commit (<[new := f]> (delete old (fs w))) w)
            | None => (Failed ErrRename, w)
            end.

(** [os.Remove], its error dropped. *)
Definition Remove (name : gostring) (w : world) : world :=
  match fs w !! name with
  | Some _ => commit (delete name (fs w)) w
  | None => w
  end.

Definition updateEnvFile (E : env) (path : gostring)
    (updates : gmap gostring gostring) : io unit :=
  λ w,
  (* os.Stat, and os.ReadFile when the file is there *)
  if stat_fails E then (Failed ErrStat, w) else
  let original := fs w !! path in
  if bool_decide (is_Some original) && read_fails E then (Failed ErrRead, w) else
  let content := from_option f_data [] original in
  match rewriteEnv (range_order E 0 updates) (range_order E 1 updates) content with
  | None => (Panic, w)
  | Some content =>
      (tmpName ← CreateTemp E path;
       defer (Remove tmpName)
         (match original with
          | Some f => Chmod E tmpName (f_perm f)
          | None => mret ()
          end;;
          WriteString E tmpName content;;
          check (sync_fails E) ErrSync;;
          check (close_fails E) ErrClose;;
          Rename E tmpName path)) w
  end.

Definition parseLine (line : gostring) : option (gostring * gostring) :=
  let trimmed := TrimSpace line in
  if bool_decide (trimmed = []) || HasPrefix trimmed (bs "#") then None
  else
    let trimmed :=
      if HasPrefix trimmed (bs "export ")
      then TrimSpace (drop (length (bs "export ")) trimmed) else trimmed in
    let idx := IndexByte trimmed EQ in
    if idx <=? 0 then None
    else Some (TrimSpace (take (Z.to_nat idx) trimmed),
               drop (Z.to_nat (idx + 1)) trimmed).

Definition parseEnvToMap (data : gostring) : gmap gostring gostring :=
  foldl (λ result line,
           match parseLine line with
           | Some (key, val) => <[key := val]> result
           | None => result
           end) ∅ (ScanLines data).

(** The loop of [confirmEnvValues]: the first entry visited that the file
    does not confirm ends it. *)
Fixpoint confirmLoop (found : gmap gostring gostring)
    (order : list (gostring * gostring)) : result unit :=
  match order with
  | [] => Ok ()
  | (k, expectedVal) :: order' =>
      match found !! k with
      | None => Failed (ErrNotFound k)
      | Some actual =>
          if bool_decide (actual = expectedVal) then confirmLoop found order'
          else Failed (ErrMismatch k actual expectedVal)
      end
  end.

Definition confirmEnvValues (E : env) (path : gostring)
    (expected : gmap gostring gostring) : io unit :=
  λ w, match fs w !! path with
       | Some f =>
           if confirm_read_fails E then (Failed ErrConfirmRead, w)
           else (confirmLoop (parseEnvToMap (f_data f)) (range_order E 2 expected), w)
       | None => (Failed ErrConfirmRead, w)
       end.

(** [reloadAndRestart]: the second command runs only when the first
    succeeded. *)
Definition commands : list (list gostring) :=
  [ [bs "sudo"; bs "systemctl"; bs "daemon-reload"];
    [bs "sudo"; bs "systemctl"; bs "restart"; bs "bidder"] ].

Fixpoint runCommands (E : env) (i : nat) (cmds : list (list gostring))
    (w : world) : bool * world :=
  match cmds with
  | [] => (true, w)
  | args :: cmds' =>
      let w' := {| fs := fs w; past := past w; ran := ran w ++ [args] |} in
      if exec_fails E i then (false, w') else runCommands E (S i) cmds' w'
  end.

Definition reloadAndRestart (E : env) (dryRun : bool) (w : world) : bool * world :=
  if dryRun then (true, w) else runCommands E 0 commands w.

(** What [client.Get] and the JSON decoder give. *)
Inductive response :=
  | GetFailed
  | Status (code : Z) (body : gostring)      (* a status other than 200 *)
  | BadJSON
  | Payload (p : ConfigPayload).

(** [pollAndUpdate], lines 150-163: the last-seen cache after a confirmed
    write. *)
Definition advance (payload : ConfigPayload) (last : LastSeen) : LastSeen :=
  let last :=
    match pSmallBid payload with
    | Some v =>
        {| SmallBid := v; HasSmallBid := true;
           LargeBid := LargeBid last; HasLargeBid := HasLargeBid last;
           MaxConcurrency := MaxConcurrency last;
           HasMaxConcurrency := HasMaxConcurrency last;
           Initialized := Initialized last |}
    | None => last
    end in
  let last :=
    match pLargeBid payload with
    | Some v =>
        {| SmallBid := SmallBid last; HasSmallBid := HasSmallBid last;
           LargeBid := v; HasLargeBid := true;
           MaxConcurrency := MaxConcurrency last;
           HasMaxConcurrency := HasMaxConcurrency last;
           Initialized := Initialized last |}
    | None => last
    end in
  let last :=
    match pMaxConcurrency payload with
    | Some v =>
        {| SmallBid := SmallBid last; HasSmallBid := HasSmallBid last;
           LargeBid := LargeBid last; HasLargeBid := HasLargeBid last;
           MaxConcurrency := v; HasMaxConcurrency := true;
           Initialized := Initialized last |}
    | None => last
    end in
  {| SmallBid := SmallBid last; HasSmallBid := HasSmallBid last;
     LargeBid := LargeBid last; HasLargeBid := HasLargeBid last;
     MaxConcurrency := MaxConcurrency last;
     HasMaxConcurrency := HasMaxConcurrency last;
     Initialized := true |}.

(** [pollAndUpdate]: the value returned, and [*last] and the machine after
    the call. *)
Definition pollAndUpdate (E : env) (resp : response) (envPath : gostring)
    (last : LastSeen) (dryRun : bool) (w : world) : result unit * LastSeen * world :=
  match resp with
  | GetFailed => (Failed ErrGet, last, w)
  | Status code body => (Failed (ErrStatus code (take 1024 body)), last, w)
  | BadJSON => (Failed ErrDecode, last, w)
  | Payload payload =>
      let updates := detectChanges payload last in
      if bool_decide (size updates = 0%nat) then (Ok (), last, w) else
      match updateEnvFile E envPath updates w with
      | (Failed e, w) => (Failed (ErrUpdate e), last, w)
      | (Panic, w) => (Panic, last, w)
      | (Ok _, w) =>
          match confirmEnvValues E envPath updates w with
          | (Failed e, w) => (Failed (ErrConfirm e), last, w)
          | (Panic, w) => (Panic, last, w)
          | (Ok _, w) =>
              let last := advance payload last in
              let '(_, w) := reloadAndRestart E dryRun w in
              (Ok (), last, w)
          end
      end
  end.

(** The loop of [main], lines 72-80, for the cycles of [ticks]: a cycle per
    tick, each with what the environment and the endpoint do then.  The
    baseline starts empty and is carried from cycle to cycle; an error is
    logged and the loop goes on; a panic ends the program. *)
Fixpoint pollLoop (ticks : list (env * response)) (envPath : gostring)
    (last : LastSeen) (dryRun : bool) (w : world) : LastSeen * world :=
  match ticks with
  | [] => (last, w)
  | (E, resp) :: ticks' =>
      match pollAndUpdate E resp envPath last dryRun w with
      | (Panic, last, w) => (last, w)
      | (_, last, w) => pollLoop ticks' envPath last dryRun w
      end
  end.

Definition mainLoop (ticks : list (env * response)) (envPath : gostring)
    (dryRun : bool) (w : world) : LastSeen * world :=
  pollLoop ticks envPath LastSeen_zero dryRun w.

(** ** Notions the properties are stated with *)

(** Whether the comparison of one parameter asks for an update. *)
Definition stale (last : LastSeen) (has differs : bool) : bool :=
  negb (Initialized last) || negb has || differs.

(** The permission bits the new file gets: those of the file it replaces,
    or those of a fresh temporary file. *)
Definition new_perm (original : option file) : N :=
  from_option f_perm temp_perm original.

(** An environment in which no call fails and every [range] visits the
    map in the order of [map_to_list]. *)
Definition calm : env :=
  {| stat_fails := false; read_fails := false; tmp_random := bs "271828";
     create_fails := false; chmod_fails := false; write_fails := None;
     sync_fails := false; close_fails := false; rename_fails := false;
     confirm_read_fails := false; exec_fails := λ _, false;
     range_order := λ _ m, map_to_list m |}.

(** The same, but the write to the temporary file fails after [n] bytes. *)
Definition short_write (n : nat) : env :=
  {| stat_fails := false; read_fails := false; tmp_random := bs "271828";
     create_fails := false; chmod_fails := false; write_fails := Some n;
     sync_fails := false; close_fails := false; rename_fails := false;
     confirm_read_fails := false; exec_fails := λ _, false;
     range_order := λ _ m, map_to_list m |}.

(** A machine whose only file is [.env], with the given content. *)
Definition dotenv : gostring := bs ".env".

Definition machine (content : gostring) : world :=
  {| fs := {[ dotenv := File content 420 ]}; past := []; ran := [] |}.

(** The lines of a text, each followed by LF. *)
Definition text (lines : list string) : gostring :=
  concat ((λ l, bs l ++ [LF]) <$> lines).

(** The [float64] nearest to the decimal [num / den], for the literals of
    the specification's examples: [m * 2^e] with a 53-bit [m] and at most
    half a unit in the last place away. *)
Definition nearest_float64 (num den : Z) (f : spec_float) : Prop :=
  match f with
  | S754_finite false m e =>
      2 ^ 52 ≤ Z.pos m < 2 ^ 53 ∧ e < 0
      ∧ 2 * Z.abs (Z.pos m * den - num * 2 ^ (- e)) ≤ den
  | _ => False
  end.

Definition f64_0_500000000001 : spec_float :=
  S754_finite false 4503599627379503 (-53).
Definition f64_10 : spec_float := S754_finite false 5629499534213120 (-49).
Definition f64_1e_7 : spec_float := S754_finite false 7555786372591432 (-76).
Definition f64_0_1 : spec_float := S754_finite false 7205759403792794 (-56).

(** The sign and the number of millionths [%.6f] prints, for a number. *)
Definition millionths (f : spec_float) : option (bool * Z) :=
  match f with
  | S754_zero s => Some (s, 0)
  | S754_finite s m e => Some (s, micros m e)
  | _ => None
  end.

(** The canonical text in the specification's words: the fraction without
    its trailing zeros, and no decimal point when nothing is left of it. *)
Fixpoint drop_zeros (s : gostring) : gostring :=
  match s with
  | c :: t => if bool_decide (c = "0"%char) then drop_zeros t else s
  | [] => []
  end.

Definition strip_zeros (frac : gostring) : gostring :=
  reverse (drop_zeros (reverse frac)).

Definition canonical (whole frac : gostring) : gostring :=
  if bool_decide (strip_zeros frac = []) then whole
  else whole ++ bs "." ++ strip_zeros frac.

(** The text a line of the pattern is replaced by. *)
Definition assignment (exp key val : gostring) : gostring :=
  exp ++ key ++ [EQ] ++ val.

(** [ReplaceAllStringFunc] with the callback of [updateEnvFile], when the
    callback does not panic: the new text, and whether anything matched. *)
Fixpoint subst (key val : gostring) (bol : bool) (skip : nat) (s : gostring)
    : gostring :=
  match s with
  | [] => []
  | c :: t =>
      match skip with
      | S k => subst key val false k t
      | O =>
          match (if bol then match_here key s else None) with
          | Some (g, n) =>
              assignment (take g s) key val ++ subst key val false (pred n) t
          | None => c :: subst key val (bool_decide (c = LF)) O t
          end
      end
  end.

Fixpoint hit (key : gostring) (bol : bool) (skip : nat) (s : gostring) : bool :=
  match s with
  | [] => false
  | c :: t =>
      match skip with
      | S k => hit key false k t
      | O =>
          match (if bol then match_here key s else None) with
          | Some _ => true
          | None => hit key (bool_decide (c = LF)) O t
          end
      end
  end.

(** The end of a line: the end of the text, or a LF next. *)
Definition eol (rest : gostring) : Prop :=
  match rest with [] => True | c :: _ => c = LF end.

(** The start of a line: the start of the text, or a LF before. *)
Definition bol_after (pre : gostring) : Prop :=
  pre = [] ∨ last pre = Some LF.

(** The export marker of a data line, as [updateEnvFile] accepts it:
    nothing, or [export] and white space. *)
Definition export_marker (exp : gostring) : Prop :=
  exp = [] ∨ ∃ sp, exp = bs "export" ++ sp ∧ sp ≠ []
                   ∧ Forall (λ c, re_space c = true) sp.

(** A data line for [key] starts at the head of [s]: marker, key, [=]. *)
Definition assigns (key s : gostring) : Prop :=
  ∃ exp rest, s = exp ++ key ++ [EQ] ++ rest ∧ export_marker exp.

(** The document has a data line for [key]. *)
Definition has_line_for (key content : gostring) : Prop :=
  ∃ pre post, content = pre ++ post ∧ bol_after pre ∧ assigns key post.

(** A key that can stand in a data line: no [=] and no LF in it. *)
Definition key_token (key : gostring) : Prop := EQ ∉ key ∧ LF ∉ key.

(** The LF the second loop puts before the first line it appends. *)
Definition line_break (content : gostring) : gostring :=
  if bool_decide (content = []) || HasSuffix content [LF] then [] else [LF].

(** The final step of the serialisation. *)
Definition terminated (content : gostring) : gostring :=
  if HasSuffix content [LF] then content else content ++ [LF].

(** No call fails in [E]. *)
Definition no_faults (E : env) : Prop :=
  stat_fails E = false ∧ read_fails E = false ∧ create_fails E = false
  ∧ chmod_fails E = false ∧ write_fails E = None ∧ sync_fails E = false
  ∧ close_fails E = false ∧ rename_fails E = false.

(** The content of the file at [path], empty when there is none. *)
Definition content_at (w : world) (path : gostring) : gostring :=
  from_option f_data [] (fs w !! path).

Definition snapshot_small : ConfigPayload :=
  {| pSmallBid := Some f64_0_1; pLargeBid := None; pMaxConcurrency := None |}.

(** Whether [^] holds after [pre], when [bol] tells whether it held
    before. *)
Definition starts (bol : bool) (pre : gostring) : Prop :=
  (pre = [] ∧ bol = true) ∨ last pre = Some LF.


(** How a text ends: not at all, as a lone LF, in two LF or more, or
    otherwise (in no LF, or in one after another byte). *)
Inductive ending := Empty | OneLF | ManyLF | Plain.

Definition ending_cons (c : ascii) (e : ending) : ending :=
  match e with
  | Empty => if bool_decide (c = LF) then OneLF else Plain
  | OneLF => if bool_decide (c = LF) then ManyLF else Plain
  | ManyLF => ManyLF
  | Plain => Plain
  end.

Fixpoint ending_of (s : gostring) : ending :=
  match s with
  | [] => Empty
  | c :: t => ending_cons c (ending_of t)
  end.

(** After a text that ends in another byte than LF, only what follows
    counts, and a lone LF is no longer alone. *)
Definition ending_after (e : ending) : ending :=
  match e with ManyLF => ManyLF | _ => Plain end.

(** The bytes of the name of an environment variable: letters, digits
    and the underscore. *)
Definition name_char (c : ascii) : bool :=
  let n := N_of_ascii c in
  ((48 <=? n) && (n <=? 57) || (65 <=? n) && (n <=? 90)
   || (97 <=? n) && (n <=? 122) || (n =? 95))%N.

Definition env_name (k : gostring) : Prop :=
  k ≠ [] ∧ Forall (λ c, name_char c = true) k.

(** The baseline after [snapshot_small] was applied to a fresh one. *)
Definition baseline_small : LastSeen := advance snapshot_small LastSeen_zero.

(** A snapshot without NaN, as every snapshot decoded from JSON is. *)
Definition finite_snapshot (payload : ConfigPayload) : Prop :=
  pSmallBid payload ≠ Some S754_nan ∧ pLargeBid payload ≠ Some S754_nan.

(** The environment [E], but for what the commands do. *)
Definition with_exec (E : env) (f : nat → bool) : env :=
  {| stat_fails := stat_fails E; read_fails := read_fails E;
     tmp_random := tmp_random E; create_fails := create_fails E;
     chmod_fails := chmod_fails E; write_fails := write_fails E;
     sync_fails := sync_fails E; close_fails := close_fails E;
     rename_fails := rename_fails E;
     confirm_read_fails := confirm_read_fails E; exec_fails := f;
     range_order := range_order E |}.

(** The bytes canonical values are made of. *)
Definition value_chars : gostring := bs "0123456789.-+InfNa".

(** A snapshot with the three parameters. *)
Definition snapshot_full : ConfigPayload :=
  {| pSmallBid := Some f64_0_1; pLargeBid := Some f64_0_500000000001;
     pMaxConcurrency := Some 10 |}.

(** Every line of the text fits the scanner: no run of bytes without LF
    is as long as [MaxScanTokenSize]. *)
Definition short_lines (s : gostring) : Prop :=
  ∀ a l b, s = a ++ l ++ b → LF ∉ l → Z.of_nat (length l) < MaxScanTokenSize.

(** The scanner gets through [b] and starts a line after it. *)
Definition line_wise (b : gostring) : Prop :=
  ∀ s, scan (b ++ s) [] = scan b [] ++ scan s [].

(** * Properties *)

(** ** Change detection *)

Lemma env_keys_distinct :
  envSmallBid ≠ envLargeBid ∧ envSmallBid ≠ envMaxConcurrency
  ∧ envLargeBid ≠ envMaxConcurrency.
Proof. by repeat split. Qed.

Lemma detectChanges_lookup (payload : ConfigPayload) (last : LastSeen) :
  let updates := detectChanges payload last in
  updates !! envSmallBid
    = (v ← pSmallBid payload;
       if stale last (HasSmallBid last) (float_ne (SmallBid last) v)
       then Some (formatFloat v) else None)
  ∧ updates !! envLargeBid
    = (v ← pLargeBid payload;
       if stale last (HasLargeBid last) (float_ne (LargeBid last) v)
       then Some (formatFloat v) else None)
  ∧ updates !! envMaxConcurrency
    = (v ← pMaxConcurrency payload;
       if stale last (HasMaxConcurrency last)
            (negb (bool_decide (MaxConcurrency last = v)))
       then Some (Sprintf_d v) else None).
Proof.
  destruct env_keys_distinct as (H12 & H13 & H23).
  unfold detectChanges, stale.
  destruct (pSmallBid payload) as [a|], (pLargeBid payload) as [b|],
    (pMaxConcurrency payload) as [c|]; simpl;
    repeat match goal with
           | |- context [if ?b then _ else _] => destruct b
           end;
    by simplify_map_eq.
Qed.

Lemma detectChanges_keys (payload : ConfigPayload) (last : LastSeen) (k : gostring) :
  is_Some (detectChanges payload last !! k) →
  k = envSmallBid ∨ k = envLargeBid ∨ k = envMaxConcurrency.
Proof.
  unfold detectChanges.
  destruct (pSmallBid payload) as [a|], (pLargeBid payload) as [b|],
    (pMaxConcurrency payload) as [c|]; simpl;
    repeat match goal with
           | |- context [if ?b then _ else _] => destruct b
           end;
    intros [v Hv];
    repeat (apply lookup_insert_Some in Hv as [[<- _]|[_ Hv]]; [by auto|]);
    by rewrite lookup_empty in Hv.
Qed.

(** C5. The update set holds a parameter exactly when the snapshot has it
    and the baseline is not initialized, or has no value for it, or has a
    value that differs under [!=]; it holds nothing else; and it is empty
    when the initialized baseline equals every field the snapshot has. *)
Theorem diff_includes_exactly_the_stale (payload : ConfigPayload) (last : LastSeen) :
  let updates := detectChanges payload last in
  (∀ text, updates !! envSmallBid = Some text ↔
     ∃ v, pSmallBid payload = Some v ∧ text = formatFloat v
          ∧ (Initialized last = false ∨ HasSmallBid last = false
             ∨ SFeqb (SmallBid last) v = false))
  ∧ (∀ text, updates !! envLargeBid = Some text ↔
     ∃ v, pLargeBid payload = Some v ∧ text = formatFloat v
          ∧ (Initialized last = false ∨ HasLargeBid last = false
             ∨ SFeqb (LargeBid last) v = false))
  ∧ (∀ text, updates !! envMaxConcurrency = Some text ↔
     ∃ v, pMaxConcurrency payload = Some v ∧ text = Sprintf_d v
          ∧ (Initialized last = false ∨ HasMaxConcurrency last = false
             ∨ MaxConcurrency last ≠ v))
  ∧ (∀ k, is_Some (updates !! k) →
       k = envSmallBid ∨ k = envLargeBid ∨ k = envMaxConcurrency)
  ∧ (Initialized last = true →
     (∀ v, pSmallBid payload = Some v →
        HasSmallBid last = true ∧ SFeqb (SmallBid last) v = true) →
     (∀ v, pLargeBid payload = Some v →
        HasLargeBid last = true ∧ SFeqb (LargeBid last) v = true) →
     (∀ v, pMaxConcurrency payload = Some v →
        HasMaxConcurrency last = true ∧ MaxConcurrency last = v) →
     updates = ∅).
Proof.
  intros updates.
  destruct (detectChanges_lookup payload last) as (H1 & H2 & H3).
  fold updates in H1, H2, H3.
  assert (Hst : ∀ has d, stale last has d = true ↔
            Initialized last = false ∨ has = false ∨ d = true).
  { intros has d. unfold stale. destruct (Initialized last), has, d; naive_solver. }
  split_and!.
  - intros text. rewrite H1. destruct (pSmallBid payload) as [v|]; simpl.
    + destruct (stale _ _ _) eqn:Hs.
      * apply Hst in Hs. unfold float_ne in Hs. rewrite negb_true_iff in Hs.
        naive_solver.
      * split; [done|]. intros (v' & [= <-] & _ & Hc).
        assert (stale last (HasSmallBid last) (float_ne (SmallBid last) v) = true);
          [|congruence].
        apply Hst. unfold float_ne. rewrite negb_true_iff. done.
    + naive_solver.
  - intros text. rewrite H2. destruct (pLargeBid payload) as [v|]; simpl.
    + destruct (stale _ _ _) eqn:Hs.
      * apply Hst in Hs. unfold float_ne in Hs. rewrite negb_true_iff in Hs.
        naive_solver.
      * split; [done|]. intros (v' & [= <-] & _ & Hc).
        assert (stale last (HasLargeBid last) (float_ne (LargeBid last) v) = true);
          [|congruence].
        apply Hst. unfold float_ne. rewrite negb_true_iff. done.
    + naive_solver.
  - intros text. rewrite H3. destruct (pMaxConcurrency payload) as [v|]; simpl.
    + destruct (stale _ _ _) eqn:Hs.
      * apply Hst in Hs. rewrite negb_true_iff, bool_decide_eq_false in Hs.
        naive_solver.
      * split; [done|]. intros (v' & [= <-] & _ & Hc).
        assert (stale last (HasMaxConcurrency last)
                  (negb (bool_decide (MaxConcurrency last = v))) = true);
          [|congruence].
        apply Hst. rewrite negb_true_iff, bool_decide_eq_false. done.
    + naive_solver.
  - apply detectChanges_keys.
  - intros Hi Ha Hb Hc. apply map_eq. intros k. rewrite lookup_empty.
    apply eq_None_not_Some. intros Hk.
    assert (Hns : ∀ has d, has = true → d = false → stale last has d = false).
    { intros has d -> ->. unfold stale. by rewrite Hi. }
    apply detectChanges_keys in Hk as Hk'. fold updates in Hk.
    destruct Hk' as [->|[->| ->]].
    + rewrite H1 in Hk. destruct (pSmallBid payload) as [v|]; simpl in Hk;
        [|by destruct Hk].
      destruct (Ha v eq_refl) as [Hh He].
      rewrite Hns in Hk; [by destruct Hk|done|]. unfold float_ne. by rewrite He.
    + rewrite H2 in Hk. destruct (pLargeBid payload) as [v|]; simpl in Hk;
        [|by destruct Hk].
      destruct (Hb v eq_refl) as [Hh He].
      rewrite Hns in Hk; [by destruct Hk|done|]. unfold float_ne. by rewrite He.
    + rewrite H3 in Hk. destruct (pMaxConcurrency payload) as [v|]; simpl in Hk;
        [|by destruct Hk].
      destruct (Hc v eq_refl) as [Hh He].
      rewrite Hns in Hk; [by destruct Hk|done|]. by rewrite bool_decide_eq_true_2.
Qed.

Lemma diff_includes_exactly_the_stale_witness :
  detectChanges snapshot_small baseline_small = ∅.
Proof.
  refine (proj2 (proj2 (proj2 (proj2
    (diff_includes_exactly_the_stale snapshot_small baseline_small)))) _ _ _ _).
  - reflexivity.
  - intros v [= <-]. by vm_compute.
  - intros v Hv. discriminate Hv.
  - intros v Hv. discriminate Hv.
Defined.

(** ** The atomic write *)

Lemma tempName_ne (path random : gostring) : tempName path random ≠ path.
Proof.
  unfold tempName. intros H. apply (f_equal length) in H.
  rewrite !length_app in H. simpl in H. lia.
Qed.

Local Ltac ends_early r w :=
  exists r, w, []; simpl; split_and!; try done;
  intros ? Hnil; by apply elem_of_nil in Hnil.

Local Ltac in_cases H :=
  repeat (apply elem_of_cons in H as [->|H]);
  [..|by apply elem_of_nil in H].

Local Ltac run_ends :=
  split; [reflexivity|]; split; [reflexivity|]; split; [reflexivity|];
  simpl; try split.

(** The way [updateEnvFile] ends, and the states of the files on the way:
    up to the replace step they differ from the first at the temporary name
    only. *)
Lemma updateEnvFile_run (E : env) (path : gostring)
    (updates : gmap gostring gostring) (w : world) :
  let tmp := tempName path (tmp_random E) in
  let out := rewriteEnv (range_order E 0 updates) (range_order E 1 updates)
               (from_option f_data [] (fs w !! path)) in
  ∃ r w' mid,
    updateEnvFile E path updates w = (r, w')
    ∧ ran w' = ran w
    ∧ states w' = mid ++ states w
    ∧ match r with
      | Ok _ =>
          ∃ content, out = Some content
            ∧ fs w !! tmp = None
            ∧ fs w' = <[path := File content (new_perm (fs w !! path))]> (fs w)
            ∧ ∃ before, mid = fs w' :: before
                ∧ ∀ s, s ∈ before → ∀ k, k ≠ tmp → s !! k = fs w !! k
      | _ =>
          fs w' = fs w ∧ ∀ s, s ∈ mid → ∀ k, k ≠ tmp → s !! k = fs w !! k
      end.
Proof.
  intros tmp out. pose proof (tempName_ne path (tmp_random E)) as Hne.
  fold tmp in Hne.
  unfold updateEnvFile. fold tmp.
  destruct (stat_fails E); [ends_early (@Failed ()  ErrStat) w|].
  destruct (bool_decide (is_Some (fs w !! path)) && read_fails E);
    [ends_early (@Failed () ErrRead) w|].
  fold out. destruct out as [content|]; [|ends_early (@Panic ()) w].
  unfold mbind, io_bind, CreateTemp. fold tmp.
  destruct (create_fails E); simpl; [ends_early (@Failed () ErrCreateTemp) w|].
  case_bool_decide as Htmp; simpl; [ends_early (@Failed () ErrCreateTemp) w|].
  apply eq_None_not_Some in Htmp.
  set (s1 := <[tmp := File [] temp_perm]> (fs w)).
  assert (Hs1 : ∀ k, k ≠ tmp → s1 !! k = fs w !! k)
    by (intros k Hk; unfold s1; by rewrite lookup_insert_ne).
  assert (Hdel : ∀ f, delete tmp (<[tmp := f]> s1) = fs w).
  { intros f. unfold s1. rewrite insert_insert_eq, delete_insert_eq.
    by apply delete_id. }
  assert (Hdel1 : delete tmp s1 = fs w)
    by (unfold s1; rewrite delete_insert_eq; by apply delete_id).
  unfold defer, Chmod, WriteString, check, Rename, Remove, commit, states, mret, io_ret.
  destruct (fs w !! path) as [orig|] eqn:Horig; simpl.
  - (* the file was there: chmod first *)
    destruct (chmod_fails E); simpl.
    { unfold s1 at 1. rewrite lookup_insert_eq. simpl.
      eexists _, _, [_; _]. run_ends; [done|].
      intros s Hs k Hk. in_cases Hs; [|by apply Hs1].
      by rewrite Hdel1. }
    unfold s1 at 1. rewrite lookup_insert_eq. simpl.
    rewrite lookup_insert_eq. simpl.
    set (s2 := <[tmp := File [] (f_perm orig)]> s1).
    assert (Hs2 : ∀ k, k ≠ tmp → s2 !! k = fs w !! k)
      by (intros k Hk; unfold s2; rewrite lookup_insert_ne by done; by apply Hs1).
    destruct (write_fails E) as [n|]; simpl.
    { rewrite lookup_insert_eq. simpl.
      eexists _, _, [_; _; _; _]. run_ends.
      - unfold s2. rewrite insert_insert_eq. apply Hdel.
      - intros s Hs k Hk.
        in_cases Hs; [| |by apply Hs2|by apply Hs1].
        + unfold s2. by rewrite insert_insert_eq, Hdel.
        + rewrite lookup_insert_ne by done. by apply Hs2. }
    set (s3 := <[tmp := File content (f_perm orig)]> s2).
    assert (Hs3 : ∀ k, k ≠ tmp → s3 !! k = fs w !! k)
      by (intros k Hk; unfold s3; rewrite lookup_insert_ne by done; by apply Hs2).
    assert (Hd3 : delete tmp s3 = fs w)
      by (unfold s3, s2; rewrite insert_insert_eq; apply Hdel).
    assert (Hl3 : s3 !! tmp = Some (File content (f_perm orig)))
      by (unfold s3; apply lookup_insert_eq).
    assert (Hmid : ∀ s, s ∈ [delete tmp s3; s3; s2; s1] →
              ∀ k, k ≠ tmp → s !! k = fs w !! k).
    { intros s Hs k Hk.
      in_cases Hs; [|by apply Hs3|by apply Hs2|by apply Hs1].
      by rewrite Hd3. }
    destruct (sync_fails E); simpl.
    { rewrite Hl3. eexists _, _, [_; _; _; _]. run_ends; [exact Hd3|exact Hmid]. }
    destruct (close_fails E); simpl.
    { rewrite Hl3. eexists _, _, [_; _; _; _]. run_ends; [exact Hd3|exact Hmid]. }
    destruct (rename_fails E); simpl.
    { rewrite Hl3. eexists _, _, [_; _; _; _]. run_ends; [exact Hd3|exact Hmid]. }
    rewrite Hl3. simpl.
    rewrite lookup_insert_ne by done. rewrite lookup_delete_eq.
    eexists _, _, [_; _; _; _]. run_ends.
    exists content. split_and!; [done|done| |].
    + fold s3. by rewrite Hd3.
    + eexists. split; [done|]. intros s Hs. apply Hmid. by apply elem_of_cons; right.
  - (* no file yet *)
    unfold s1 at 1. rewrite lookup_insert_eq. simpl.
    destruct (write_fails E) as [n|]; simpl.
    { rewrite lookup_insert_eq. simpl.
      eexists _, _, [_; _; _]. run_ends.
      - apply Hdel.
      - intros s Hs k Hk.
        in_cases Hs; [| |by apply Hs1].
        + by rewrite Hdel.
        + rewrite lookup_insert_ne by done. by apply Hs1. }
    set (s3 := <[tmp := File content temp_perm]> s1).
    assert (Hs3 : ∀ k, k ≠ tmp → s3 !! k = fs w !! k)
      by (intros k Hk; unfold s3; rewrite lookup_insert_ne by done; by apply Hs1).
    assert (Hd3 : delete tmp s3 = fs w) by apply Hdel.
    assert (Hl3 : s3 !! tmp = Some (File content temp_perm))
      by (unfold s3; apply lookup_insert_eq).
    assert (Hmid : ∀ s, s ∈ [delete tmp s3; s3; s1] →
              ∀ k, k ≠ tmp → s !! k = fs w !! k).
    { intros s Hs k Hk.
      in_cases Hs; [|by apply Hs3|by apply Hs1].
      by rewrite Hd3. }
    destruct (sync_fails E); simpl.
    { rewrite Hl3. eexists _, _, [_; _; _]. run_ends; [exact Hd3|exact Hmid]. }
    destruct (close_fails E); simpl.
    { rewrite Hl3. eexists _, _, [_; _; _]. run_ends; [exact Hd3|exact Hmid]. }
    destruct (rename_fails E); simpl.
    { rewrite Hl3. eexists _, _, [_; _; _]. run_ends; [exact Hd3|exact Hmid]. }
    rewrite Hl3. simpl.
    rewrite lookup_insert_ne by done. rewrite lookup_delete_eq.
    eexists _, _, [_; _; _]. run_ends.
    exists content. split_and!; [done|done| |].
    + fold s3. by rewrite Hd3.
    + eexists. split; [done|]. intros s Hs. apply Hmid. by apply elem_of_cons; right.
Qed.

(** C4. When [updateEnvFile] does not succeed, and so when it fails at
    any step before the replace step (creating the temporary file, chmod,
    write, sync, close), the files are afterwards what they were: the
    temporary file is gone and the target is untouched.  In every state the
    files go through, the target is what it was at the start, but for the
    last state of a successful call, where it is the whole new content, put
    there by the rename. *)
Theorem target_changes_only_by_the_rename (E : env) (path : gostring)
    (updates : gmap gostring gostring) (w : world) :
  let r := (updateEnvFile E path updates w).1 in
  let w' := (updateEnvFile E path updates w).2 in
  (r ≠ Ok () → fs w' = fs w)
  ∧ (∀ s, s ∈ states w' →
       s ∈ states w
       ∨ s !! path = fs w !! path
       ∨ (r = Ok () ∧ s = fs w'
          ∧ ∃ content,
              rewriteEnv (range_order E 0 updates) (range_order E 1 updates)
                (from_option f_data [] (fs w !! path)) = Some content
              ∧ s !! path = Some (File content (new_perm (fs w !! path))))).
Proof.
  intros r w'. subst r w'.
  pose proof (tempName_ne path (tmp_random E)) as Hne.
  destruct (updateEnvFile_run E path updates w)
    as (r & w' & mid & -> & _ & Hst & Hr). simpl.
  split.
  - intros Hnok. destruct r as [[]| |]; [done|by destruct Hr..].
  - intros s. rewrite Hst, elem_of_app. intros [Hs|Hs]; [|by left].
    right. destruct r as [[]|e|].
    + destruct Hr as (content & Hout & _ & Hfs & before & -> & Hb).
      apply elem_of_cons in Hs as [->|Hs].
      * right. split_and!; [done..|]. exists content. split; [done|].
        rewrite Hfs. apply lookup_insert_eq.
      * left. by apply Hb.
    + left. destruct Hr as [_ Hm]. by apply Hm.
    + left. destruct Hr as [_ Hm]. by apply Hm.
Qed.

Lemma target_changes_only_by_the_rename_witness :
  fs (updateEnvFile (short_write 3) dotenv {[ bs "A" := bs "2" ]}
        (machine (text ["A=1"]))).2
  = fs (machine (text ["A=1"])).
Proof.
  refine (proj1 (target_changes_only_by_the_rename (short_write 3) dotenv
                   {[ bs "A" := bs "2" ]} (machine (text ["A=1"]))) _).
  vm_compute. discriminate.
Defined.

(** Confirmation reads the file and changes nothing. *)
Lemma confirmEnvValues_reads_only (E : env) (path : gostring)
    (expected : gmap gostring gostring) (w : world) :
  (confirmEnvValues E path expected w).2 = w.
Proof.
  unfold confirmEnvValues.
  destruct (fs w !! path); [|done]. by destruct (confirm_read_fails E).
Qed.

(** ** The cycle *)

(** C3. In a cycle whose apply step or confirm step fails, the baseline
    after the cycle is the baseline before it, field for field. *)
Theorem baseline_untouched_when_apply_or_confirm_fails (E : env)
    (payload : ConfigPayload) (envPath : gostring) (last : LastSeen)
    (dryRun : bool) (w : world) :
  let updates := detectChanges payload last in
  let applied := updateEnvFile E envPath updates w in
  applied.1 ≠ Ok () ∨ (confirmEnvValues E envPath updates applied.2).1 ≠ Ok () →
  (pollAndUpdate E (Payload payload) envPath last dryRun w).1.2 = last.
Proof.
  intros updates applied Hfail. unfold pollAndUpdate. fold updates.
  case_bool_decide; [done|]. fold applied.
  destruct applied as [[[]|e|] w1]; simpl in *; [|done..].
  destruct (confirmEnvValues E envPath updates w1) as [[[]|e|] w2];
    simpl in *; [|done..].
  naive_solver.
Qed.

(** ** Canonical formatting *)

Lemma float64_literals :
  nearest_float64 500000000001 (10 ^ 12) f64_0_500000000001
  ∧ nearest_float64 10 1 f64_10
  ∧ nearest_float64 1 (10 ^ 7) f64_1e_7
  ∧ nearest_float64 1 10 f64_0_1.
Proof. by vm_compute. Qed.

Lemma TrimRight_snoc (s : gostring) (d c : ascii) :
  TrimRight (s ++ [d]) c = if bool_decide (d = c) then TrimRight s c else s ++ [d].
Proof.
  induction s as [|a s IH]; simpl; [by case_bool_decide|].
  rewrite IH. case_bool_decide; [done|]. by destruct s.
Qed.

Lemma TrimRight_app_keep (x y : gostring) (c : ascii) :
  TrimRight y c ≠ [] → TrimRight (x ++ y) c = x ++ TrimRight y c.
Proof.
  intros Hy. induction x as [|a x IH]; simpl; [done|].
  rewrite IH. by destruct (x ++ TrimRight y c) eqn:Hx;
    [apply app_eq_nil in Hx as [_ ?]|].
Qed.

Lemma TrimRight_without (s : gostring) (c : ascii) :
  c ∉ s → TrimRight s c = s.
Proof.
  induction s as [|a s IH]; simpl; [done|].
  intros [Ha Hs]%not_elem_of_cons. rewrite IH by done.
  destruct s; [|done]. by rewrite bool_decide_eq_false_2.
Qed.

Lemma TrimRight_prefix (s : gostring) (c : ascii) : TrimRight s c `prefix_of` s.
Proof.
  induction s as [|a s IH]; simpl; [done|].
  destruct (TrimRight s c) eqn:Ht.
  - case_bool_decide; [apply prefix_nil|]. apply prefix_cons, prefix_nil.
  - by apply prefix_cons.
Qed.

Lemma TrimRight_strip (s : gostring) :
  TrimRight s "0" = strip_zeros s.
Proof.
  unfold strip_zeros. induction s as [|d s IH] using rev_ind; [done|].
  rewrite TrimRight_snoc, reverse_snoc. simpl.
  case_bool_decide; [done|]. by rewrite reverse_cons, reverse_involutive.
Qed.

Local Ltac digits_mem :=
  solve [vm_compute; repeat first [apply list_elem_of_here | apply list_elem_of_further]].

Lemma digit_is_digit (n : Z) :
  digit n ∈ bs "0123456789".
Proof.
  unfold digit. pose proof (Z.mod_pos_bound n 10 eq_refl) as Hb.
  assert (Hc : Z.to_nat (n mod 10) ∈ seq 0 10) by (apply elem_of_seq; lia).
  revert Hc. generalize (Z.to_nat (n mod 10)). intros k Hk. simpl in Hk.
  repeat (apply elem_of_cons in Hk as [->|Hk]; [digits_mem|]).
  by apply elem_of_nil in Hk.
Qed.

Lemma decimal_digits (n : Z) :
  decimal n ≠ [] ∧ ∀ c, c ∈ decimal n → c ∈ bs "0123456789".
Proof.
  unfold decimal.
  assert (Hcons : ∀ d (l : gostring), d ∈ bs "0123456789" →
            (∀ c, c ∈ l → c ∈ bs "0123456789") →
            ∀ c, c ∈ d :: l → c ∈ bs "0123456789").
  { intros d l Hd Hl c Hc. apply elem_of_cons in Hc as [->|Hc]; auto. }
  assert (Hu : ∀ u, ∀ c, c ∈ bs (NilEmpty.string_of_uint u) → c ∈ bs "0123456789").
  { induction u; simpl; [by intros c Hc%elem_of_nil|..];
      (apply Hcons; [digits_mem|exact IHu]). }
  destruct (N.to_uint (Z.to_N n)) eqn:Hn; simpl; (split; [done|]);
    apply Hcons; first [digits_mem|apply Hu|by intros c Hc%elem_of_nil].
Qed.

Lemma not_digit (c : ascii) :
  c ∈ bs "0123456789" → c ≠ "."%char ∧ c ≠ "-"%char.
Proof.
  intros Hc. simpl in Hc.
  repeat (apply elem_of_cons in Hc as [->|Hc]; [done|]).
  by apply elem_of_nil in Hc.
Qed.

(** The two trims of [formatFloat], on an integer part, a point and a
    fraction of digits. *)
Lemma trims_canonical (whole frac : gostring) :
  "."%char ∉ whole → whole ≠ [] →
  (∀ c, c ∈ frac → c ∈ bs "0123456789") →
  TrimRight (TrimRight (whole ++ bs "." ++ frac) "0") "." = canonical whole frac.
Proof.
  intros Hw Hw' Hfrac. unfold canonical. rewrite <-TrimRight_strip.
  set (z := TrimRight frac "0").
  assert (Hz : ∀ c, c ∈ z → c ∈ bs "0123456789").
  { intros c Hc. eapply elem_of_prefix in Hc; [|apply TrimRight_prefix]. auto. }
  assert (H1 : TrimRight (whole ++ bs "." ++ frac) "0" = whole ++ bs "." ++ z).
  { rewrite TrimRight_app_keep; [f_equal|]; simpl; fold z; by destruct z. }
  rewrite H1. case_bool_decide as Hz0.
  - rewrite Hz0. simpl. rewrite TrimRight_snoc. simpl.
    by apply TrimRight_without.
  - assert (Hzz : TrimRight z "." = z).
    { apply TrimRight_without. intros Hc. apply Hz in Hc.
      apply not_digit in Hc as [Hc _]. by apply Hc. }
    replace (whole ++ bs "." ++ z) with ((whole ++ bs ".") ++ z)
      by (by rewrite <-app_assoc).
    rewrite TrimRight_app_keep; rewrite Hzz; [|done].
    by rewrite <-app_assoc.
Qed.

Lemma six_digits_digits (n : Z) (c : ascii) :
  c ∈ six_digits n → c ∈ bs "0123456789".
Proof.
  unfold six_digits. intros Hc.
  repeat (apply elem_of_cons in Hc as [->|Hc]; [apply digit_is_digit|]).
  by apply elem_of_nil in Hc.
Qed.

(** [%.6f] of a number, then the two trims: the canonical text. *)
Lemma formatFloat_number (f : spec_float) (s : bool) (n : Z) :
  millionths f = Some (s, n) →
  Sprintf_6f f = sign_text s ++ decimal (n / 10 ^ 6) ++ bs "." ++ six_digits n
  ∧ formatFloat f = canonical (sign_text s ++ decimal (n / 10 ^ 6)) (six_digits n).
Proof.
  intros Hm.
  assert (Hp : Sprintf_6f f = sign_text s ++ decimal (n / 10 ^ 6) ++ bs "." ++ six_digits n).
  { destruct f; simplify_eq/=; by unfold fixed6. }
  split; [done|]. unfold formatFloat. rewrite Hp.
  destruct (decimal_digits (n / 10 ^ 6)) as [Hne Hdig].
  rewrite (app_assoc (sign_text s)). apply trims_canonical.
  - intros [Hc|Hc]%elem_of_app.
    + destruct s; [|by apply elem_of_nil in Hc].
      by apply list_elem_of_singleton in Hc.
    + apply Hdig in Hc. apply not_digit in Hc as [Hc _]. by apply Hc.
  - by intros [_ Hd]%app_eq_nil.
  - apply six_digits_digits.
Qed.


(** C6. A decimal value is rendered with six decimals, then loses the
    trailing zeros of its fraction, and the decimal point when no fraction
    is left.  So 0.500000000001 is written [0.5] and 10.0 is written [10]. *)
Theorem formatFloat_is_canonical :
  (∀ f s n, millionths f = Some (s, n) →
     Sprintf_6f f = sign_text s ++ decimal (n / 10 ^ 6) ++ bs "." ++ six_digits n
     ∧ formatFloat f
       = canonical (sign_text s ++ decimal (n / 10 ^ 6)) (six_digits n))
  ∧ formatFloat f64_0_500000000001 = bs "0.5"
  ∧ formatFloat f64_10 = bs "10".
Proof.
  split; [exact formatFloat_number|]. by vm_compute.
Qed.

Lemma formatFloat_is_canonical_witness :
  Sprintf_6f f64_0_1 = bs "0.100000"
  ∧ formatFloat f64_0_1 = canonical (bs "0") (bs "100000").
Proof.
  exact (proj1 formatFloat_is_canonical f64_0_1 false 100000 eq_refl).
Defined.




(** ** The pattern *)

Lemma HasPrefix_spec (s p : gostring) :
  HasPrefix s p = true ↔ ∃ r, s = p ++ r.
Proof.
  unfold HasPrefix. rewrite andb_true_iff, !bool_decide_eq_true. split.
  - intros [_ Ht]. exists (drop (length p) s).
    rewrite <-Ht at 1. by rewrite take_drop.
  - intros [r ->]. rewrite length_app. split; [lia|].
    by rewrite take_app_length.
Qed.

Lemma HasPrefix_app (p r : gostring) : HasPrefix (p ++ r) p = true.
Proof. apply HasPrefix_spec. by exists r. Qed.

Lemma HasPrefix_take (s p : gostring) (k : nat) :
  HasPrefix (take k s) p = true → HasPrefix s p = true.
Proof.
  rewrite !HasPrefix_spec. intros [r Hr]. exists (r ++ drop k s).
  by rewrite app_assoc, <-Hr, take_drop.
Qed.

Lemma HasSuffix_spec (s p : gostring) :
  HasSuffix s p = true ↔ ∃ r, s = r ++ p.
Proof.
  unfold HasSuffix. rewrite andb_true_iff, !bool_decide_eq_true. split.
  - intros [_ Ht]. exists (take (length s - length p) s).
    rewrite <-Ht at 2. by rewrite take_drop.
  - intros [r ->]. rewrite length_app. split; [lia|].
    replace (length r + length p - length p)%nat with (length r) by lia.
    by rewrite drop_app_length.
Qed.

Lemma dot_star_app (v rest : gostring) :
  LF ∉ v → eol rest → dot_star (v ++ rest) = length v.
Proof.
  intros Hv Hr. induction v as [|c v IH]; simpl.
  - destruct rest as [|c rest]; [done|]. simpl in *. by rewrite bool_decide_eq_true_2.
  - apply not_elem_of_cons in Hv as [Hc Hv].
    rewrite bool_decide_eq_false_2 by done. by rewrite IH.
Qed.

Lemma dot_star_split (s : gostring) :
  LF ∉ take (dot_star s) s ∧ eol (drop (dot_star s) s)
  ∧ (dot_star s ≤ length s)%nat.
Proof.
  induction s as [|c s (IH1 & IH2 & IH3)]; simpl.
  - split_and!; [by intros ?%elem_of_nil|done|done].
  - case_bool_decide as Hc; simpl.
    + split_and!; [by intros ?%elem_of_nil|done|lia].
    + split_and!; [|done|lia]. by apply not_elem_of_cons.
Qed.

Lemma eq_not_space : re_space EQ = false.
Proof. done. Qed.

Lemma spaces_no_eq (sp : gostring) :
  Forall (λ c, re_space c = true) sp → EQ ∉ sp.
Proof.
  intros Hsp Hin. rewrite Forall_forall in Hsp. apply Hsp in Hin.
  by rewrite eq_not_space in Hin.
Qed.

Lemma marker_no_eq (exp : gostring) : export_marker exp → EQ ∉ exp.
Proof.
  intros [->|(sp & -> & _ & Hsp)]; [by intros ?%elem_of_nil|].
  intros [Hx|Hx]%elem_of_app; [|by apply spaces_no_eq in Hx].
  simpl in Hx. repeat (apply elem_of_cons in Hx as [Hx|Hx]; [done|]).
  by apply elem_of_nil in Hx.
Qed.

(** Where the first [=] of a text is, there is no doubt. *)
Lemma first_eq_unique (a b x y : gostring) :
  EQ ∉ a → EQ ∉ b → a ++ EQ :: x = b ++ EQ :: y → a = b ∧ x = y.
Proof.
  revert b. induction a as [|c a IH]; intros b Ha Hb Heq.
  - destruct b as [|d b]; simpl in *; [by simplify_eq|].
    simplify_eq. by apply not_elem_of_cons in Hb as [? _].
  - destruct b as [|d b]; simpl in *.
    + simplify_eq. by apply not_elem_of_cons in Ha as [? _].
    + apply not_elem_of_cons in Ha as [_ Ha].
      apply not_elem_of_cons in Hb as [_ Hb]. simplify_eq.
      destruct (IH b Ha Hb) as [-> ->]; done.
Qed.

(** *** What a match is *)

Lemma match_assign_sound (key s : gostring) (n : nat) :
  match_assign key s = Some n →
  ∃ v rest, s = key ++ [EQ] ++ v ++ rest ∧ LF ∉ v ∧ eol rest
            ∧ n = (length key + 1 + length v)%nat.
Proof.
  unfold match_assign. destruct (HasPrefix s (key ++ [EQ])) eqn:Hp; [|done].
  apply HasPrefix_spec in Hp as [r ->]. intros [= <-].
  replace (length key + 1)%nat with (length (key ++ [EQ]))
    by (rewrite length_app; simpl; lia).
  rewrite drop_app_length.
  destruct (dot_star_split r) as (H1 & H2 & H3).
  exists (take (dot_star r) r), (drop (dot_star r) r).
  rewrite take_drop, <-app_assoc. split_and!; [done..|].
  rewrite length_take. lia.
Qed.

Lemma match_assign_complete (key v rest : gostring) :
  LF ∉ v → eol rest →
  match_assign key (key ++ [EQ] ++ v ++ rest)
  = Some (length key + 1 + length v)%nat.
Proof.
  intros Hv Hr. unfold match_assign.
  rewrite (app_assoc key), HasPrefix_app.
  replace (length key + 1)%nat with (length (key ++ [EQ]))
    by (rewrite length_app; simpl; lia).
  by rewrite drop_app_length, dot_star_app.
Qed.

Lemma match_spaces_sound (key s : gostring) (w n : nat) :
  match_spaces key s = Some (w, n) →
  ∃ sp v rest, s = sp ++ key ++ [EQ] ++ v ++ rest ∧ sp ≠ []
    ∧ Forall (λ c, re_space c = true) sp ∧ length sp = w ∧ LF ∉ v ∧ eol rest
    ∧ n = (w + length key + 1 + length v)%nat.
Proof.
  revert w n. induction s as [|c t IH]; intros w n; simpl; [done|].
  destruct (re_space c) eqn:Hc; [|done].
  destruct (match_spaces key t) as [[w' n']|].
  - intros [= <- <-].
    destruct (IH w' n' eq_refl) as (sp & v & rest & -> & _ & Hsp & <- & Hv & Hr & ->).
    exists (c :: sp), v, rest. split_and!; try done. by constructor.
  - destruct (match_assign key t) as [n'|] eqn:Ha; [|done]. intros [= <- <-].
    apply match_assign_sound in Ha as (v & rest & -> & Hv & Hr & ->).
    exists [c], v, rest. split_and!; try done. by repeat constructor.
Qed.

Lemma match_spaces_cons (key : gostring) (c : ascii) (t : gostring) :
  match_spaces key (c :: t)
  = if re_space c then
      match match_spaces key t with
      | Some (w, n) => Some (S w, S n)
      | None => (λ n, (1%nat, S n)) <$> match_assign key t
      end
    else None.
Proof. done. Qed.

Lemma match_spaces_complete (key sp v rest : gostring) :
  EQ ∉ key → sp ≠ [] → Forall (λ c, re_space c = true) sp → LF ∉ v → eol rest →
  match_spaces key (sp ++ key ++ [EQ] ++ v ++ rest)
  = Some (length sp, (length sp + length key + 1 + length v)%nat).
Proof.
  intros Hk Hne Hsp Hv Hr. induction sp as [|c sp IH]; [done|].
  apply Forall_cons in Hsp as [Hc Hsp].
  rewrite <-app_comm_cons, match_spaces_cons, Hc.
  destruct sp as [|d sp].
  - rewrite app_nil_l.
    destruct (match_spaces key _) as [[w n]|] eqn:Hm.
    + apply match_spaces_sound in Hm
        as (sp' & v' & rest' & Heq & Hne' & Hsp' & _).
      apply spaces_no_eq in Hsp'.
      simpl in Heq. rewrite (app_assoc sp') in Heq.
      apply first_eq_unique in Heq as [Heq _]; [|done|].
      * apply (f_equal length) in Heq. rewrite length_app in Heq.
        destruct sp'; [done|simpl in Heq; lia].
      * by intros [?|?]%elem_of_app.
    + by rewrite match_assign_complete.
  - by rewrite IH.
Qed.

Lemma match_here_sound (key s : gostring) (g n : nat) :
  match_here key s = Some (g, n) →
  ∃ exp v rest, s = exp ++ key ++ [EQ] ++ v ++ rest ∧ export_marker exp
    ∧ LF ∉ v ∧ eol rest ∧ g = length exp
    ∧ n = (length exp + length key + 1 + length v)%nat.
Proof.
  unfold match_here.
  destruct (HasPrefix s (bs "export")) eqn:Hp.
  - apply HasPrefix_spec in Hp as [r ->].
    change (drop 6 (bs "export" ++ r)) with r.
    destruct (match_spaces key r) as [[w m]|] eqn:Hm; simpl.
    + intros [= <- <-].
      apply match_spaces_sound in Hm
        as (sp & v & rest & -> & Hne & Hsp & <- & Hv & Hr & ->).
      exists (bs "export" ++ sp), v, rest. rewrite <-app_assoc.
      split_and!; try done; [right; by exists sp|..];
        rewrite length_app; simpl; lia.
    + destruct (match_assign key _) as [m|] eqn:Ha; [|done]. intros [= <- <-].
      apply match_assign_sound in Ha as (v & rest & Hs & Hv & Hr & ->).
      exists [], v, rest. split_and!; try done. by left.
  - destruct (match_assign key s) as [m|] eqn:Ha; [|done]. intros [= <- <-].
    apply match_assign_sound in Ha as (v & rest & Hs & Hv & Hr & ->).
    exists [], v, rest. split_and!; try done. by left.
Qed.

Lemma match_here_complete (key exp v rest : gostring) :
  EQ ∉ key → export_marker exp → LF ∉ v → eol rest →
  match_here key (exp ++ key ++ [EQ] ++ v ++ rest)
  = Some (length exp, (length exp + length key + 1 + length v)%nat).
Proof.
  intros Hk Hexp Hv Hr.
  destruct (match_here key (exp ++ key ++ [EQ] ++ v ++ rest))
    as [[g n]|] eqn:Hm.
  - (* a match is there: it is this one *)
    apply match_here_sound in Hm
      as (exp' & v' & rest' & Heq & Hexp' & Hv' & Hr' & -> & ->).
    rewrite !(app_assoc _ key) in Heq. simpl in Heq.
    apply first_eq_unique in Heq as [Heq Hrest];
      [|intros [?%marker_no_eq|?]%elem_of_app; done..].
    apply app_inj_2 in Heq as [<- _]; [|done].
    assert (v' = v) as ->; [|done].
    clear -Hrest Hv Hv' Hr Hr'. revert v' Hrest Hv'.
    induction v as [|c v IH]; intros [|c' v'] Heq Hv'; simpl in *; try done.
    + destruct rest; simplify_eq/=. by apply not_elem_of_cons in Hv' as [? _].
    + destruct rest'; simplify_eq/=. by apply not_elem_of_cons in Hv as [? _].
    + apply not_elem_of_cons in Hv as [_ Hv].
      apply not_elem_of_cons in Hv' as [_ Hv']. simplify_eq.
      f_equal. by apply IH.
  - (* no match: impossible *)
    exfalso. unfold match_here in Hm.
    destruct Hexp as [->|(sp & -> & Hne & Hsp)].
    + rewrite app_nil_l, match_assign_complete in Hm by done.
      by destruct (if HasPrefix _ _ then _ else _).
    + rewrite <-app_assoc, HasPrefix_app in Hm.
      change (drop 6 (bs "export" ++ ?r)) with r in Hm.
      by rewrite match_spaces_complete in Hm.
Qed.

Lemma match_assign_is_Some (key s : gostring) :
  is_Some (match_assign key s) ↔ HasPrefix s (key ++ [EQ]) = true.
Proof.
  unfold match_assign. destruct (HasPrefix s (key ++ [EQ])).
  - split; [done|]. by eexists.
  - split; [by intros [? ?]|done].
Qed.

(** For any key: where a data line starts, the pattern matches. *)
Lemma match_here_assigns (key s : gostring) :
  is_Some (match_here key s) ↔ assigns key s.
Proof.
  split.
  - intros [[g n] Hm].
    apply match_here_sound in Hm as (exp & v & rest & -> & Hexp & _).
    by exists exp, (v ++ rest).
  - intros (exp & rest & -> & Hexp). unfold match_here.
    assert (Ha : ∀ r, is_Some (match_assign key (key ++ [EQ] ++ rest ++ r))).
    { intros r. apply match_assign_is_Some, HasPrefix_spec.
      exists (rest ++ r). by rewrite <-!app_assoc. }
    destruct Hexp as [->|(sp & -> & Hne & Hsp)].
    + destruct (if HasPrefix _ _ then _ else _); [done|].
      destruct (Ha []) as [n Hn]. rewrite app_nil_r in Hn.
      rewrite app_nil_l, Hn. by eexists.
    + rewrite <-app_assoc, HasPrefix_app.
      change (drop 6 (bs "export" ++ ?r)) with r.
      assert (Hs : is_Some (match_spaces key (sp ++ key ++ [EQ] ++ rest))).
      { induction sp as [|c sp IH]; [done|].
        apply Forall_cons in Hsp as [Hc Hsp].
        rewrite <-app_comm_cons, match_spaces_cons, Hc.
        destruct (match_spaces key (sp ++ _)) as [[w n]|] eqn:Hm; [by eexists|].
        destruct sp as [|d sp]; [|by destruct (IH ltac:(done) Hsp)].
        destruct (Ha []) as [n Hn]. rewrite app_nil_r in Hn.
        rewrite app_nil_l, Hn. by eexists. }
      destruct Hs as [[w n] ->]. by eexists.
Qed.

(** *** The callback never panics *)

Lemma dot_star_take (s : gostring) :
  dot_star (take (dot_star s) s) = dot_star s.
Proof.
  induction s as [|c s IH]; simpl; [done|].
  case_bool_decide as Hc; simpl; [done|].
  by rewrite bool_decide_eq_false_2, IH.
Qed.

Lemma match_assign_take (key s : gostring) (n : nat) :
  match_assign key s = Some n → match_assign key (take n s) = Some n.
Proof.
  unfold match_assign. destruct (HasPrefix s (key ++ [EQ])) eqn:Hp; [|done].
  apply HasPrefix_spec in Hp as [r ->]. intros [= <-].
  assert (Hl : length (key ++ [EQ]) = (length key + 1)%nat)
    by (rewrite length_app; simpl; lia).
  rewrite <-Hl, drop_app_length.
  rewrite take_app_add'; [|done].
  by rewrite HasPrefix_app, drop_app_length, dot_star_take.
Qed.

Lemma match_assign_None_take (key s : gostring) (k : nat) :
  match_assign key s = None → match_assign key (take k s) = None.
Proof.
  unfold match_assign.
  destruct (HasPrefix s (key ++ [EQ])) eqn:Hp; [done|]. intros _.
  destruct (HasPrefix (take k s) (key ++ [EQ])) eqn:Hq; [|done].
  apply HasPrefix_take in Hq. congruence.
Qed.

Lemma match_spaces_None_take (key s : gostring) (k : nat) :
  match_spaces key s = None → match_spaces key (take k s) = None.
Proof.
  revert k. induction s as [|c t IH]; intros [|k]; try done.
  rewrite match_spaces_cons. simpl take. rewrite match_spaces_cons.
  destruct (re_space c); [|done].
  destruct (match_spaces key t) as [[w n]|]; [done|].
  rewrite IH by done.
  destruct (match_assign key t) eqn:Ha; [done|].
  by rewrite match_assign_None_take.
Qed.

Lemma match_spaces_take (key s : gostring) (w n : nat) :
  match_spaces key s = Some (w, n) → match_spaces key (take n s) = Some (w, n).
Proof.
  revert w n. induction s as [|c t IH]; intros w n; [done|].
  rewrite match_spaces_cons. destruct (re_space c) eqn:Hc; [|done].
  destruct (match_spaces key t) as [[w' n']|] eqn:Hm.
  - intros [= <- <-]. simpl take. rewrite match_spaces_cons, Hc.
    by rewrite (IH w' n').
  - destruct (match_assign key t) as [n'|] eqn:Ha; [|done].
    intros [= <- <-]. simpl take. rewrite match_spaces_cons, Hc.
    rewrite match_spaces_None_take by done.
    by rewrite match_assign_take.
Qed.

Lemma match_here_bounds (key s : gostring) (g n : nat) :
  match_here key s = Some (g, n) → (g < n ≤ length s)%nat.
Proof.
  intros (exp & v & rest & -> & _ & _ & _ & -> & ->)%match_here_sound.
  rewrite !length_app. simpl. lia.
Qed.

Lemma match_here_export (key r : gostring) :
  match_here key (bs "export" ++ r)
  = match match_spaces key r with
    | Some (w, n) => Some (6 + w, 6 + n)%nat
    | None => (λ n, (O, n)) <$> match_assign key (bs "export" ++ r)
    end.
Proof.
  unfold match_here. rewrite HasPrefix_app.
  change (drop 6 (bs "export" ++ r)) with r.
  by destruct (match_spaces key r) as [[w n]|].
Qed.

Lemma match_here_plain (key s : gostring) :
  HasPrefix s (bs "export") = false →
  match_here key s = (λ n, (O, n)) <$> match_assign key s.
Proof. unfold match_here. by intros ->. Qed.

Lemma match_here_take (key s : gostring) (g n : nat) :
  match_here key s = Some (g, n) → match_here key (take n s) = Some (g, n).
Proof.
  destruct (HasPrefix s (bs "export")) eqn:Hp.
  - apply HasPrefix_spec in Hp as [r ->]. rewrite match_here_export.
    destruct (match_spaces key r) as [[w m]|] eqn:Hm.
    + intros Heq.
      assert (g = (6 + w)%nat ∧ n = (6 + m)%nat) as [-> ->]
        by (by simplify_eq).
      rewrite take_app_add' by done.
      by rewrite match_here_export, (match_spaces_take _ _ w m).
    + destruct (match_assign key _) as [m|] eqn:Ha; [|done].
      intros [= <- <-].
      destruct (HasPrefix (take m (bs "export" ++ r)) (bs "export")) eqn:Hq.
      * apply HasPrefix_spec in Hq as [q Hq]. rewrite Hq, match_here_export.
        assert (q = take (m - 6) r) as ->.
        { assert (6 ≤ m)%nat as Hm6.
          { apply (f_equal length) in Hq. rewrite length_take in Hq.
            rewrite length_app in Hq. simpl in Hq. lia. }
          change q with (drop 6 (bs "export" ++ q)). rewrite <-Hq.
          replace m with (6 + (m - 6))%nat at 1 by lia.
          by rewrite <-take_drop_commute. }
        rewrite match_spaces_None_take by done.
        by rewrite <-Hq, (match_assign_take _ _ m).
      * rewrite match_here_plain by done.
        by rewrite (match_assign_take _ _ m).
  - rewrite match_here_plain by done.
    destruct (match_assign key s) as [m|] eqn:Ha; [|done].
    intros [= <- <-].
    destruct (HasPrefix (take m s) (bs "export")) eqn:Hq.
    + apply HasPrefix_take in Hq. congruence.
    + rewrite match_here_plain by done.
      by rewrite (match_assign_take _ _ m).
Qed.

Lemma replaceLine_match (key val s : gostring) (g n : nat) :
  match_here key s = Some (g, n) →
  replaceLine key val (take n s) = Some (assignment (take g s) key val).
Proof.
  intros Hm. pose proof (match_here_bounds _ _ _ _ Hm) as Hb.
  apply match_here_take in Hm.
  unfold replaceLine, FindStringSubmatch.
  assert (Hf : find key true (take n s) = Some (O, g, n)).
  { destruct s; simpl in *; [lia|]. destruct n; [lia|].
    simpl in *. by rewrite Hm. }
  rewrite Hf. simpl. rewrite drop_0, take_take.
  by replace (g `min` n)%nat with g by lia.
Qed.

(** [ReplaceAllStringFunc] with the callback of [updateEnvFile] returns,
    and returns what [subst] and [hit] say. *)
Lemma replace_scan_pure (key val : gostring) (bol : bool) (skip : nat) (s : gostring) :
  replace_scan key (replaceLine key val) bol skip s
  = Some (subst key val bol skip s, hit key bol skip s).
Proof.
  revert bol skip. induction s as [|c t IH]; intros bol skip; [done|].
  simpl. destruct skip as [|k]; [|apply IH].
  destruct (if bol then match_here key (c :: t) else None) as [[g n]|] eqn:Hm.
  - destruct bol; [|done].
    rewrite (replaceLine_match key val (c :: t) g n Hm). simpl.
    by rewrite IH.
  - by rewrite IH.
Qed.

(** *** The scan *)

Lemma subst_skip (key val : gostring) (b : bool) (k : nat) (s : gostring) :
  subst key val b (S k) s = subst key val false O (drop (S k) s).
Proof.
  revert b k. induction s as [|c t IH]; intros b k; [done|].
  simpl. destruct k as [|k]; [done|]. by rewrite IH.
Qed.

Lemma hit_skip (key : gostring) (b : bool) (k : nat) (s : gostring) :
  hit key b (S k) s = hit key false O (drop (S k) s).
Proof.
  revert b k. induction s as [|c t IH]; intros b k; [done|].
  simpl. destruct k as [|k]; [done|]. by rewrite IH.
Qed.

Lemma subst_match (key val s : gostring) (g n : nat) :
  match_here key s = Some (g, n) →
  subst key val true O s
  = assignment (take g s) key val ++ subst key val false O (drop n s)
  ∧ hit key true O s = true.
Proof.
  intros Hm. pose proof (match_here_bounds _ _ _ _ Hm) as Hb.
  destruct s as [|c t]; [simpl in Hb; lia|].
  destruct n as [|n]; [lia|].
  cbn [subst hit]. rewrite Hm. split; [|done]. f_equal. cbn [pred].
  destruct n as [|n]; [done|]. by rewrite subst_skip.
Qed.

Lemma subst_step (key val : gostring) (bol : bool) (c : ascii) (t : gostring) :
  (if bol then match_here key (c :: t) else None) = None →
  subst key val bol O (c :: t) = c :: subst key val (bool_decide (c = LF)) O t
  ∧ hit key bol O (c :: t) = hit key (bool_decide (c = LF)) O t.
Proof. intros Hm. cbn [subst hit]. by rewrite Hm. Qed.

Lemma starts_cons (bol : bool) (c : ascii) (p : gostring) :
  starts bol (c :: p) → starts (bool_decide (c = LF)) p.
Proof.
  intros [[? _]|Hl]; [done|]. destruct p as [|d p].
  - left. split; [done|]. apply bool_decide_eq_true. by simplify_eq/=.
  - right. by rewrite last_cons_cons in Hl.
Qed.

Lemma assigns_nonempty (key : gostring) : ¬ assigns key [].
Proof.
  intros (exp & rest & Heq & _). symmetry in Heq.
  apply app_eq_nil in Heq as [_ Heq]. apply app_eq_nil in Heq as [_ Heq].
  done.
Qed.

(** No data line for the key anywhere: nothing is replaced. *)
Lemma subst_absent (key val : gostring) (bol : bool) (s : gostring) :
  (∀ p q, s = p ++ q → starts bol p → ¬ assigns key q) →
  subst key val bol O s = s ∧ hit key bol O s = false.
Proof.
  revert bol. induction s as [|c t IH]; intros bol Hno; [done|].
  assert (Hm : (if bol then match_here key (c :: t) else None) = None).
  { destruct bol; [|done]. apply eq_None_not_Some.
    intros Hs%match_here_assigns. apply (Hno [] (c :: t)); [done| |done].
    by left. }
  destruct (subst_step key val bol c t Hm) as [-> ->].
  destruct (IH (bool_decide (c = LF))) as [-> ->]; [|done].
  intros p q -> Hp. apply (Hno (c :: p) q); [done|].
  destruct p as [|d p].
  - destruct Hp as [[_ Hc]|?]; [|done]. apply bool_decide_eq_true in Hc as ->.
    by right.
  - destruct Hp as [[? _]|Hl]; [done|]. right. by rewrite last_cons_cons.
Qed.

Lemma hit_false_absent (key : gostring) (bol : bool) (s : gostring) :
  hit key bol O s = false →
  ∀ p q, s = p ++ q → starts bol p → ¬ assigns key q.
Proof.
  revert bol. induction s as [|c t IH]; intros bol Hh p q Heq Hp Hq.
  - symmetry in Heq. apply app_eq_nil in Heq as [_ ->].
    by apply assigns_nonempty in Hq.
  - cbn [hit] in Hh.
    destruct (if bol then match_here key (c :: t) else None) eqn:Hm; [done|].
    destruct p as [|d p]; simplify_eq/=.
    + destruct Hp as [[_ ->]|?]; [|done].
      apply match_here_assigns in Hq as [? Hq]. congruence.
    + eapply (IH _ Hh p q); [done| |done]. by eapply starts_cons.
Qed.

(** The document has no data line for the key exactly when the scan finds
    no match. *)
Lemma absent_iff_no_hit (key content : gostring) :
  ¬ has_line_for key content ↔ hit key true O content = false.
Proof.
  split.
  - intros Hno. apply (subst_absent key [] true content).
    intros p q -> Hp Hq. apply Hno. exists p, q. split_and!; [done| |done].
    destruct Hp as [[-> _]|Hp]; [by left|by right].
  - intros Hh (p & q & -> & Hp & Hq).
    eapply (hit_false_absent _ _ _ Hh p q); [done| |done].
    destruct Hp as [->|Hp]; [by left|by right].
Qed.

Lemma first_unique (c : ascii) (a b x y : gostring) :
  c ∉ a → c ∉ b → a ++ c :: x = b ++ c :: y → a = b ∧ x = y.
Proof.
  revert b. induction a as [|d a IH]; intros b Ha Hb Heq.
  - destruct b as [|e b]; simpl in *; [by simplify_eq|].
    simplify_eq. by apply not_elem_of_cons in Hb as [? _].
  - destruct b as [|e b]; simpl in *.
    + simplify_eq. by apply not_elem_of_cons in Ha as [? _].
    + apply not_elem_of_cons in Ha as [_ Ha].
      apply not_elem_of_cons in Hb as [_ Hb]. simplify_eq.
      destruct (IH b Ha Hb) as [-> ->]; done.
Qed.

(** The rest of a line, up to its end, is determined. *)
Lemma line_rest_unique (v v' r r' : gostring) :
  LF ∉ v → LF ∉ v' → eol r → eol r' → v ++ r = v' ++ r' → v = v' ∧ r = r'.
Proof.
  intros Hv Hv' Hr Hr' Heq.
  destruct r as [|c r], r' as [|c' r']; simpl in Hr, Hr'; subst.
  - rewrite !app_nil_r in Heq. by subst.
  - rewrite app_nil_r in Heq. subst. exfalso. apply Hv.
    apply elem_of_app. right. apply list_elem_of_here.
  - rewrite app_nil_r in Heq. subst. exfalso. apply Hv'.
    apply elem_of_app. right. apply list_elem_of_here.
  - apply first_unique in Heq as [-> ->]; done.
Qed.

Lemma assigns_has_eq (key q : gostring) : assigns key q → EQ ∈ q.
Proof.
  intros (exp & rest & -> & _). rewrite !elem_of_app. right. right. left.
  apply list_elem_of_here.
Qed.

Lemma assigns_app (key q r : gostring) : assigns key q → assigns key (q ++ r).
Proof.
  intros (exp & rest & -> & Hexp). exists exp, (rest ++ r).
  by rewrite <-!app_assoc.
Qed.

Lemma subst_without_eq (key val : gostring) (bol : bool) (s : gostring) :
  EQ ∉ s → subst key val bol O s = s.
Proof.
  intros Hs. apply subst_absent. intros p q -> _ Hq%assigns_has_eq.
  apply Hs, elem_of_app. by right.
Qed.

(** A marker after the end of a line is no part of a longer marker. *)
Lemma marker_after_line (a exp : gostring) :
  last a = Some LF → export_marker exp → export_marker (a ++ exp) → exp = [].
Proof.
  intros Ha Hexp [Hnil|(sp' & Heq & _ & Hsp')].
  { by apply app_eq_nil in Hnil as [_ ?]. }
  destruct Hexp as [->|(sp & -> & _ & _)]; [done|]. exfalso.
  assert (HLF : LF ∈ a).
  { destruct a as [|c a] using rev_ind; [done|].
    rewrite last_snoc in Ha. simplify_eq. apply elem_of_app. right.
    apply list_elem_of_here. }
  apply app_eq_app in Heq as [k [[-> Hk]|[Hk _]]].
  - rewrite Forall_forall in Hsp'.
    assert (He : re_space "e" = true); [|done].
    apply Hsp'. rewrite Hk. apply elem_of_app. right. apply list_elem_of_here.
  - assert (LF ∈ bs "export") as Hin
      by (rewrite Hk; apply elem_of_app; by left).
    simpl in Hin. repeat (apply elem_of_cons in Hin as [?|Hin]; [done|]).
    by apply elem_of_nil in Hin.
Qed.

Local Ltac list_eq :=
  repeat first [progress rewrite <-app_assoc | progress simpl app];
  solve [done | repeat f_equal; done].

Lemma line_length (exp key old : gostring) :
  length (exp ++ key ++ [EQ] ++ old)
  = (length exp + length key + 1 + length old)%nat.
Proof. rewrite !length_app. simpl. lia. Qed.

Lemma drop_line (exp key old post : gostring) :
  drop (length exp + length key + 1 + length old)
    (exp ++ key ++ [EQ] ++ old ++ post) = post.
Proof.
  rewrite <-line_length.
  replace (exp ++ key ++ [EQ] ++ old ++ post)
    with ((exp ++ key ++ [EQ] ++ old) ++ post) by list_eq.
  apply drop_app_length.
Qed.

Lemma last_LF_elem (a : gostring) : last a = Some LF → LF ∈ a.
Proof.
  destruct a as [|c a _] using rev_ind; [done|].
  rewrite last_snoc. intros [= ->]. apply elem_of_app. right.
  apply list_elem_of_here.
Qed.

(** A data line for the key is rewritten whatever stands around it: the
    text before the line and the text after it are rewritten as they would
    be on their own. *)
Lemma subst_frame (key val exp old post : gostring) :
  key_token key → export_marker exp → LF ∉ old → eol post →
  ∀ (a : gostring) (bol : bool), starts bol a →
    subst key val bol O (a ++ exp ++ key ++ [EQ] ++ old ++ post)
    = subst key val bol O a ++ assignment exp key val
      ++ subst key val false O post
    ∧ hit key bol O (a ++ exp ++ key ++ [EQ] ++ old ++ post) = true.
Proof.
  intros [Hk HkLF] Hexp Hold Hpost a.
  remember (length a) as m eqn:Hlen. revert a Hlen.
  induction m as [m IH] using lt_wf_ind. intros a -> bol Ha.
  set (line := exp ++ key ++ [EQ] ++ old ++ post).
  assert (Hline : match_here key line
            = Some (length exp, (length exp + length key + 1 + length old)%nat))
    by (by apply match_here_complete).
  destruct a as [|c t].
  { (* the line is at the head *)
    destruct Ha as [[_ ->]|?]; [|done]. rewrite app_nil_l.
    destruct (subst_match key val line _ _ Hline) as [-> ->].
    split; [|done]. unfold line.
    by rewrite drop_line, take_app_length. }
  destruct (if bol then match_here key ((c :: t) ++ line) else None)
    as [[g n]|] eqn:Hm.
  - (* a match at the head of the text before the line *)
    destruct bol; [|done].
    assert (HaLF : last (c :: t) = Some LF) by (by destruct Ha as [[? _]|?]).
    destruct (subst_match key val _ _ _ Hm) as [-> ->]. split; [|done].
    apply match_here_sound in Hm
      as (exp' & v & rest & Heq & Hexp' & Hv & Hrest & -> & ->).
    destruct (decide (EQ ∈ c :: t)) as [Hin|Hnin].
    + (* the [=] of the match is before the line: so is all the match *)
      apply list_elem_of_split_l in Hin as (x & y & Hxy & Hx).
      rewrite Hxy in Heq, HaLF |- *.
      assert (Heq' : x ++ EQ :: (y ++ line) = (exp' ++ key) ++ EQ :: (v ++ rest))
        by (trans ((x ++ EQ :: y) ++ line); [list_eq|rewrite Heq; list_eq]).
      apply first_unique in Heq' as [-> Hy];
        [|done|intros [?%marker_no_eq|?]%elem_of_app; done].
      assert (∃ y2, y = v ++ LF :: y2) as [y2 ->].
      { assert (HLF : LF ∈ y).
        { destruct y as [|d y _] using rev_ind.
          - rewrite last_snoc in HaLF. by simplify_eq.
          - rewrite (app_comm_cons _ _ EQ), app_assoc, last_snoc in HaLF.
            simplify_eq. apply elem_of_app. right. apply list_elem_of_here. }
        apply list_elem_of_split_l in HLF as (y1 & y2 & -> & Hy1).
        exists y2.
        assert (Hy' : y1 ++ (LF :: y2 ++ line) = v ++ rest)
          by (rewrite <-Hy; list_eq).
        apply line_rest_unique in Hy' as [-> _]; done. }
      assert (Hfull : ((exp' ++ key) ++ EQ :: v ++ LF :: y2) ++ line
                = (exp' ++ key ++ [EQ] ++ v ++ (LF :: y2) ++ line)) by list_eq.
      assert (Hpre : (exp' ++ key) ++ EQ :: v ++ LF :: y2
                = (exp' ++ key ++ [EQ] ++ v ++ (LF :: y2))) by list_eq.
      rewrite Hfull, Hpre, drop_line, take_app_length.
      assert (Hma : match_here key (exp' ++ key ++ [EQ] ++ v ++ (LF :: y2))
                = Some (length exp',
                        (length exp' + length key + 1 + length v)%nat))
        by (by apply match_here_complete).
      destruct (subst_match key val _ _ _ Hma) as [-> _].
      rewrite drop_line, take_app_length, <-app_assoc. f_equal.
      eapply (IH (length (LF :: y2))); [|done|].
      * rewrite Hxy, Hpre, !length_app. simpl. lia.
      * right. rewrite Hpre in HaLF.
        by rewrite !app_assoc, last_app_cons in HaLF.
    + (* no [=] before the line: the match ends with the line *)
      assert (Heq' : ((c :: t) ++ exp ++ key) ++ EQ :: (old ++ post)
                = (exp' ++ key) ++ EQ :: (v ++ rest))
        by (trans ((c :: t) ++ line); [unfold line; list_eq|rewrite Heq; list_eq]).
      apply first_unique in Heq' as [Hpre Hrest'];
        [|intros [?|[?%marker_no_eq|?]%elem_of_app]%elem_of_app; done
         |intros [?%marker_no_eq|?]%elem_of_app; done].
      rewrite app_assoc in Hpre. apply app_inj_2 in Hpre as [Hpre _]; [|done].
      apply line_rest_unique in Hrest' as [<- <-]; [|done..].
      rewrite <-Hpre in Hexp'.
      pose proof (marker_after_line _ _ HaLF Hexp Hexp') as ->.
      rewrite app_nil_r in Hpre. subst exp'.
      rewrite (subst_without_eq key val true (c :: t)) by done.
      unfold line. rewrite !app_nil_l, drop_line, take_app_length.
      unfold assignment. by rewrite app_nil_l, <-!app_assoc.
  - (* no match here: one byte on *)
    rewrite <-app_comm_cons in Hm |- *.
    destruct (subst_step key val bol c (t ++ line) Hm) as [-> ->].
    assert (Hm' : (if bol then match_here key (c :: t) else None) = None).
    { destruct bol; [|done]. apply eq_None_not_Some.
      intros Hs%match_here_assigns.
      apply (assigns_app _ _ line), match_here_assigns in Hs as [? Hs].
      rewrite <-app_comm_cons in Hs. congruence. }
    destruct (subst_step key val bol c t Hm') as [-> _]. subst line.
    destruct (IH (length t) ltac:(simpl; lia) t eq_refl (bool_decide (c = LF)))
      as [-> ->]; [by eapply starts_cons|done].
Qed.

(** ** The new content *)

Lemma replaceKey_pure (key val content : gostring) (changed : gmap gostring bool) :
  replaceKey (content, changed) (key, val)
  = Some (subst key val true O content, <[key := hit key true O content]> changed).
Proof.
  unfold replaceKey, ReplaceAllStringFunc. by rewrite replace_scan_pure.
Qed.

Lemma replaceKeys_total (order : list (gostring * gostring))
    (st : gostring * gmap gostring bool) :
  is_Some (replaceKeys order st).
Proof.
  revert st. induction order as [|[key val] order IH]; intros [content changed].
  - by eexists.
  - cbn [replaceKeys]. rewrite replaceKey_pure. apply IH.
Qed.

Lemma terminated_ends (content : gostring) : HasSuffix (terminated content) [LF] = true.
Proof.
  unfold terminated. destruct (HasSuffix content [LF]) eqn:Hs; [done|].
  apply HasSuffix_spec. by exists content.
Qed.

(** The serialisation never panics, and what it yields ends with LF. *)
Lemma rewriteEnv_total (order1 order2 : list (gostring * gostring)) (content : gostring) :
  ∃ out, rewriteEnv order1 order2 content = Some out ∧ HasSuffix out [LF] = true.
Proof.
  unfold rewriteEnv.
  destruct (replaceKeys_total order1 (content, ∅)) as [[content' changed] ->].
  simpl. destruct (foldl _ _ _) as [builder b]. eexists. split; [done|].
  pose proof (terminated_ends builder) as Ht. unfold terminated in Ht.
  by destruct (HasSuffix builder [LF]).
Qed.

(** One key: its lines are rewritten, or one line is appended. *)
Lemma rewriteEnv_single (key val content : gostring) :
  rewriteEnv [(key, val)] [(key, val)] content
  = Some (if hit key true O content
          then terminated (subst key val true O content)
          else content ++ line_break content ++ key ++ [EQ] ++ val ++ [LF]).
Proof.
  unfold rewriteEnv. cbn [replaceKeys]. rewrite replaceKey_pure.
  cbn [mbind option_bind foldl appendKey]. rewrite lookup_insert_eq. simpl default.
  destruct (hit key true O content) eqn:Hh.
  - unfold terminated. by destruct (HasSuffix _ [LF]).
  - assert (Hs : subst key val true O content = content).
    { apply subst_absent. by apply hit_false_absent. }
    rewrite Hs. unfold line_break.
    assert (He : ∀ x : gostring,
      (if negb (HasSuffix (x ++ key ++ [EQ] ++ val ++ [LF]) [LF])
       then (x ++ key ++ [EQ] ++ val ++ [LF]) ++ [LF]
       else x ++ key ++ [EQ] ++ val ++ [LF])
      = x ++ key ++ [EQ] ++ val ++ [LF]).
    { intros x.
      assert (HasSuffix (x ++ key ++ [EQ] ++ val ++ [LF]) [LF] = true) as ->;
        [|done].
      apply HasSuffix_spec. exists (x ++ key ++ [EQ] ++ val).
      by rewrite <-!app_assoc. }
    destruct (bool_decide (content = [])) eqn:Hnil.
    + apply bool_decide_eq_true in Hnil as ->. cbn -[HasSuffix].
      f_equal. apply (He []).
    + apply bool_decide_eq_false in Hnil.
      rewrite bool_decide_eq_true_2 by (destruct content; [done|simpl; lia]).
      destruct (HasSuffix content [LF]); cbn -[HasSuffix]; f_equal.
      * apply He.
      * rewrite He. by rewrite <-app_assoc.
Qed.

(** ** The whole of [updateEnvFile] *)

Lemma range_single (E : env) (i : nat) (key val : gostring) :
  range_sound E → range_order E i {[key := val]} = [(key, val)].
Proof.
  intros HE. specialize (HE i {[key := val]}).
  rewrite map_to_list_singleton in HE. by apply Permutation_singleton_r in HE.
Qed.

(** When no call fails and the temporary name is free, the target gets
    the new content and keeps its permission bits. *)
Lemma updateEnvFile_ok (E : env) (path : gostring)
    (updates : gmap gostring gostring) (w : world) :
  no_faults E → fs w !! tempName path (tmp_random E) = None →
  ∃ out,
    rewriteEnv (range_order E 0 updates) (range_order E 1 updates)
      (content_at w path) = Some out
    ∧ (updateEnvFile E path updates w).1 = Ok ()
    ∧ fs (updateEnvFile E path updates w).2
      = <[path := File out (new_perm (fs w !! path))]> (fs w).
Proof.
  intros (Hstat & Hread & Hcreate & Hchmod & Hwrite & Hsync & Hclose & Hrename) Htmp.
  destruct (rewriteEnv_total (range_order E 0 updates) (range_order E 1 updates)
              (content_at w path)) as (out & Hout & _).
  exists out. split; [done|].
  assert (Hok : (updateEnvFile E path updates w).1 = Ok ()).
  { unfold updateEnvFile. rewrite Hstat, Hread, andb_false_r.
    unfold content_at in Hout. rewrite Hout.
    unfold mbind, io_bind, CreateTemp. rewrite Hcreate, Htmp. simpl.
    unfold defer, Chmod, WriteString, check, Rename, commit, mret, io_ret.
    rewrite Hchmod, Hwrite, Hsync, Hclose, Hrename.
    destruct (fs w !! path) as [orig|]; simpl;
      repeat (rewrite lookup_insert_eq; simpl); done. }
  split; [done|].
  destruct (updateEnvFile_run E path updates w)
    as (r & w' & mid & Hrun & _ & _ & Hr).
  rewrite Hrun in Hok |- *. simpl in *. subst r.
  destruct Hr as (content & Hc & _ & Hfs & _).
  unfold content_at in Hout. by simplify_eq.
Qed.

Lemma calm_range_sound : range_sound calm.
Proof. by intros i m. Qed.

Lemma calm_no_faults : no_faults calm.
Proof. by repeat split. Qed.











(** ** Trailing newlines *)

Lemma ending_of_Empty (s : gostring) : ending_of s = Empty ↔ s = [].
Proof.
  destruct s as [|c t]; [done|]. simpl. split; [|done].
  destruct (ending_of t); simpl; by try case_bool_decide.
Qed.

Lemma ending_of_OneLF (s : gostring) : ending_of s = OneLF ↔ s = [LF].
Proof.
  destruct s as [|c t]; [done|]. simpl. split.
  - destruct (ending_of t) eqn:Ht; simpl; try case_bool_decide; try done.
    apply ending_of_Empty in Ht. by subst.
  - intros [= -> ->]. done.
Qed.

Lemma ending_of_snoc (s : gostring) (c : ascii) :
  ending_of (s ++ [c])
  = if bool_decide (c = LF)
    then match last s with
         | None => OneLF
         | Some d => if bool_decide (d = LF) then ManyLF else Plain
         end
    else Plain.
Proof.
  induction s as [|d s IH]; simpl; [by case_bool_decide|].
  rewrite IH. destruct s as [|e s]; simpl.
  - case_bool_decide; simpl; [by case_bool_decide|done].
  - rewrite ?last_cons_cons. case_bool_decide; [|done].
    destruct (last (e :: s)) eqn:Hl.
    + by case_bool_decide.
    + by apply last_None in Hl.
Qed.

Lemma ending_of_ManyLF (s : gostring) :
  ending_of s = ManyLF ↔ HasSuffix s [LF; LF] = true.
Proof.
  rewrite HasSuffix_spec. destruct s as [|c s _] using rev_ind.
  { split; [done|]. intros [r Hr]. by destruct r. }
  rewrite ending_of_snoc. split.
  - case_bool_decide as Hc; [subst c|done].
    destruct s as [|d s _] using rev_ind; [done|].
    rewrite last_snoc. case_bool_decide; [subst d|done]. intros _.
    exists s. by rewrite <-app_assoc.
  - intros [r Hr].
    assert (s = r ++ [LF] ∧ c = LF) as [-> ->].
    { change [LF; LF] with ([LF] ++ [LF]) in Hr. rewrite app_assoc in Hr.
      by apply app_inj_2 in Hr as [-> [= ->]]. }
    rewrite bool_decide_eq_true_2, last_snoc by done.
    by rewrite bool_decide_eq_true_2.
Qed.

Lemma ending_of_LF (s : gostring) :
  HasSuffix s [LF] = true ↔ ending_of s = OneLF ∨ ending_of s = ManyLF
                            ∨ (ending_of s = Plain ∧ last s = Some LF).
Proof.
  rewrite HasSuffix_spec. destruct s as [|c s _] using rev_ind.
  { split; [intros [r Hr]; by destruct r|naive_solver]. }
  rewrite ending_of_snoc, last_snoc. split.
  - intros [r Hr]. apply app_inj_2 in Hr as [-> [= ->]]; [|done].
    rewrite bool_decide_eq_true_2 by done.
    destruct (last r); [case_bool_decide|]; naive_solver.
  - intros H. exists s. case_bool_decide; [by subst|naive_solver].
Qed.

Lemma ending_of_app (a y : gostring) (c : ascii) :
  c ≠ LF → ending_of ((a ++ [c]) ++ y) = ending_after (ending_of y).
Proof.
  intros Hc. induction a as [|d a IH]; simpl.
  - destruct (ending_of y); simpl; by rewrite ?bool_decide_eq_false_2.
  - simpl in IH. rewrite IH. by destruct (ending_of y).
Qed.

Lemma ending_of_assignment (exp key val y : gostring) :
  LF ∉ val → ending_of (assignment exp key val ++ y) = ending_after (ending_of y).
Proof.
  intros Hval. unfold assignment.
  destruct val as [|d val _] using rev_ind.
  - replace ((exp ++ key ++ [EQ] ++ []) ++ y) with (((exp ++ key) ++ [EQ]) ++ y)
      by (rewrite app_nil_r; by rewrite <-!app_assoc).
    by apply ending_of_app.
  - replace ((exp ++ key ++ [EQ] ++ val ++ [d]) ++ y)
      with (((exp ++ key ++ [EQ] ++ val) ++ [d]) ++ y)
      by (by rewrite <-!app_assoc).
    apply ending_of_app. intros ->. apply Hval, elem_of_app. right.
    apply list_elem_of_here.
Qed.

(** Rewriting the lines of a key to a value without LF keeps the way the
    text ends. *)
Lemma subst_keeps_ending (key val : gostring) (bol : bool) (s : gostring) :
  LF ∉ val → ending_of (subst key val bol O s) = ending_of s.
Proof.
  intros Hval. remember (length s) as m eqn:Hlen. revert s bol Hlen.
  induction m as [m IH] using lt_wf_ind. intros s bol ->.
  destruct s as [|c t]; [done|].
  destruct (if bol then match_here key (c :: t) else None) as [[g n]|] eqn:Hm.
  - destruct bol; [|done].
    destruct (subst_match key val _ _ _ Hm) as [-> _].
    apply match_here_sound in Hm
      as (exp & v & rest & Heq & _ & Hv & _ & -> & ->).
    rewrite Heq, drop_line, ending_of_assignment by done.
    replace (exp ++ key ++ [EQ] ++ v ++ rest)
      with (assignment exp key v ++ rest)
      by (unfold assignment; by rewrite <-!app_assoc).
    rewrite ending_of_assignment by done. f_equal.
    apply (IH (length rest)); [|done].
    rewrite Heq, !length_app. simpl. lia.
  - destruct (subst_step key val bol c t Hm) as [-> _]. simpl.
    by rewrite (IH (length t) ltac:(simpl; lia) t).
Qed.

Lemma replaceKeys_keeps_ending (order : list (gostring * gostring))
    (st st' : gostring * gmap gostring bool) :
  (∀ kv, kv ∈ order → LF ∉ kv.2) →
  replaceKeys order st = Some st' → ending_of st'.1 = ending_of st.1.
Proof.
  revert st. induction order as [|[key val] order IH]; intros [content changed] Hv.
  - by intros [= <-].
  - cbn [replaceKeys]. rewrite replaceKey_pure. cbn [mbind option_bind].
    intros Hr. apply IH in Hr; [|intros kv Hkv; apply Hv; by right].
    rewrite Hr. simpl. apply subst_keeps_ending.
    apply (Hv (key, val)). by left.
Qed.

Lemma appendKey_ending (changed : gmap gostring bool)
    (order : list (gostring * gostring)) (st : gostring * bool) :
  (∀ kv, kv ∈ order → LF ∉ kv.2) →
  ending_of st.1 ≠ ManyLF →
  ending_of (foldl (appendKey changed) st order).1 ≠ ManyLF.
Proof.
  revert st. induction order as [|[key val] order IH]; intros [builder nl] Hv Hb;
    [done|].
  cbn [foldl]. apply IH; [intros kv Hkv; apply Hv; by right|].
  unfold appendKey. destruct (default false (changed !! key)); [done|].
  assert (He : ∀ x : gostring,
            ending_of (x ++ key ++ [EQ] ++ val ++ [LF]) = Plain).
  { intros x.
    replace (x ++ key ++ [EQ] ++ val ++ [LF]) with (assignment x key val ++ [LF])
      by (unfold assignment; by rewrite <-!app_assoc).
    rewrite ending_of_assignment; [done|]. apply (Hv (key, val)). by left. }
  destruct (bool_decide _ && negb nl); simpl; by rewrite He.
Qed.

Lemma terminated_ending (builder : gostring) :
  ending_of builder ≠ ManyLF → ending_of (terminated builder) ≠ ManyLF.
Proof.
  intros Hb. unfold terminated.
  destruct (HasSuffix builder [LF]) eqn:Hs; [done|].
  rewrite ending_of_snoc, bool_decide_eq_true_2 by done.
  destruct (last builder) as [d|] eqn:Hl; [|done].
  case_bool_decide as Hd; [|done]. subst d.
  assert (HasSuffix builder [LF] = true); [|congruence].
  apply HasSuffix_spec. destruct builder as [|c r _] using rev_ind; [done|].
  rewrite last_snoc in Hl. simplify_eq. by exists r.
Qed.

(** When no value holds a LF, the output ends in several LF only if the
    input does. *)
Lemma rewriteEnv_single_newline (order1 order2 : list (gostring * gostring))
    (content out : gostring) :
  (∀ kv, kv ∈ order1 ++ order2 → LF ∉ kv.2) →
  HasSuffix content [LF; LF] = false →
  rewriteEnv order1 order2 content = Some out →
  HasSuffix out [LF; LF] = false.
Proof.
  intros Hv Hc. unfold rewriteEnv.
  destruct (replaceKeys order1 (content, ∅)) as [[content' changed]|] eqn:Hr;
    [|done].
  apply replaceKeys_keeps_ending in Hr;
    [|intros kv Hkv; apply Hv, elem_of_app; by left].
  simpl in Hr.
  assert (Hn : ending_of content' ≠ ManyLF).
  { rewrite Hr. intros He%ending_of_ManyLF. congruence. }
  cbn [mbind option_bind].
  pose proof (appendKey_ending changed order2 (content', HasSuffix content' [LF])
    ltac:(intros kv Hkv; apply Hv, elem_of_app; by right) Hn) as Ha.
  destruct (foldl _ _ _) as [builder b]. simpl in Ha.
  apply terminated_ending in Ha. unfold terminated in Ha.
  intros [= <-]. apply not_true_is_false. intros He%ending_of_ManyLF.
  by destruct (HasSuffix builder [LF]).
Qed.




(** ** Replacement in place *)




(** ** Parsing *)

Lemma space_encodings_facts :
  Forall (λ e, e ≠ [] ∧ EQ ∉ e
               ∧ (∀ c, head e = Some c → name_char c = false)
               ∧ (∀ c, last e = Some c → name_char c = false))
    space_encodings.
Proof.
  unfold space_encodings.
  repeat (apply Forall_cons; split;
    [split_and!; [done|apply (bool_decide_unpack _); by vm_compute
                 |by intros c [= <-]..]|]).
  apply Forall_nil_2.
Qed.

Lemma reversed_encodings_facts :
  Forall (λ e, e ≠ [] ∧ EQ ∉ e ∧ (∀ c, head e = Some c → name_char c = false))
    (reverse <$> space_encodings).
Proof.
  apply Forall_fmap. eapply Forall_impl; [apply space_encodings_facts|].
  intros e (Hne & Heq & _ & Hl). simpl. split_and!.
  - intros Hr. apply (f_equal reverse) in Hr. by rewrite reverse_involutive in Hr.
  - by rewrite elem_of_reverse.
  - intros c Hc. apply Hl. by rewrite <-head_reverse.
Qed.

Lemma cut_space_None (encs : list gostring) (s : gostring) :
  Forall (λ e, HasPrefix s e = false) encs → cut_space encs s = None.
Proof.
  induction 1 as [|e encs He _ IH]; simpl; [done|]. by rewrite He.
Qed.

Lemma HasPrefix_head (c : ascii) (s e : gostring) :
  name_char c = true → (∀ d, head e = Some d → name_char d = false) → e ≠ [] →
  HasPrefix (c :: s) e = false.
Proof.
  intros Hc He Hne. apply not_true_is_false. intros [r Hr]%HasPrefix_spec.
  destruct e as [|d e]; [done|]. simpl in Hr. injection Hr as Hcd _.
  specialize (He d eq_refl). congruence.
Qed.

(** A text that starts with a byte of a name has no white space to lose
    on the left. *)
Lemma trim_left_name (encs : list gostring) (n : nat) (c : ascii) (s : gostring) :
  Forall (λ e, e ≠ [] ∧ (∀ d, head e = Some d → name_char d = false)) encs →
  name_char c = true → trim_left encs n (c :: s) = c :: s.
Proof.
  intros Hencs Hc. destruct n as [|n]; [done|]. simpl.
  rewrite cut_space_None; [done|].
  eapply Forall_impl; [exact Hencs|]. intros e [Hne He]. by apply HasPrefix_head.
Qed.

Lemma cut_space_shorter (encs : list gostring) (s r : gostring) :
  Forall (λ e, e ≠ []) encs → cut_space encs s = Some r →
  (length r < length s)%nat.
Proof.
  induction 1 as [|e encs He _ IH]; simpl; [done|].
  destruct (HasPrefix s e) eqn:Hp; [|done]. intros [= <-].
  apply HasPrefix_spec in Hp as [q ->].
  rewrite drop_app_length, length_app. destruct e; [done|simpl; lia].
Qed.

Lemma trim_left_fuel (encs : list gostring) (n1 n2 : nat) (s : gostring) :
  Forall (λ e, e ≠ []) encs → (length s ≤ n1)%nat → (length s ≤ n2)%nat →
  trim_left encs n1 s = trim_left encs n2 s.
Proof.
  intros Hencs. revert n2 s. induction n1 as [|n1 IH]; intros n2 s H1 H2.
  - destruct s; [|simpl in H1; lia]. destruct n2; [done|]. simpl.
    by destruct (cut_space encs []) eqn:Hc;
      [apply cut_space_shorter in Hc; [simpl in Hc; lia|done]|].
  - destruct n2 as [|n2].
    + destruct s; [|simpl in H2; lia]. simpl.
      by destruct (cut_space encs []) eqn:Hc;
        [apply cut_space_shorter in Hc; [simpl in Hc; lia|done]|].
    + simpl. destruct (cut_space encs s) as [r|] eqn:Hc; [|done].
      apply cut_space_shorter in Hc; [|done]. apply IH; lia.
Qed.

Lemma cut_space_before (encs : list gostring) (x y : gostring) (c : ascii) :
  Forall (λ e, c ∉ e) encs →
  cut_space encs (x ++ c :: y) = (λ r, r ++ c :: y) <$> cut_space encs x.
Proof.
  induction 1 as [|e encs He _ IH]; simpl; [done|].
  destruct (HasPrefix x e) eqn:Hx.
  - apply HasPrefix_spec in Hx as [q ->].
    rewrite <-app_assoc, HasPrefix_app, !drop_app_length. done.
  - destruct (HasPrefix (x ++ c :: y) e) eqn:Hxy; [|done]. exfalso.
    apply HasPrefix_spec in Hxy as [q Hq].
    apply app_eq_app in Hq as [k [[-> _]|[-> Hk]]].
    + by rewrite HasPrefix_app in Hx.
    + destruct k as [|d k].
      * rewrite app_nil_r, <-(app_nil_r x) in Hx at 1.
        by rewrite HasPrefix_app in Hx.
      * simplify_eq/=. apply He, elem_of_app. right. apply list_elem_of_here.
Qed.

Lemma trim_left_before (encs : list gostring) (n : nat) (x y : gostring) (c : ascii) :
  Forall (λ e, c ∉ e) encs →
  trim_left encs n (x ++ c :: y) = trim_left encs n x ++ c :: y.
Proof.
  intros Hencs. revert x. induction n as [|n IH]; intros x; [done|].
  simpl. rewrite cut_space_before by done.
  destruct (cut_space encs x); simpl; [apply IH|done].
Qed.

Lemma TrimRightSpace_prefix (s : gostring) : TrimRightSpace s `prefix_of` s.
Proof.
  unfold TrimRightSpace.
  assert (H : ∀ encs n x, trim_left encs n x `suffix_of` x).
  { intros encs n. induction n as [|n IH]; intros x; [done|]. simpl.
    destruct (cut_space encs x) as [r|] eqn:Hc; [|done].
    trans r; [apply IH|].
    clear -Hc. induction encs as [|e encs IH]; simpl in Hc; [done|].
    destruct (HasPrefix x e); [|by apply IH]. simplify_eq.
    apply suffix_drop. }
  specialize (H (reverse <$> space_encodings) (length s) (reverse s)).
  apply suffix_prefix_reverse in H. by rewrite reverse_involutive in H.
Qed.

(** White space is trimmed on the right up to a [=] at most. *)
Lemma TrimRightSpace_after (x v : gostring) :
  TrimRightSpace (x ++ [EQ] ++ v) = x ++ [EQ] ++ TrimRightSpace v.
Proof.
  unfold TrimRightSpace.
  assert (Hr : reverse (x ++ [EQ] ++ v) = reverse v ++ EQ :: reverse x).
  { rewrite !reverse_app, <-app_assoc. done. }
  rewrite Hr, trim_left_before
    by (eapply Forall_impl; [apply reversed_encodings_facts|];
        by intros e (_ & ? & _)).
  rewrite reverse_app, reverse_cons, reverse_involutive, <-app_assoc.
  do 2 f_equal. f_equal. apply trim_left_fuel.
  - eapply Forall_impl; [apply reversed_encodings_facts|]. by intros e (? & _).
  - rewrite length_reverse, !length_app. lia.
  - by rewrite length_reverse.
Qed.

(** The trim of a line [k=v]: the name loses nothing, the value its
    trailing white space. *)
Lemma TrimSpace_assignment (k v : gostring) :
  env_name k → TrimSpace (k ++ [EQ] ++ v) = k ++ [EQ] ++ TrimRightSpace v.
Proof.
  intros [Hne Hk]. unfold TrimSpace, TrimLeftSpace.
  destruct k as [|c k]; [done|]. apply Forall_cons in Hk as [Hc Hk].
  rewrite <-app_comm_cons, trim_left_name; [|by eapply Forall_impl;
    [apply space_encodings_facts|intros e (? & _ & ? & _)]|done].
  rewrite app_comm_cons. apply TrimRightSpace_after.
Qed.

Lemma name_char_facts :
  name_char EQ = false ∧ name_char "#" = false ∧ name_char " " = false
  ∧ name_char CR = false.
Proof. done. Qed.

Lemma env_name_without (k : gostring) (c : ascii) :
  env_name k → name_char c = false → c ∉ k.
Proof.
  intros [_ Hk] Hc Hin. rewrite Forall_forall in Hk. apply Hk in Hin. congruence.
Qed.

Lemma TrimSpace_name (k : gostring) : env_name k → TrimSpace k = k.
Proof.
  intros [Hne Hk]. unfold TrimSpace, TrimLeftSpace, TrimRightSpace.
  destruct k as [|c k]; [done|].
  rewrite trim_left_name; [|by eapply Forall_impl;
    [apply space_encodings_facts|intros e (? & _ & ? & _)]
    |by apply Forall_cons in Hk as [? _]].
  destruct (reverse (c :: k)) as [|d r] eqn:Hr.
  { apply (f_equal length) in Hr. rewrite length_reverse in Hr. done. }
  rewrite trim_left_name.
  - by rewrite <-Hr, reverse_involutive.
  - eapply Forall_impl; [apply reversed_encodings_facts|].
    by intros e (? & _ & ?).
  - rewrite Forall_forall in Hk. apply Hk.
    rewrite <-elem_of_reverse, Hr. apply list_elem_of_here.
Qed.

Lemma IndexByte_first (x y : gostring) (c : ascii) :
  c ∉ x → IndexByte (x ++ c :: y) c = Z.of_nat (length x).
Proof.
  induction x as [|d x IH]; simpl.
  - by rewrite bool_decide_eq_true_2.
  - intros [Hd Hx]%not_elem_of_cons.
    rewrite bool_decide_eq_false_2 by done. rewrite IH by done.
    destruct (Z.ltb_spec (Z.of_nat (length x)) 0); lia.
Qed.

Lemma no_export_marker (k r : gostring) :
  env_name k → HasPrefix (k ++ EQ :: r) (bs "export ") = false.
Proof.
  intros Hk. apply not_true_is_false. intros [q Hq]%HasPrefix_spec.
  destruct name_char_facts as (Heq & _ & Hsp & _).
  apply app_eq_app in Hq as [m [[-> _]|[Hm Hr]]].
  - apply (env_name_without _ " ") in Hk; [|done]. apply Hk.
    apply elem_of_app. left. apply (bool_decide_unpack _). by vm_compute.
  - destruct m as [|d m].
    + rewrite app_nil_r in Hm. subst k.
      apply (env_name_without _ " ") in Hk; [|done]. apply Hk.
      apply (bool_decide_unpack _). by vm_compute.
    + injection Hr as <- _.
      assert (EQ ∈ bs "export ") as Hin
        by (rewrite Hm; apply elem_of_app; right; apply list_elem_of_here).
      revert Hin. apply (bool_decide_unpack _). by vm_compute.
Qed.

(** A line [k=v] gives the name [k] and the value [v] less its trailing
    white space. *)
Lemma parseLine_assignment (k v : gostring) :
  env_name k → parseLine (k ++ [EQ] ++ v) = Some (k, TrimRightSpace v).
Proof.
  intros Hk. unfold parseLine. rewrite TrimSpace_assignment by done.
  destruct name_char_facts as (Heq & Hhash & _).
  pose proof Hk as [Hne Hall].
  rewrite bool_decide_eq_false_2 by (by destruct k).
  assert (HasPrefix (k ++ [EQ] ++ TrimRightSpace v) (bs "#") = false) as ->.
  { apply not_true_is_false. intros [q Hq]%HasPrefix_spec.
    destruct k as [|c k]; [done|]. simplify_eq/=.
    apply Forall_cons in Hall as [Hc _]. congruence. }
  simpl orb. cbv iota.
  assert (HasPrefix (k ++ [EQ] ++ TrimRightSpace v) (bs "export ") = false)
    as -> by (by apply no_export_marker).
  change (k ++ [EQ] ++ TrimRightSpace v) with (k ++ EQ :: TrimRightSpace v).
  rewrite IndexByte_first by (by apply env_name_without).
  assert (0 < Z.of_nat (length k)) by (destruct k; [done|simpl; lia]).
  destruct (Z.leb_spec (Z.of_nat (length k)) 0); [lia|].
  rewrite Nat2Z.id, take_app_length, TrimSpace_name by done.
  replace (Z.to_nat (Z.of_nat (length k) + 1)) with (length (k ++ [EQ]))
    by (rewrite length_app; simpl; lia).
  replace (k ++ EQ :: TrimRightSpace v) with ((k ++ [EQ]) ++ TrimRightSpace v)
    by (by rewrite <-app_assoc).
  by rewrite drop_app_length.
Qed.


Lemma HasPrefix_one (c d : ascii) (y : gostring) :
  HasPrefix (c :: y) [d] = bool_decide (c = d).
Proof.
  unfold HasPrefix. simpl. rewrite take_0.
  by repeat case_bool_decide; simplify_eq.
Qed.

Lemma TrimRightSpace_CR (x : gostring) :
  TrimRightSpace (x ++ [CR]) = TrimRightSpace x.
Proof.
  unfold TrimRightSpace. rewrite reverse_snoc, length_app. simpl length.
  replace (length x + 1)%nat with (S (length x)) by lia.
  cbn [trim_left].
  assert (Hc : cut_space (reverse <$> space_encodings) (CR :: reverse x)
               = Some (reverse x)).
  { let l := eval vm_compute in (reverse <$> space_encodings) in
    change (reverse <$> space_encodings) with l.
    cbn [cut_space]. rewrite !HasPrefix_one. done. }
  by rewrite Hc.
Qed.

(** The value of a line does not depend on a CR before the LF. *)
Lemma parseLine_dropCR (k v : gostring) :
  env_name k →
  parseLine (dropCR (k ++ [EQ] ++ v)) = Some (k, TrimRightSpace v).
Proof.
  intros Hk. destruct v as [|c v _] using rev_ind.
  - assert (dropCR (k ++ [EQ] ++ []) = k ++ [EQ] ++ []) as ->.
    { unfold dropCR. rewrite app_nil_r, reverse_snoc. done. }
    by apply parseLine_assignment.
  - unfold dropCR.
    assert (Hr : reverse (k ++ [EQ] ++ v ++ [c]) = c :: reverse (k ++ [EQ] ++ v)).
    { rewrite !app_assoc, reverse_snoc. by rewrite <-!app_assoc. }
    rewrite Hr. case_bool_decide as Hc.
    + subst c. rewrite reverse_involutive, TrimRightSpace_CR.
      by apply parseLine_assignment.
    + by apply parseLine_assignment.
Qed.




(** ** Scenarios *)

Lemma baseline_untouched_when_apply_or_confirm_fails_witness :
  (pollAndUpdate calm (Payload snapshot_small) dotenv LastSeen_zero true
     (machine (bs "export" ++ [TAB] ++ bs "BID_SMALL_AMOUNT=1" ++ [LF]))).1.2
  = LastSeen_zero.
Proof.
  apply baseline_untouched_when_apply_or_confirm_fails.
  right. vm_compute. discriminate.
Defined.

(** A marker the pattern accepts and the parser does not: the line is
    rewritten, and the confirmation does not find the key. *)
Example tab_after_export :
  (pollAndUpdate calm (Payload snapshot_small) dotenv LastSeen_zero true
     (machine (bs "export" ++ [TAB] ++ bs "BID_SMALL_AMOUNT=1" ++ [LF]))).1.1
  = Failed (ErrConfirm (ErrNotFound envSmallBid)).
Proof. by vm_compute. Qed.

(** The end-to-end scenario of the specification: the first poll writes
    the value and advances the baseline, the second finds nothing to do. *)
Example two_polls :
  let '(r1, last1, w1) :=
    pollAndUpdate calm (Payload snapshot_small) dotenv LastSeen_zero true
      (machine (text ["# bids"])) in
  let '(r2, last2, w2) :=
    pollAndUpdate calm (Payload snapshot_small) dotenv last1 true w1 in
  detectChanges snapshot_small LastSeen_zero = {[ envSmallBid := bs "0.1" ]}
  ∧ r1 = Ok () ∧ SmallBid last1 = f64_0_1 ∧ HasSmallBid last1 = true
  ∧ content_at w1 dotenv = text ["# bids"; "BID_SMALL_AMOUNT=0.1"]
  ∧ detectChanges snapshot_small last1 = ∅
  ∧ r2 = Ok () ∧ last2 = last1 ∧ fs w2 = fs w1.
Proof. by vm_compute. Qed.

Example every_occurrence :
  content_at (updateEnvFile calm dotenv {[bs "A" := bs "9"]}
                (machine (text ["A=1"; "export A=2"; "B=3"; "A=4"]))).2 dotenv
  = text ["A=9"; "export A=9"; "B=3"; "A=9"].
Proof. by vm_compute. Qed.

(** * More on the code *)

(** ** The write, when it succeeds *)

(** X1.  A successful [updateEnvFile] sets the target to the new content, with
    the permission bits the file had (0600 for a new file), and leaves every
    other file as it was: no temporary file stays behind. *)
Theorem successful_update_sets_only_the_target (E : env) (path : gostring)
    (updates : gmap gostring gostring) (w : world) :
  (updateEnvFile E path updates w).1 = Ok () →
  ∃ out,
    rewriteEnv (range_order E 0 updates) (range_order E 1 updates)
      (content_at w path) = Some out
    ∧ fs (updateEnvFile E path updates w).2
      = <[path := File out (from_option f_perm temp_perm (fs w !! path))]> (fs w)
    ∧ fs (updateEnvFile E path updates w).2 !! tempName path (tmp_random E) = None.
Proof.
  intros Hok.
  destruct (updateEnvFile_run E path updates w)
    as (r & w' & mid & Hrun & _ & _ & Hr).
  rewrite Hrun in Hok |- *. simpl in *. subst r.
  destruct Hr as (content & Hc & Htmp & Hfs & _).
  exists content. split_and!; [done|done|].
  rewrite Hfs, lookup_insert_ne; [done|].
  intros Heq. symmetry in Heq. by apply tempName_ne in Heq.
Qed.

Lemma successful_update_sets_only_the_target_witness :
  fs (updateEnvFile calm dotenv {[bs "B" := bs "7"]} (machine (bs "A=1"))).2
  = {[ dotenv := File (text ["A=1"; "B=7"]) 420 ]}.
Proof.
  destruct (successful_update_sets_only_the_target calm dotenv
              {[bs "B" := bs "7"]} (machine (bs "A=1")))
    as (out & Hout & -> & _); [by vm_compute|].
  vm_compute in Hout. injection Hout as <-. by vm_compute.
Defined.

(** ** Cycles that follow one another *)

Lemma SFeqb_refl (f : spec_float) : f ≠ S754_nan → SFeqb f f = true.
Proof.
  unfold SFeqb. destruct f as [s|s| |s m e]; simpl; try done.
  - by destruct s.
  - intros _. rewrite Z.compare_refl, Pos.compare_cont_refl. by destruct s.
Qed.

Lemma detectChanges_advance (payload : ConfigPayload) (last : LastSeen) :
  finite_snapshot payload →
  detectChanges payload (advance payload last) = ∅.
Proof.
  intros [Hs Hl]. unfold detectChanges, advance, float_ne.
  destruct (pSmallBid payload) as [a|], (pLargeBid payload) as [b|],
    (pMaxConcurrency payload) as [c|]; simpl;
    rewrite ?SFeqb_refl, ?bool_decide_eq_true_2 by congruence; done.
Qed.

Lemma pollAndUpdate_idle (E E' : env) (payload : ConfigPayload)
    (envPath : gostring) (last last1 : LastSeen) (dryRun dryRun' : bool)
    (w w1 : world) :
  finite_snapshot payload →
  pollAndUpdate E (Payload payload) envPath last dryRun w = (Ok (), last1, w1) →
  pollAndUpdate E' (Payload payload) envPath last1 dryRun' w1 = (Ok (), last1, w1)
  ∧ detectChanges payload last1 = ∅.
Proof.
  intros Hfin. unfold pollAndUpdate at 1.
  case_bool_decide as Hsize.
  - intros [= <- <-]. unfold pollAndUpdate. rewrite bool_decide_eq_true_2 by done.
    split; [done|]. by apply map_size_empty_iff.
  - destruct (updateEnvFile E envPath _ w) as [[[]|e|] w2]; [|done..].
    destruct (confirmEnvValues E envPath _ w2) as [[[]|e|] w3]; [|done..].
    destruct (reloadAndRestart E dryRun w3) as [ok w4]. intros [= <- <-].
    unfold pollAndUpdate. rewrite detectChanges_advance by done.
    by rewrite bool_decide_eq_true_2.
Qed.

(** X2.  Once a snapshot is applied, the same snapshot asks for no update,
    whatever the baseline was before. *)
Theorem applied_snapshot_is_not_stale (payload : ConfigPayload) (last : LastSeen) :
  finite_snapshot payload →
  detectChanges payload (advance payload last) = ∅
  ∧ Initialized (advance payload last) = true.
Proof.
  intros Hfin. split; [by apply detectChanges_advance|done].
Qed.

Lemma applied_snapshot_is_not_stale_witness :
  detectChanges snapshot_full (advance snapshot_full LastSeen_zero) = ∅.
Proof.
  apply (applied_snapshot_is_not_stale snapshot_full LastSeen_zero). by split.
Defined.

(** X3.  After a cycle that ended well, a cycle with the same snapshot changes
    nothing: not the baseline, not a file, and it runs no command. *)
Theorem repeated_cycle_is_idle (E E' : env) (payload : ConfigPayload)
    (envPath : gostring) (last last1 : LastSeen) (dryRun dryRun' : bool)
    (w w1 : world) :
  finite_snapshot payload →
  pollAndUpdate E (Payload payload) envPath last dryRun w = (Ok (), last1, w1) →
  pollAndUpdate E' (Payload payload) envPath last1 dryRun' w1 = (Ok (), last1, w1).
Proof.
  intros Hfin Hp. by eapply pollAndUpdate_idle.
Qed.

Lemma repeated_cycle_is_idle_witness :
  let '(_, last1, w1) :=
    pollAndUpdate calm (Payload snapshot_full) dotenv LastSeen_zero false
      (machine (text ["# bids"])) in
  pollAndUpdate (short_write 0) (Payload snapshot_full) dotenv last1 false w1
  = (Ok (), last1, w1).
Proof.
  destruct (pollAndUpdate calm (Payload snapshot_full) dotenv LastSeen_zero false
              (machine (text ["# bids"]))) as [[r last1] w1] eqn:Hp.
  assert (r = Ok ()) as ->.
  { apply (f_equal (λ x, x.1.1)) in Hp. simpl in Hp. rewrite <-Hp. by vm_compute. }
  exact (repeated_cycle_is_idle calm (short_write 0) snapshot_full dotenv
           LastSeen_zero last1 false false _ w1 ltac:(by split) Hp).
Defined.

(** ** The reload *)

Lemma runCommands_files (E : env) (i : nat) (cmds : list (list gostring)) (w : world) :
  fs (runCommands E i cmds w).2 = fs w ∧ past (runCommands E i cmds w).2 = past w.
Proof.
  revert i w. induction cmds as [|args cmds IH]; intros i w; simpl; [done|].
  destruct (exec_fails E i); simpl; [done|].
  by destruct (IH (S i) (World (fs w) (past w) (ran w ++ [args]))) as [-> ->].
Qed.

(** X4.  What the commands do, and whether they are run at all, does not show
    in what [pollAndUpdate] returns, in the baseline or in the files; and a
    dry run runs no command. *)
Theorem reload_is_isolated (E : env) (f : nat → bool) (payload : ConfigPayload)
    (envPath : gostring) (last : LastSeen) (dryRun dryRun' : bool) (w : world) :
  let r := pollAndUpdate E (Payload payload) envPath last dryRun w in
  let r' := pollAndUpdate (with_exec E f) (Payload payload) envPath last dryRun' w in
  r.1 = r'.1 ∧ fs r.2 = fs r'.2 ∧ past r.2 = past r'.2
  ∧ (dryRun = true → ran r.2 = ran w).
Proof.
  unfold pollAndUpdate.
  change (updateEnvFile (with_exec E f)) with (updateEnvFile E).
  change (confirmEnvValues (with_exec E f)) with (confirmEnvValues E).
  case_bool_decide; [done|].
  pose proof (updateEnvFile_run E envPath (detectChanges payload last) w)
    as (r1 & w1 & mid & Hrun & Hran & _).
  rewrite Hrun. destruct r1 as [[]|e|]; [|by simpl; auto..].
  pose proof (confirmEnvValues_reads_only E envPath (detectChanges payload last) w1)
    as Hc.
  destruct (confirmEnvValues E envPath _ w1) as [[[]|e|] w2]; simpl in Hc; subst;
    [|by simpl; auto..].
  unfold reloadAndRestart.
  pose proof (runCommands_files E 0 commands w1) as [H1 H2].
  pose proof (runCommands_files (with_exec E f) 0 commands w1) as [H1' H2'].
  destruct dryRun, dryRun';
    repeat match goal with
           | |- context [runCommands ?E 0 commands w1] =>
               destruct (runCommands E 0 commands w1)
           end; simpl in *; split_and!; congruence.
Qed.

Lemma reload_is_isolated_witness :
  ran (pollAndUpdate calm (Payload snapshot_small) dotenv LastSeen_zero true
         (machine (text ["# bids"]))).2 = [].
Proof.
  exact (proj2 (proj2 (proj2 (reload_is_isolated calm (λ _, true) snapshot_small
    dotenv LastSeen_zero true false (machine (text ["# bids"])))))
    eq_refl).
Defined.

(** X5.  In live mode [daemon-reload] is run first and [restart bidder] only
    when it succeeded; the call succeeds when no command it ran failed, and
    it touches no file. *)
Theorem restart_follows_reload (E : env) (w : world) :
  let r := reloadAndRestart E false w in
  ran r.2 = ran w ++ (if exec_fails E 0 then take 1 commands else commands)
  ∧ r.1 = negb (exec_fails E 0) && negb (exec_fails E 1)
  ∧ fs r.2 = fs w.
Proof.
  unfold reloadAndRestart, commands. simpl.
  destruct (exec_fails E 0); simpl; [done|].
  destruct (exec_fails E 1); simpl; by rewrite <-app_assoc.
Qed.

(** ** The values written *)

Lemma value_chars_subset (l : gostring) :
  (∀ c, c ∈ l → c ∈ bs "0123456789") → ∀ c, c ∈ l → c ∈ value_chars.
Proof.
  intros Hl c Hc. apply Hl in Hc. unfold value_chars.
  change (bs "0123456789.-+InfNa") with (bs "0123456789" ++ bs ".-+InfNa").
  apply elem_of_app. by left.
Qed.

Lemma Sprintf_d_chars (n : Z) :
  Sprintf_d n ≠ [] ∧ ∀ c, c ∈ Sprintf_d n → c ∈ value_chars.
Proof.
  unfold Sprintf_d. destruct (n <? 0).
  - split; [done|]. intros c [Hc|Hc]%elem_of_app.
    + apply list_elem_of_singleton in Hc as ->.
      apply (bool_decide_unpack _). by vm_compute.
    + revert c Hc. apply value_chars_subset. apply decimal_digits.
  - split; [apply decimal_digits|]. apply value_chars_subset, decimal_digits.
Qed.

Lemma formatFloat_chars (f : spec_float) :
  formatFloat f ≠ [] ∧ ∀ c, c ∈ formatFloat f → c ∈ value_chars.
Proof.
  destruct (millionths f) as [[s n]|] eqn:Hm.
  - destruct (formatFloat_number f s n Hm) as [_ ->].
    destruct (decimal_digits (n / 10 ^ 6)) as [Hne Hdig].
    assert (Hw : ∀ c, c ∈ sign_text s ++ decimal (n / 10 ^ 6) → c ∈ value_chars).
    { intros c [Hc|Hc]%elem_of_app.
      - destruct s; [|by apply elem_of_nil in Hc].
        apply list_elem_of_singleton in Hc as ->.
        apply (bool_decide_unpack _). by vm_compute.
      - by apply (value_chars_subset (decimal (n / 10 ^ 6))). }
    unfold canonical. case_bool_decide.
    + split; [|done]. by intros [_ ?]%app_eq_nil.
    + split; [by intros [_ ?]%app_eq_nil|].
      intros c [Hc|[Hc|Hc]%elem_of_app]%elem_of_app; [by apply Hw| |].
      * apply list_elem_of_singleton in Hc as ->.
        apply (bool_decide_unpack _). by vm_compute.
      * rewrite <-TrimRight_strip in Hc.
        eapply elem_of_prefix in Hc; [|apply TrimRight_prefix].
        revert c Hc. apply value_chars_subset, six_digits_digits.
  - destruct f as [s|s| |s m e]; try done.
    + destruct s; split; try done; intros c Hc; revert c Hc;
        apply Forall_forall; apply (bool_decide_unpack _); by vm_compute.
    + split; [done|]. apply Forall_forall.
      apply (bool_decide_unpack _). by vm_compute.
Qed.

Lemma detectChanges_values (payload : ConfigPayload) (last : LastSeen)
    (k v : gostring) :
  detectChanges payload last !! k = Some v →
  v ≠ [] ∧ ∀ c, c ∈ v → c ∈ value_chars.
Proof.
  intros Hv.
  destruct (detectChanges_lookup payload last) as (H1 & H2 & H3).
  destruct (detectChanges_keys payload last k) as [->|[->| ->]]; [by eexists|..].
  - rewrite H1 in Hv. destruct (pSmallBid payload); simplify_eq/=.
    destruct (stale _ _ _); simplify_eq. apply formatFloat_chars.
  - rewrite H2 in Hv. destruct (pLargeBid payload); simplify_eq/=.
    destruct (stale _ _ _); simplify_eq. apply formatFloat_chars.
  - rewrite H3 in Hv. destruct (pMaxConcurrency payload); simplify_eq/=.
    destruct (stale _ _ _); simplify_eq. apply Sprintf_d_chars.
Qed.

Lemma value_chars_no_LF (v : gostring) :
  (∀ c, c ∈ v → c ∈ value_chars) → LF ∉ v.
Proof.
  intros Hin Hc%Hin. revert Hc. apply (bool_decide_unpack _). by vm_compute.
Qed.

(** X6.  Every value of an update set is a text of digits, points, signs and
    the letters of [NaN] and [Inf], and is not empty: it holds no LF, no
    white space, no [=] and no [#]. *)
Theorem update_values_are_plain (payload : ConfigPayload) (last : LastSeen)
    (k v : gostring) :
  detectChanges payload last !! k = Some v →
  v ≠ [] ∧ (∀ c, c ∈ v → c ∈ value_chars)
  ∧ LF ∉ v ∧ EQ ∉ v ∧ " "%char ∉ v ∧ "#"%char ∉ v.
Proof.
  intros [Hne Hin]%detectChanges_values.
  split_and!; [done|done|..];
    intros Hc%Hin; revert Hc; apply (bool_decide_unpack _); by vm_compute.
Qed.

Lemma update_values_are_plain_witness :
  LF ∉ bs "0.1".
Proof.
  refine (proj1 (proj2 (proj2 (update_values_are_plain snapshot_small
    LastSeen_zero envSmallBid (bs "0.1") _)))).
  by vm_compute.
Defined.

(** ** Confirmation *)

Lemma confirmLoop_Ok (found : gmap gostring gostring)
    (order : list (gostring * gostring)) :
  confirmLoop found order = Ok () ↔ ∀ k v, (k, v) ∈ order → found !! k = Some v.
Proof.
  induction order as [|[k v] order IH]; simpl.
  - split; [by intros _ k v ?%elem_of_nil|done].
  - destruct (found !! k) as [a|] eqn:Hk.
    + case_bool_decide as Ha.
      * subst a. rewrite IH. split.
        -- intros H k' v' [[= -> ->]|?]%elem_of_cons; auto.
        -- intros H k' v' Hin. apply H. by right.
      * split; [done|]. intros H. specialize (H k v (list_elem_of_here _ _)).
        congruence.
    + split; [done|]. intros H. specialize (H k v (list_elem_of_here _ _)).
      congruence.
Qed.

Lemma confirmLoop_error (found : gmap gostring gostring)
    (order : list (gostring * gostring)) (e : error) :
  confirmLoop found order = Failed e →
  (∃ k v, e = ErrNotFound k ∧ (k, v) ∈ order ∧ found !! k = None)
  ∨ (∃ k a v, e = ErrMismatch k a v ∧ (k, v) ∈ order ∧ found !! k = Some a ∧ a ≠ v).
Proof.
  induction order as [|[k v] order IH]; simpl; [done|].
  destruct (found !! k) as [a|] eqn:Hk.
  - case_bool_decide as Ha.
    + intros [(k' & v' & ? & ? & ?)|(k' & a' & v' & ? & ? & ? & ?)]%IH.
      * left. exists k', v'. split_and!; [done| |done]. by right.
      * right. exists k', a', v'. split_and!; [done| |done..]. by right.
    + intros [= <-]. right. exists k, a, v. split_and!; [done| |done|done]. by left.
  - intros [= <-]. left. exists k, v. split_and!; [done| |done]. by left.
Qed.

(** X7.  The confirmation succeeds exactly when the file can be read and every
    entry of the update set is an entry of the parsed file, whatever else
    the file holds and in whatever order the entries are visited.  The error
    it reports otherwise names a key of the update set that the file lacks
    or gives another value. *)
Theorem confirmation_checks_every_entry (E : env) (path : gostring)
    (expected : gmap gostring gostring) (w : world) :
  range_sound E →
  ((confirmEnvValues E path expected w).1 = Ok () ↔
     ∃ f, fs w !! path = Some f ∧ confirm_read_fails E = false
          ∧ expected ⊆ parseEnvToMap (f_data f))
  ∧ (∀ k, (confirmEnvValues E path expected w).1 = Failed (ErrNotFound k) →
       is_Some (expected !! k)
       ∧ ∃ f, fs w !! path = Some f ∧ parseEnvToMap (f_data f) !! k = None)
  ∧ (∀ k a v, (confirmEnvValues E path expected w).1 = Failed (ErrMismatch k a v) →
       expected !! k = Some v ∧ a ≠ v
       ∧ ∃ f, fs w !! path = Some f ∧ parseEnvToMap (f_data f) !! k = Some a).
Proof.
  intros HE. unfold confirmEnvValues.
  assert (Hin : ∀ k v, (k, v) ∈ range_order E 2 expected ↔ expected !! k = Some v).
  { intros k v. by rewrite (HE 2%nat expected), elem_of_map_to_list. }
  destruct (fs w !! path) as [f|]; simpl; [|split_and!; [|done..]; naive_solver].
  destruct (confirm_read_fails E); simpl; [split_and!; [|done..]; naive_solver|].
  split_and!.
  - rewrite confirmLoop_Ok. split.
    + intros H. exists f. split_and!; [done..|].
      apply map_subseteq_spec. intros k v Hk. apply H. by apply Hin.
    + intros (f' & [= <-] & _ & Hsub) k v Hk%Hin.
      by eapply map_subseteq_spec in Hsub.
  - intros k [(k' & v' & [= <-] & Hk%Hin & Hn)|(? & ? & ? & ? & _)]%confirmLoop_error;
      [|done]. split; [by eexists|]. by exists f.
  - intros k a v Hf. apply confirmLoop_error in Hf
      as [(? & ? & ? & _)|(k' & a' & v' & [= <- <- <-] & Hk%Hin & Hf & Hne)];
      [done|]. split_and!; [done..|]. by exists f.
Qed.

Lemma confirmation_checks_every_entry_witness :
  (confirmEnvValues calm dotenv {[bs "A" := bs "1"]}
     (machine (text ["# c"; "export A=1"; "B=2"]))).1 = Ok ().
Proof.
  apply (proj1 (confirmation_checks_every_entry calm dotenv {[bs "A" := bs "1"]}
                  (machine (text ["# c"; "export A=1"; "B=2"])) calm_range_sound)).
  eexists. split_and!; [by vm_compute|done|].
  apply map_subseteq_spec. intros k v [<- <-]%lookup_singleton_Some.
  by vm_compute.
Defined.

(** ** The scanner and the parser, line by line *)

Lemma short_lines_prefix (a b : gostring) : short_lines (a ++ b) → short_lines a.
Proof.
  intros H x l y -> Hl. apply (H x l (y ++ b)); [|done]. by rewrite <-!app_assoc.
Qed.

Lemma short_lines_suffix (a b : gostring) : short_lines (a ++ b) → short_lines b.
Proof.
  intros H x l y -> Hl. apply (H (a ++ x) l y); [|done]. by rewrite <-!app_assoc.
Qed.

Lemma short_lines_small (s : gostring) :
  Z.of_nat (length s) < MaxScanTokenSize → short_lines s.
Proof.
  intros H a l b -> _. rewrite !length_app in H. lia.
Qed.

(** One line and what follows it. *)
Lemma scan_step (l cur s : gostring) :
  LF ∉ l →
  scan (l ++ LF :: s) cur
  = if MaxScanTokenSize <=? Z.of_nat (length (cur ++ l)) then []
    else dropCR (cur ++ l) :: scan s [].
Proof.
  revert cur. induction l as [|c l IH]; intros cur Hl; cbn [app scan].
  - rewrite bool_decide_eq_true_2 by done. by rewrite app_nil_r.
  - apply not_elem_of_cons in Hl as [Hc Hl].
    rewrite bool_decide_eq_false_2 by done. rewrite IH by done.
    by rewrite <-app_assoc.
Qed.

Lemma scan_through (pre cur s : gostring) :
  short_lines (cur ++ pre) → LF ∉ cur →
  scan (pre ++ LF :: s) cur = scan (pre ++ [LF]) cur ++ scan s [].
Proof.
  revert cur. induction pre as [|c pre IH]; intros cur Hs Hcur; cbn [app scan].
  - rewrite bool_decide_eq_true_2 by done.
    assert (Z.of_nat (length cur) < MaxScanTokenSize)
      by (apply (Hs [] cur []); [by rewrite !app_nil_r|done]).
    destruct (Z.leb_spec MaxScanTokenSize (Z.of_nat (length cur))); [lia|done].
  - case_bool_decide as Hc.
    + subst c.
      assert (Z.of_nat (length cur) < MaxScanTokenSize)
        by (by apply (Hs [] cur (LF :: pre))).
      destruct (Z.leb_spec MaxScanTokenSize (Z.of_nat (length cur))); [lia|].
      cbn [app]. f_equal. apply IH; [|by apply not_elem_of_nil].
      apply (short_lines_suffix (cur ++ [LF])). by rewrite <-app_assoc.
    + apply IH.
      * by rewrite <-app_assoc.
      * intros [?|?%list_elem_of_singleton]%elem_of_app; [done|]. by subst.
Qed.

Lemma line_wise_nil : line_wise [].
Proof. by intros s. Qed.

Lemma line_wise_short (p : gostring) : short_lines p → line_wise (p ++ [LF]).
Proof.
  intros Hp s. rewrite <-app_assoc. apply scan_through; [done|apply not_elem_of_nil].
Qed.

Lemma line_wise_bol (p : gostring) : short_lines p → bol_after p → line_wise p.
Proof.
  intros Hp [->|Hl]; [apply line_wise_nil|].
  destruct p as [|c p _] using rev_ind; [done|].
  rewrite last_snoc in Hl. simplify_eq.
  apply line_wise_short. by eapply short_lines_prefix.
Qed.

Lemma line_wise_line (b l : gostring) :
  line_wise b → LF ∉ l → Z.of_nat (length l) < MaxScanTokenSize →
  scan (b ++ l ++ [LF]) [] = scan b [] ++ [dropCR l]
  ∧ line_wise (b ++ l ++ [LF]).
Proof.
  intros Hb Hl Hlen.
  assert (Hs : ∀ s, scan (b ++ l ++ LF :: s) [] = scan b [] ++ dropCR l :: scan s []).
  { intros s. rewrite Hb, scan_step by done. rewrite app_nil_l.
    by destruct (Z.leb_spec MaxScanTokenSize (Z.of_nat (length l))); [lia|]. }
  split; [apply (Hs [])|].
  intros s. rewrite <-!app_assoc. cbn [app]. rewrite Hs, (Hs []).
  by rewrite <-app_assoc.
Qed.

(** A last line without LF is scanned as if it had one. *)
Lemma scan_final_newline (s cur : gostring) :
  last s ≠ Some LF → (s = [] → cur ≠ []) →
  scan (s ++ [LF]) cur = scan s cur.
Proof.
  revert cur. induction s as [|c s IH]; intros cur Hl Hn; cbn [app scan].
  - rewrite bool_decide_eq_true_2 by done.
    rewrite (bool_decide_eq_false_2 (cur = [])) by auto.
    by destruct (MaxScanTokenSize <=? Z.of_nat (length cur)).
  - destruct s as [|d s].
    + rewrite bool_decide_eq_false_2 by (by intros ->).
      apply IH; [done|]. intros _. by destruct cur.
    + case_bool_decide; [|by apply IH].
      destruct (MaxScanTokenSize <=? Z.of_nat (length cur)); [done|].
      f_equal. by apply IH.
Qed.

(** X8.  Whether a LF ends the last line or not makes no difference to the
    parser. *)
Theorem final_newline_is_optional (data : gostring) :
  data ≠ [] → HasSuffix data [LF] = false →
  parseEnvToMap (data ++ [LF]) = parseEnvToMap data.
Proof.
  intros Hne Hs. unfold parseEnvToMap, ScanLines.
  rewrite scan_final_newline; [done| |done].
  intros Hl. destruct data as [|c r _] using rev_ind; [done|].
  rewrite last_snoc in Hl. simplify_eq.
  assert (HasSuffix (r ++ [LF]) [LF] = true); [|congruence].
  apply HasSuffix_spec. by exists r.
Qed.

Lemma final_newline_is_optional_witness :
  parseEnvToMap (bs "A=1" ++ [LF]) = parseEnvToMap (bs "A=1").
Proof. by apply final_newline_is_optional. Defined.

(** X9.  A data line added after complete lines that fit the scanner sets its
    key and leaves the other keys as they were: of several lines for one
    key the last counts. *)
Theorem last_line_wins (pre k v : gostring) :
  short_lines pre → bol_after pre → env_name k → LF ∉ v →
  Z.of_nat (length (k ++ [EQ] ++ v)) < MaxScanTokenSize →
  parseEnvToMap (pre ++ k ++ [EQ] ++ v ++ [LF])
  = <[k := TrimRightSpace v]> (parseEnvToMap pre).
Proof.
  intros Hpre Hbol Hk Hv Hlen. unfold parseEnvToMap, ScanLines.
  assert (Hl : LF ∉ k ++ [EQ] ++ v).
  { intros [Hin|[Hin|Hin]%elem_of_app]%elem_of_app; [|by set_solver|done].
    revert Hin. by apply env_name_without. }
  destruct (line_wise_line pre (k ++ [EQ] ++ v)) as [Hs _];
    [by apply line_wise_bol|done..|].
  rewrite <-!app_assoc in Hs. rewrite Hs, foldl_app. cbn [foldl].
  by rewrite parseLine_dropCR.
Qed.

Lemma last_line_wins_witness :
  parseEnvToMap (text ["A=1"; "B=2"] ++ bs "A" ++ [EQ] ++ bs "3 " ++ [LF])
  = <[bs "A" := bs "3"]> (parseEnvToMap (text ["A=1"; "B=2"])).
Proof.
  apply (last_line_wins (text ["A=1"; "B=2"]) (bs "A") (bs "3 ")).
  - apply short_lines_small. by vm_compute.
  - by right.
  - split; [done|]. by repeat constructor.
  - apply (bool_decide_unpack _). by vm_compute.
  - by vm_compute.
Defined.

(** X10.  A line of [MaxScanTokenSize] bytes or more ends the scan: neither it
    nor any line after it reaches the parser. *)
Theorem long_line_hides_the_rest (pre l post : gostring) :
  bol_after pre → LF ∉ l → MaxScanTokenSize ≤ Z.of_nat (length l) → eol post →
  parseEnvToMap (pre ++ l ++ post) = parseEnvToMap pre.
Proof.
  intros Hbol Hl Hlen Hpost. unfold parseEnvToMap, ScanLines. f_equal.
  assert (Hlong : ∀ cur, scan (l ++ post) cur = []).
  { intros cur.
    assert (MaxScanTokenSize ≤ Z.of_nat (length (cur ++ l)))
      by (rewrite length_app; lia).
    destruct post as [|c post].
    - rewrite app_nil_r. clear Hlen. revert cur H.
      induction l as [|c l IH]; intros cur H; cbn [scan].
      + rewrite app_nil_r in H.
        destruct (Z.leb_spec MaxScanTokenSize (Z.of_nat (length cur))); [|lia].
        by case_bool_decide.
      + apply not_elem_of_cons in Hl as [Hc Hl].
        rewrite bool_decide_eq_false_2 by done. apply IH; [done|].
        by rewrite <-app_assoc.
    - simpl in Hpost. subst c. rewrite scan_step by done.
      by destruct (Z.leb_spec MaxScanTokenSize (Z.of_nat (length (cur ++ l))));
        [|lia]. }
  assert (Hgen : ∀ cur, (pre = [] ∧ cur = []) ∨ last pre = Some LF →
                        scan (pre ++ l ++ post) cur = scan pre cur).
  { clear Hbol. induction pre as [|c pre IH]; intros cur Hc.
    - destruct Hc as [[_ ->]|?]; [|done]. apply Hlong.
    - cbn [app scan]. case_bool_decide as Hlf.
      + destruct (MaxScanTokenSize <=? Z.of_nat (length cur)); [done|].
        f_equal. apply IH. destruct Hc as [[? _]|Hc]; [done|].
        destruct pre; [by left|by right].
      + apply IH. right. destruct Hc as [[? _]|Hc]; [done|].
        destruct pre; [|done]. simpl in Hc. by simplify_eq. }
  apply Hgen. destruct Hbol as [->|?]; [by left|by right].
Qed.

Lemma long_line_hides_the_rest_witness :
  parseEnvToMap
    (text ["A=1"] ++ replicate (Z.to_nat MaxScanTokenSize) "x"%char
     ++ LF :: text ["B=2"])
  = parseEnvToMap (text ["A=1"]).
Proof.
  apply (long_line_hides_the_rest (text ["A=1"])
           (replicate (Z.to_nat MaxScanTokenSize) "x"%char)
           (LF :: text ["B=2"])).
  - by right.
  - by intros [? _]%elem_of_replicate.
  - rewrite length_replicate. by vm_compute.
  - done.
Defined.

(** ** Keys the file has no line for *)

Lemma parse_line_break (content : gostring) :
  parseEnvToMap (content ++ line_break content) = parseEnvToMap content.
Proof.
  unfold line_break. case_bool_decide as Hn; [by rewrite app_nil_r|].
  destruct (HasSuffix content [LF]) eqn:Hs; [by rewrite app_nil_r|].
  cbn [orb]. unfold parseEnvToMap, ScanLines.
  rewrite scan_final_newline; [done| |done].
  intros Hl. destruct content as [|c r _] using rev_ind; [done|].
  rewrite last_snoc in Hl. simplify_eq.
  assert (HasSuffix (r ++ [LF]) [LF] = true); [|congruence].
  apply HasSuffix_spec. by exists r.
Qed.

Lemma line_wise_line_break (content : gostring) :
  short_lines content → line_wise (content ++ line_break content).
Proof.
  intros Hc. unfold line_break. case_bool_decide as Hn.
  { subst. apply line_wise_nil. }
  destruct (HasSuffix content [LF]) eqn:Hs; cbn [orb].
  - rewrite app_nil_r. apply HasSuffix_spec in Hs as [r ->].
    apply line_wise_short. by eapply short_lines_prefix.
  - by apply line_wise_short.
Qed.

Lemma replaceKeys_fresh (order : list (gostring * gostring)) (content : gostring)
    (changed : gmap gostring bool) :
  (∀ kv, kv ∈ order → hit kv.1 true O content = false) →
  (∀ k, default false (changed !! k) = false) →
  ∃ changed', replaceKeys order (content, changed) = Some (content, changed')
              ∧ ∀ k, default false (changed' !! k) = false.
Proof.
  revert changed. induction order as [|[key val] order IH]; intros changed Hh Hc.
  - by exists changed.
  - cbn [replaceKeys]. rewrite replaceKey_pure. cbn [mbind option_bind].
    assert (Hk : hit key true O content = false)
      by (apply (Hh (key, val)), list_elem_of_here).
    destruct (subst_absent key val true content) as [-> _];
      [by apply hit_false_absent|].
    rewrite Hk. apply IH.
    + intros kv Hkv. apply Hh. by right.
    + intros k. destruct (decide (k = key)) as [->|Hne].
      * by rewrite lookup_insert_eq.
      * by rewrite lookup_insert_ne.
Qed.

Lemma appendKey_fresh (changed : gmap gostring bool) (b key val : gostring) :
  default false (changed !! key) = false →
  appendKey changed (b, HasSuffix b [LF]) (key, val)
  = ((b ++ line_break b) ++ key ++ [EQ] ++ val ++ [LF], true).
Proof.
  intros Hc. unfold appendKey, line_break. rewrite Hc.
  destruct b as [|c b]; [done|].
  rewrite bool_decide_eq_true_2 by (simpl; lia).
  rewrite bool_decide_eq_false_2 by done.
  destruct (HasSuffix (c :: b) [LF]); cbn [andb orb negb]; [|done].
  by rewrite app_nil_r.
Qed.

Lemma ends_with_line (x l : gostring) :
  HasSuffix (x ++ l ++ [LF]) [LF] = true
  ∧ line_break (x ++ l ++ [LF]) = [].
Proof.
  assert (H : HasSuffix (x ++ l ++ [LF]) [LF] = true).
  { apply HasSuffix_spec. exists (x ++ l). by rewrite <-app_assoc. }
  split; [done|]. unfold line_break. rewrite H. by rewrite orb_true_r.
Qed.

Lemma appendKeys_fresh (changed : gmap gostring bool)
    (order : list (gostring * gostring)) (b : gostring) :
  (∀ k, default false (changed !! k) = false) →
  (∀ kv, kv ∈ order →
     env_name kv.1 ∧ LF ∉ kv.2 ∧ TrimRightSpace kv.2 = kv.2
     ∧ Z.of_nat (length (kv.1 ++ [EQ] ++ kv.2)) < MaxScanTokenSize) →
  line_wise (b ++ line_break b) →
  ∃ b', (foldl (appendKey changed) (b, HasSuffix b [LF]) order).1 = b'
    ∧ parseEnvToMap (b' ++ line_break b')
      = foldl (λ m kv, <[kv.1 := kv.2]> m) (parseEnvToMap (b ++ line_break b)) order.
Proof.
  intros Hc. revert b. induction order as [|[key val] order IH]; intros b Ho Hb.
  - by exists b.
  - cbn [foldl]. rewrite appendKey_fresh by done.
    destruct (Ho (key, val)) as (Hk & Hv & Ht & Hlen); [apply list_elem_of_here|].
    simpl in Hk, Hv, Ht, Hlen.
    assert (Hl : LF ∉ key ++ [EQ] ++ val).
    { intros [Hin|[Hin|Hin]%elem_of_app]%elem_of_app; [|by set_solver|done].
      revert Hin. by apply env_name_without. }
    destruct (line_wise_line (b ++ line_break b) (key ++ [EQ] ++ val))
      as [Hs Hw]; [done..|].
    set (b1 := (b ++ line_break b) ++ key ++ [EQ] ++ val ++ [LF]).
    assert (Hb1 : b1 = (b ++ line_break b) ++ (key ++ [EQ] ++ val) ++ [LF])
      by (unfold b1; by rewrite <-!app_assoc).
    destruct (ends_with_line (b ++ line_break b) (key ++ [EQ] ++ val))
      as [Hsuf Hlb].
    rewrite <-Hb1 in Hsuf, Hlb, Hs, Hw.
    rewrite <-Hsuf.
    destruct (IH b1) as (b' & Hb' & Hp).
    + intros kv Hkv. apply Ho. by right.
    + by rewrite Hlb, app_nil_r.
    + exists b'. split; [done|]. rewrite Hp. f_equal.
      rewrite Hlb, app_nil_r. unfold parseEnvToMap at 1, ScanLines.
      rewrite Hs, foldl_app. cbn [foldl].
      by rewrite parseLine_dropCR, Ht.
Qed.

Lemma foldl_insert_union (l : list (gostring * gostring))
    (m0 updates : gmap gostring gostring) :
  l ≡ₚ map_to_list updates →
  foldl (λ m kv, <[kv.1 := kv.2]> m) m0 l = updates ∪ m0.
Proof.
  intros Hl.
  assert (Hf : ∀ m, foldl (λ m kv, <[kv.1 := kv.2]> m) m l
                    = (list_to_map (reverse l) : gmap gostring gostring) ∪ m).
  { clear Hl. induction l as [|[k v] l IH]; intros m; cbn [foldl].
    - change (m = ∅ ∪ m). by rewrite (left_id_L ∅ (∪)).
    - rewrite IH, reverse_cons, list_to_map_app. cbn [list_to_map foldr fst snd].
      rewrite <-(assoc_L (∪)). f_equal.
      by rewrite insert_empty, <-insert_union_singleton_l. }
  rewrite Hf. f_equal. rewrite <-(list_to_map_to_list updates).
  apply list_to_map_proper.
  - rewrite reverse_Permutation, Hl. apply NoDup_fst_map_to_list.
  - by rewrite reverse_Permutation.
Qed.

Lemma rewriteEnv_fresh (order1 order2 : list (gostring * gostring))
    (updates : gmap gostring gostring) (content out : gostring) :
  order1 ≡ₚ map_to_list updates → order2 ≡ₚ map_to_list updates →
  (∀ k v, updates !! k = Some v →
     env_name k ∧ LF ∉ v ∧ TrimRightSpace v = v
     ∧ Z.of_nat (length (k ++ [EQ] ++ v)) < MaxScanTokenSize
     ∧ ¬ has_line_for k content) →
  short_lines content →
  rewriteEnv order1 order2 content = Some out →
  parseEnvToMap out = updates ∪ parseEnvToMap content.
Proof.
  intros H1 H2 Hu Hshort. unfold rewriteEnv.
  assert (Hin : ∀ order kv, order ≡ₚ map_to_list updates → kv ∈ order →
                            updates !! kv.1 = Some kv.2).
  { intros order [k v] Ho Hkv. rewrite Ho in Hkv.
    by apply elem_of_map_to_list in Hkv. }
  destruct (replaceKeys_fresh order1 content ∅) as (changed & -> & Hc).
  { intros kv Hkv. apply absent_iff_no_hit.
    by destruct (Hu _ _ (Hin order1 kv H1 Hkv)) as (_ & _ & _ & _ & ?). }
  { done. }
  cbn [mbind option_bind].
  destruct (appendKeys_fresh changed order2 content Hc) as (b' & Hb' & Hp).
  { intros kv Hkv.
    by destruct (Hu _ _ (Hin order2 kv H2 Hkv)) as (? & ? & ? & ? & _). }
  { by apply line_wise_line_break. }
  destruct (foldl (appendKey changed) _ order2) as [builder b].
  simpl in Hb'. subst b'. intros [= <-].
  rewrite (parse_line_break content), (foldl_insert_union _ _ updates) in Hp
    by done.
  rewrite <-Hp. destruct (HasSuffix builder [LF]) eqn:Hs; cbn [negb].
  - by rewrite parse_line_break.
  - destruct builder as [|c r]; [by rewrite parse_line_break|].
    unfold line_break. rewrite Hs. by rewrite bool_decide_eq_false_2.
Qed.

(** X11.  Keys the file has no line for are read back.  When the names and
    the values are plain, the lines fit the scanner and no line of the file
    assigns one of the keys, a successful [updateEnvFile] leaves a file that
    parses to what it parsed to before, with the update laid over it, and
    [confirmEnvValues] accepts it. *)
Theorem appended_keys_are_read_back (E : env) (path : gostring)
    (updates : gmap gostring gostring) (w : world) :
  range_sound E →
  (∀ k v, updates !! k = Some v →
     env_name k ∧ LF ∉ v ∧ TrimRightSpace v = v
     ∧ Z.of_nat (length (k ++ [EQ] ++ v)) < MaxScanTokenSize
     ∧ ¬ has_line_for k (content_at w path)) →
  short_lines (content_at w path) →
  (updateEnvFile E path updates w).1 = Ok () →
  let w' := (updateEnvFile E path updates w).2 in
  parseEnvToMap (content_at w' path) = updates ∪ parseEnvToMap (content_at w path)
  ∧ (confirm_read_fails E = false → (confirmEnvValues E path updates w').1 = Ok ()).
Proof.
  intros HE Hu Hshort Hok w'.
  destruct (updateEnvFile_run E path updates w)
    as (r & w1 & mid & Hrun & _ & _ & Hr).
  unfold w'. rewrite Hrun in Hok |- *. simpl in Hok |- *. subst r.
  destruct Hr as (out & Hout & _ & Hfs & _).
  apply (rewriteEnv_fresh _ _ updates) in Hout; [|apply HE..|done|done].
  assert (Hc : content_at w1 path = out)
    by (unfold content_at; by rewrite Hfs, lookup_insert_eq).
  rewrite Hc. split; [done|]. intros Hread.
  unfold confirmEnvValues. rewrite Hfs, lookup_insert_eq, Hread. simpl.
  apply confirmLoop_Ok. intros k v Hkv.
  rewrite (HE 2%nat updates) in Hkv. apply elem_of_map_to_list in Hkv.
  rewrite Hout. by apply lookup_union_Some_l.
Qed.

Lemma appended_keys_are_read_back_witness :
  parseEnvToMap
    (content_at (updateEnvFile calm dotenv {[bs "B" := bs "7"; bs "C" := bs "x"]}
                   (machine (bs " B =1"))).2 dotenv)
  = {[bs "B" := bs "7"; bs "C" := bs "x"]} ∪ parseEnvToMap (bs " B =1").
Proof.
  refine (proj1 (appended_keys_are_read_back calm dotenv
    {[bs "B" := bs "7"; bs "C" := bs "x"]} (machine (bs " B =1"))
    calm_range_sound _ _ _)).
  - intros k v Hkv.
    assert ((k = bs "B" ∧ v = bs "7") ∨ (k = bs "C" ∧ v = bs "x")) as [[-> ->]|[-> ->]].
    { apply lookup_insert_Some in Hkv as [[<- <-]|[_ Hkv]]; [by left|].
      apply lookup_singleton_Some in Hkv as [<- <-]. by right. }
    + split_and!; [split; [done|by repeat constructor]
                  |apply (bool_decide_unpack _); by vm_compute
                  |by vm_compute|by vm_compute
                  |apply absent_iff_no_hit; by vm_compute].
    + split_and!; [split; [done|by repeat constructor]
                  |apply (bool_decide_unpack _); by vm_compute
                  |by vm_compute|by vm_compute
                  |apply absent_iff_no_hit; by vm_compute].
  - apply short_lines_small. by vm_compute.
  - by vm_compute.
Defined.

(** ** The cycle as a whole *)

Lemma reloadAndRestart_files (E : env) (dryRun : bool) (w : world) :
  fs (reloadAndRestart E dryRun w).2 = fs w.
Proof.
  unfold reloadAndRestart. destruct dryRun; [done|]. apply runCommands_files.
Qed.

(** What a cycle does to the files is what [updateEnvFile] did, if it was
    called and succeeded. *)
Lemma pollAndUpdate_files (E : env) (payload : ConfigPayload) (envPath : gostring)
    (last : LastSeen) (dryRun : bool) (w : world) :
  let r := pollAndUpdate E (Payload payload) envPath last dryRun w in
  let updates := detectChanges payload last in
  fs r.2 = fs w
  ∨ (updates ≠ ∅
     ∧ (updateEnvFile E envPath updates w).1 = Ok ()
     ∧ fs r.2 = fs (updateEnvFile E envPath updates w).2).
Proof.
  unfold pollAndUpdate. case_bool_decide as Hsize; [by left|].
  assert (detectChanges payload last ≠ ∅)
    by (intros Heq; by rewrite Heq, map_size_empty in Hsize).
  pose proof (updateEnvFile_run E envPath (detectChanges payload last) w)
    as (r1 & w1 & mid & Hrun & _ & _ & Hr).
  rewrite Hrun. destruct r1 as [[]|e|]; [|left; by destruct Hr..].
  pose proof (confirmEnvValues_reads_only E envPath (detectChanges payload last) w1)
    as Hc.
  destruct (confirmEnvValues E envPath _ w1) as [[[]|e|] w2]; simpl in Hc; subst;
    [|by right..].
  pose proof (reloadAndRestart_files E dryRun w1) as Hf.
  destruct (reloadAndRestart E dryRun w1) as [ok w3]. by right.
Qed.

(** X12.  A cycle never makes the file end in a blank line.  If the file does
    not end in two LF before the cycle, it does not after it, and a file the
    cycle has changed ends in LF. *)
Theorem cycle_adds_no_blank_end (E : env) (payload : ConfigPayload)
    (envPath : gostring) (last : LastSeen) (dryRun : bool) (w : world) :
  range_sound E →
  HasSuffix (content_at w envPath) [LF; LF] = false →
  let r := pollAndUpdate E (Payload payload) envPath last dryRun w in
  HasSuffix (content_at r.2 envPath) [LF; LF] = false
  ∧ (fs r.2 ≠ fs w → HasSuffix (content_at r.2 envPath) [LF] = true).
Proof.
  intros HE Hc r.
  destruct (pollAndUpdate_files E payload envPath last dryRun w)
    as [Hfs|(_ & Hok & Hfs)]; fold r in Hfs.
  { unfold content_at. by rewrite Hfs. }
  destruct (updateEnvFile_run E envPath (detectChanges payload last) w)
    as (r1 & w1 & mid & Hrun & _ & _ & Hr).
  rewrite Hrun in Hok, Hfs. simpl in Hok, Hfs. subst r1.
  destruct Hr as (out & Hout & _ & Hw1 & _).
  assert (Hcontent : content_at r.2 envPath = out)
    by (unfold content_at; by rewrite Hfs, Hw1, lookup_insert_eq).
  rewrite Hcontent. split.
  - eapply rewriteEnv_single_newline; [|exact Hc|exact Hout].
    intros [k v] Hkv. simpl. eapply value_chars_no_LF, detectChanges_values.
    apply elem_of_map_to_list.
    apply elem_of_app in Hkv as [Hkv|Hkv];
      [by rewrite <-(HE 0%nat)|by rewrite <-(HE 1%nat)].
  - intros _.
    destruct (rewriteEnv_total (range_order E 0 (detectChanges payload last))
                (range_order E 1 (detectChanges payload last))
                (from_option f_data [] (fs w !! envPath))) as (out' & Hout' & Hs).
    by simplify_eq.
Qed.

Lemma cycle_adds_no_blank_end_witness :
  HasSuffix
    (content_at (pollAndUpdate calm (Payload snapshot_full) dotenv LastSeen_zero
                   true (machine (bs "BID_SMALL_AMOUNT=1"))).2 dotenv) [LF; LF]
  = false.
Proof.
  refine (proj1 (cycle_adds_no_blank_end calm snapshot_full dotenv LastSeen_zero
                   true (machine (bs "BID_SMALL_AMOUNT=1")) calm_range_sound _)).
  by vm_compute.
Defined.

Lemma encodings_end_apart :
  Forall (λ e, e ≠ [] ∧ ∀ d, last e = Some d → d ∉ value_chars) space_encodings.
Proof.
  unfold space_encodings.
  repeat (apply Forall_cons; split;
    [split; [done|intros d [= <-]; apply (bool_decide_unpack _); by vm_compute]|]).
  apply Forall_nil_2.
Qed.

(** A text that ends with a byte of a canonical value has no white space
    to lose on the right. *)
Lemma TrimRightSpace_value (v : gostring) :
  v ≠ [] → (∀ c, c ∈ v → c ∈ value_chars) → TrimRightSpace v = v.
Proof.
  intros Hne Hv. destruct v as [|c v _] using rev_ind; [done|].
  assert (Hc : c ∈ value_chars) by (apply Hv, elem_of_app; right; by left).
  unfold TrimRightSpace. rewrite reverse_snoc.
  assert (Hcut : cut_space (reverse <$> space_encodings) (c :: reverse v) = None).
  { apply cut_space_None, Forall_fmap.
    eapply Forall_impl; [apply encodings_end_apart|].
    intros e [He Hd]. simpl. apply not_true_is_false.
    intros [q Hq]%HasPrefix_spec.
    destruct e as [|d e _] using rev_ind; [done|].
    rewrite reverse_snoc in Hq. injection Hq as <- _.
    by apply (Hd c); [apply last_snoc|]. }
  destruct (length (v ++ [c])); cbn [trim_left];
    rewrite ?Hcut; by rewrite <-reverse_snoc, reverse_involutive.
Qed.

Lemma env_keys_names :
  env_name envSmallBid ∧ env_name envLargeBid ∧ env_name envMaxConcurrency.
Proof.
  split_and!; (split; [done|]); apply (bool_decide_unpack _); by vm_compute.
Qed.

(** X13.  A first write that goes through.  When no call fails, the temporary
    name is free, the file (if there is one) has lines that fit the scanner
    and none for the three keys, and the lines to write fit the scanner,
    the cycle succeeds, the file parses to what it parsed to with the
    changes laid over it, and the baseline is the snapshot's. *)
Theorem cycle_on_a_file_without_the_keys (E : env) (payload : ConfigPayload)
    (envPath : gostring) (last : LastSeen) (dryRun : bool) (w : world) :
  range_sound E → no_faults E → confirm_read_fails E = false →
  fs w !! tempName envPath (tmp_random E) = None →
  short_lines (content_at w envPath) →
  (∀ k, k ∈ [envSmallBid; envLargeBid; envMaxConcurrency] →
        ¬ has_line_for k (content_at w envPath)) →
  (∀ k v, detectChanges payload last !! k = Some v →
          Z.of_nat (length (k ++ [EQ] ++ v)) < MaxScanTokenSize) →
  let r := pollAndUpdate E (Payload payload) envPath last dryRun w in
  r.1.1 = Ok ()
  ∧ parseEnvToMap (content_at r.2 envPath)
    = detectChanges payload last ∪ parseEnvToMap (content_at w envPath)
  ∧ (detectChanges payload last ≠ ∅ → r.1.2 = advance payload last).
Proof.
  intros HE Hno Hread Htmp Hshort Habsent Hlen r.
  unfold r, pollAndUpdate. case_bool_decide as Hsize.
  { apply map_size_empty_iff in Hsize. rewrite Hsize. simpl.
    by rewrite (left_id_L ∅ (∪)). }
  destruct (updateEnvFile_ok E envPath (detectChanges payload last) w Hno Htmp)
    as (out & Hout & Hok & Hfs).
  destruct (updateEnvFile E envPath (detectChanges payload last) w) as [r1 w1].
  simpl in Hok, Hfs. subst r1.
  apply (rewriteEnv_fresh _ _ (detectChanges payload last)) in Hout;
    [|apply HE|apply HE| |done].
  2:{ intros k v Hkv. destruct (detectChanges_values _ _ _ _ Hkv) as [Hne Hv].
      destruct env_keys_names as (Hn1 & Hn2 & Hn3).
      split_and!.
      - by destruct (detectChanges_keys payload last k) as [->|[->| ->]];
          [by eexists|..].
      - by apply value_chars_no_LF.
      - by apply TrimRightSpace_value.
      - by apply Hlen.
      - apply Habsent.
        destruct (detectChanges_keys payload last k) as [->|[->| ->]];
          [by eexists|..]; set_solver. }
  assert (Hconfirm : confirmEnvValues E envPath (detectChanges payload last) w1
                     = (Ok (), w1)).
  { unfold confirmEnvValues. rewrite Hfs, lookup_insert_eq, Hread. simpl.
    f_equal. apply confirmLoop_Ok. intros k v Hkv.
    rewrite (HE 2%nat) in Hkv. apply elem_of_map_to_list in Hkv.
    rewrite Hout. by apply lookup_union_Some_l. }
  rewrite Hconfirm.
  pose proof (reloadAndRestart_files E dryRun w1) as Hf.
  destruct (reloadAndRestart E dryRun w1) as [ok w3]. simpl in Hf |- *.
  split_and!; [done| |done].
  unfold content_at at 1. by rewrite Hf, Hfs, lookup_insert_eq.
Qed.

Lemma cycle_on_a_file_without_the_keys_witness :
  (pollAndUpdate calm (Payload snapshot_full) dotenv LastSeen_zero false
     (machine (text ["# bids"; "OTHER=1"]))).1.1 = Ok ().
Proof.
  refine (proj1 (cycle_on_a_file_without_the_keys calm snapshot_full dotenv
    LastSeen_zero false (machine (text ["# bids"; "OTHER=1"]))
    calm_range_sound calm_no_faults eq_refl _ _ _ _)).
  - by vm_compute.
  - apply short_lines_small. by vm_compute.
  - intros k Hk. apply absent_iff_no_hit.
    repeat (apply elem_of_cons in Hk as [->|Hk]; [by vm_compute|]).
    by apply elem_of_nil in Hk.
  - intros k v Hkv.
    destruct (detectChanges_keys snapshot_full LastSeen_zero k) as [->|[->| ->]];
      [by eexists|..]; vm_compute in Hkv; simplify_eq; by vm_compute.
Defined.

Lemma confirmEnvValues_Ok (E : env) (path : gostring)
    (expected : gmap gostring gostring) (w : world) :
  range_sound E → (confirmEnvValues E path expected w).1 = Ok () →
  expected ⊆ parseEnvToMap (content_at w path).
Proof.
  intros HE. unfold confirmEnvValues, content_at.
  destruct (fs w !! path) as [f|]; [|done].
  destruct (confirm_read_fails E); [done|]. simpl.
  intros Hok. apply map_subseteq_spec. intros k v Hkv.
  eapply confirmLoop_Ok; [exact Hok|].
  rewrite (HE 2%nat). by apply elem_of_map_to_list.
Qed.

(** What a cycle that went as far as the commands has done. *)
Lemma pollAndUpdate_confirmed (E : env) (payload : ConfigPayload)
    (envPath : gostring) (last : LastSeen) (dryRun : bool) (w : world) :
  range_sound E →
  let r := pollAndUpdate E (Payload payload) envPath last dryRun w in
  let updates := detectChanges payload last in
  (r = (Ok (), last, w) ∧ updates = ∅)
  ∨ (r.1.1 ≠ Ok () ∧ r.1.2 = last ∧ ran r.2 = ran w)
  ∨ (r.1.1 = Ok () ∧ r.1.2 = advance payload last ∧ updates ≠ ∅
     ∧ updates ⊆ parseEnvToMap (content_at r.2 envPath)
     ∧ (dryRun = true → ran r.2 = ran w)).
Proof.
  intros HE. unfold pollAndUpdate. case_bool_decide as Hsize.
  { left. by apply map_size_empty_iff in Hsize. }
  right.
  assert (detectChanges payload last ≠ ∅)
    by (intros Heq; by rewrite Heq, map_size_empty in Hsize).
  pose proof (updateEnvFile_run E envPath (detectChanges payload last) w)
    as (r1 & w1 & mid & Hrun & Hran & _).
  rewrite Hrun. destruct r1 as [[]|e|]; [|by left..].
  pose proof (confirmEnvValues_reads_only E envPath (detectChanges payload last) w1)
    as Hc.
  pose proof (confirmEnvValues_Ok E envPath (detectChanges payload last) w1 HE)
    as Hsub.
  destruct (confirmEnvValues E envPath _ w1) as [[[]|e|] w2]; simpl in Hc; subst;
    [|by left..].
  right.
  pose proof (reloadAndRestart_files E dryRun w1) as Hf.
  assert (Hdry : dryRun = true → ran (reloadAndRestart E dryRun w1).2 = ran w1)
    by (by intros ->).
  destruct (reloadAndRestart E dryRun w1) as [ok w3]. simpl in *.
  split_and!; [done..| |].
  - unfold content_at in *. rewrite Hf. by apply Hsub.
  - intros Hd. rewrite Hdry by done. congruence.
Qed.

(** X14.  A cycle that reports success has found every change in the file:
    each value the snapshot changed is the value the parser reads for its
    key from the file the cycle leaves. *)
Theorem success_means_confirmed (E : env) (payload : ConfigPayload)
    (envPath : gostring) (last : LastSeen) (dryRun : bool) (w : world) :
  range_sound E →
  let r := pollAndUpdate E (Payload payload) envPath last dryRun w in
  r.1.1 = Ok () →
  detectChanges payload last ⊆ parseEnvToMap (content_at r.2 envPath).
Proof.
  intros HE r Hok. unfold r in *.
  destruct (pollAndUpdate_confirmed E payload envPath last dryRun w HE)
    as [[Hr ->]|[(Hne & _)|(_ & _ & _ & Hsub & _)]].
  - apply map_empty_subseteq.
  - done.
  - done.
Qed.

Lemma success_means_confirmed_witness :
  detectChanges snapshot_full LastSeen_zero
  ⊆ parseEnvToMap
      (content_at (pollAndUpdate calm (Payload snapshot_full) dotenv LastSeen_zero
                     true (machine (text ["export BID_LARGE_AMOUNT=3"]))).2 dotenv).
Proof.
  apply (success_means_confirmed calm snapshot_full dotenv LastSeen_zero true
           (machine (text ["export BID_LARGE_AMOUNT=3"])) calm_range_sound).
  by vm_compute.
Defined.

(** X15.  The commands are run only after a confirmed write.  If a cycle runs
    a command, it is no dry run, the snapshot held a change, the file the
    cycle leaves reads back every changed value, and the baseline is the
    snapshot's; a cycle that ends in an error, or gets no snapshot, runs
    none. *)
Theorem commands_only_after_confirmed_write (E : env) (resp : response)
    (envPath : gostring) (last : LastSeen) (dryRun : bool) (w : world) :
  range_sound E →
  let r := pollAndUpdate E resp envPath last dryRun w in
  ran r.2 ≠ ran w →
  dryRun = false ∧ r.1.1 = Ok ()
  ∧ ∃ payload, resp = Payload payload
      ∧ detectChanges payload last ≠ ∅
      ∧ detectChanges payload last ⊆ parseEnvToMap (content_at r.2 envPath)
      ∧ r.1.2 = advance payload last.
Proof.
  intros HE r Hran. unfold r in *. destruct resp as [|code body| |payload]; try done.
  destruct (pollAndUpdate_confirmed E payload envPath last dryRun w HE)
    as [[Hr _]|[(_ & _ & Hr)|(Hok & Hadv & Hne & Hsub & Hdry)]];
    [by rewrite Hr in Hran|done|].
  split_and!; [|done|by exists payload].
  destruct dryRun; [|done]. by destruct Hran, Hdry.
Qed.

Lemma commands_only_after_confirmed_write_witness :
  (pollAndUpdate calm (Payload snapshot_small) dotenv LastSeen_zero false
     (machine (text ["# bids"]))).1.1 = Ok ().
Proof.
  refine (proj1 (proj2 (commands_only_after_confirmed_write calm
    (Payload snapshot_small) dotenv LastSeen_zero false (machine (text ["# bids"]))
    calm_range_sound _))).
  by vm_compute.
Defined.

(** ** The loop *)

(** X16.  The watcher settles.  After a cycle that ended well, any number of
    cycles that get the same snapshot change nothing, whatever the
    environment does: no file is written, no command is run, the baseline
    stays. *)
Theorem watcher_settles (E : env) (payload : ConfigPayload) (envPath : gostring)
    (last last1 : LastSeen) (dryRun : bool) (w w1 : world)
    (ticks : list (env * response)) :
  finite_snapshot payload →
  pollAndUpdate E (Payload payload) envPath last dryRun w = (Ok (), last1, w1) →
  Forall (λ t, t.2 = Payload payload) ticks →
  pollLoop ticks envPath last1 dryRun w1 = (last1, w1).
Proof.
  intros Hfin Hp Hticks.
  induction Hticks as [|[E' resp] ticks Hresp _ IH]; [done|].
  simpl in Hresp. subst resp. cbn [pollLoop].
  destruct (pollAndUpdate_idle E E' payload envPath last last1 dryRun dryRun w w1
              Hfin Hp) as [-> _].
  exact IH.
Qed.

Lemma watcher_settles_witness :
  let '(_, last1, w1) :=
    pollAndUpdate calm (Payload snapshot_full) dotenv LastSeen_zero false
      (machine (text ["# bids"])) in
  pollLoop [(short_write 0, Payload snapshot_full); (calm, Payload snapshot_full)]
    dotenv last1 false w1
  = (last1, w1).
Proof.
  destruct (pollAndUpdate calm (Payload snapshot_full) dotenv LastSeen_zero false
              (machine (text ["# bids"]))) as [[r last1] w1] eqn:Hp.
  assert (r = Ok ()) as ->.
  { apply (f_equal (λ x, x.1.1)) in Hp. simpl in Hp. rewrite <-Hp. by vm_compute. }
  apply (watcher_settles calm snapshot_full dotenv LastSeen_zero last1 false _ w1
           _ ltac:(by split) Hp).
  by repeat constructor.
Defined.

(** ** What the parser yields *)

Lemma cut_space_Some (encs : list gostring) (s r : gostring) :
  cut_space encs s = Some r → ∃ e, e ∈ encs ∧ s = e ++ r.
Proof.
  induction encs as [|e encs IH]; simpl; [done|].
  destruct (HasPrefix s e) eqn:Hp.
  - intros [= <-]. apply HasPrefix_spec in Hp as [q ->].
    exists e. split; [by left|]. by rewrite drop_app_length.
  - intros (e' & He' & Hs)%IH. exists e'. split; [by right|done].
Qed.

Lemma cut_space_None_inv (encs : list gostring) (s : gostring) :
  cut_space encs s = None → Forall (λ e, HasPrefix s e = false) encs.
Proof.
  induction encs as [|e encs IH]; simpl; [by constructor|].
  destruct (HasPrefix s e) eqn:Hp; [done|]. intros Hc. constructor; auto.
Qed.

Lemma cut_space_prefix (encs : list gostring) (p s : gostring) :
  p `prefix_of` s → cut_space encs s = None → cut_space encs p = None.
Proof.
  intros [q ->] Hc%cut_space_None_inv. apply cut_space_None.
  eapply Forall_impl; [exact Hc|]. intros e He. simpl in He.
  apply not_true_is_false. intros [r ->]%HasPrefix_spec.
  assert (HasPrefix ((e ++ r) ++ q) e = true); [|congruence].
  apply HasPrefix_spec. exists (r ++ q). by rewrite <-app_assoc.
Qed.

(** What is left of a trim has nothing more to lose. *)
Lemma trim_left_done (encs : list gostring) (n : nat) (s : gostring) :
  Forall (λ e, e ≠ []) encs → (length s ≤ n)%nat →
  cut_space encs (trim_left encs n s) = None.
Proof.
  intros Hencs. revert s. induction n as [|n IH]; intros s Hn.
  - destruct s; [|simpl in Hn; lia]. simpl. apply cut_space_None.
    eapply Forall_impl; [exact Hencs|]. intros e He. by destruct e.
  - simpl. destruct (cut_space encs s) as [r|] eqn:Hc; [|done].
    apply IH. apply cut_space_shorter in Hc; [lia|done].
Qed.

Lemma trim_left_id (encs : list gostring) (n : nat) (s : gostring) :
  cut_space encs s = None → trim_left encs n s = s.
Proof. intros Hc. destruct n; [done|]. simpl. by rewrite Hc. Qed.

Lemma encodings_nonempty :
  Forall (λ e : gostring, e ≠ []) space_encodings
  ∧ Forall (λ e : gostring, e ≠ []) (reverse <$> space_encodings).
Proof.
  split.
  - eapply Forall_impl; [apply space_encodings_facts|]. by intros e [? _].
  - eapply Forall_impl; [apply reversed_encodings_facts|]. by intros e [? _].
Qed.

(** The two ends of a trimmed text. *)
Lemma TrimSpace_ends (u : gostring) :
  cut_space space_encodings (TrimSpace u) = None
  ∧ cut_space (reverse <$> space_encodings) (reverse (TrimSpace u)) = None.
Proof.
  destruct encodings_nonempty as [H1 H2]. split.
  - apply (cut_space_prefix _ _ (TrimLeftSpace u)); [apply TrimRightSpace_prefix|].
    by apply trim_left_done.
  - unfold TrimSpace, TrimRightSpace. rewrite reverse_involutive.
    apply trim_left_done; [done|]. by rewrite length_reverse.
Qed.

Lemma TrimRightSpace_id (s : gostring) :
  cut_space (reverse <$> space_encodings) (reverse s) = None →
  TrimRightSpace s = s.
Proof.
  intros Hc. unfold TrimRightSpace. rewrite trim_left_id by done.
  apply reverse_involutive.
Qed.

(** A text that does not start with white space is not all white space. *)
Lemma TrimRightSpace_nonempty (x : gostring) :
  x ≠ [] → cut_space space_encodings x = None → TrimRightSpace x ≠ [].
Proof.
  intros Hne Hc Ht.
  assert (Hall : ∀ n t, t ≠ [] →
            trim_left (reverse <$> space_encodings) n (reverse t) = [] →
            ∃ e, e ∈ space_encodings ∧ HasPrefix t e = true).
  { induction n as [|n IH]; intros t Hnt; cbn [trim_left].
    - intros Hr. apply (f_equal reverse) in Hr.
      by rewrite reverse_involutive in Hr.
    - destruct (cut_space (reverse <$> space_encodings) (reverse t))
        as [r|] eqn:Hcut.
      + apply cut_space_Some in Hcut as (e' & He' & Hr).
        apply list_elem_of_fmap in He' as (e & -> & He).
        assert (Hte : t = reverse r ++ e).
        { apply (f_equal reverse) in Hr.
          by rewrite reverse_involutive, reverse_app, reverse_involutive in Hr. }
        destruct r as [|c r].
        * intros _. exists e. split; [done|]. apply HasPrefix_spec.
          exists []. by rewrite Hte, app_nil_r.
        * intros Hn.
          destruct (IH (reverse (c :: r))) as (e0 & He0 & Hp).
          { intros Hr'. apply (f_equal reverse) in Hr'.
            by rewrite reverse_involutive in Hr'. }
          { by rewrite reverse_involutive. }
          exists e0. split; [done|]. apply HasPrefix_spec in Hp as [q Hq].
          apply HasPrefix_spec. exists (q ++ e). by rewrite Hte, Hq, <-app_assoc.
      + intros Hr. apply (f_equal reverse) in Hr.
        by rewrite reverse_involutive in Hr. }
  destruct (Hall (length x) x Hne) as (e & He & Hp).
  { unfold TrimRightSpace in Ht. apply (f_equal reverse) in Ht.
    by rewrite reverse_involutive in Ht. }
  apply cut_space_None_inv in Hc. rewrite Forall_forall in Hc.
  specialize (Hc e He). simpl in Hc. congruence.
Qed.

Lemma IndexByte_split (s : gostring) (c : ascii) :
  0 ≤ IndexByte s c →
  ∃ x y, s = x ++ c :: y ∧ c ∉ x ∧ IndexByte s c = Z.of_nat (length x).
Proof.
  induction s as [|d s IH]; simpl; [lia|].
  case_bool_decide as Hd.
  - subst d. intros _. exists [], s. split_and!; [done|apply not_elem_of_nil|done].
  - destruct (Z.ltb_spec (IndexByte s c) 0) as [|Hi]; [lia|]. intros _.
    destruct (IH Hi) as (x & y & -> & Hx & Hlen).
    exists (d :: x), y. split_and!; [done| |simpl length; lia].
    apply not_elem_of_cons. split; [congruence|done].
Qed.

(** The entry a data line gives. *)
Lemma parseLine_Some (line k v : gostring) :
  parseLine line = Some (k, v) →
  k ≠ [] ∧ EQ ∉ k ∧ TrimSpace k = k ∧ TrimRightSpace v = v.
Proof.
  unfold parseLine.
  destruct (bool_decide (TrimSpace line = []) || HasPrefix (TrimSpace line) (bs "#"));
    [done|].
  assert (∃ u, (if HasPrefix (TrimSpace line) (bs "export ")
                then TrimSpace (drop (length (bs "export ")) (TrimSpace line))
                else TrimSpace line) = TrimSpace u) as [u ->]
    by (destruct (HasPrefix (TrimSpace line) (bs "export ")); by eexists).
  destruct (Z.leb_spec (IndexByte (TrimSpace u) EQ) 0) as [|Hidx]; [done|].
  destruct (IndexByte_split (TrimSpace u) EQ) as (x & y & Hxy & Hx & Hlen); [lia|].
  destruct (TrimSpace_ends u) as [Hl Hr].
  rewrite Hlen, Nat2Z.id. rewrite Hxy.
  replace (Z.to_nat (Z.of_nat (length x) + 1)) with (length (x ++ [EQ]))
    by (rewrite length_app; simpl; lia).
  rewrite take_app_length.
  replace (x ++ EQ :: y) with ((x ++ [EQ]) ++ y) by (by rewrite <-app_assoc).
  rewrite drop_app_length. intros [= <- <-].
  assert (Hxne : x ≠ []) by (intros ->; simpl in Hlen; lia).
  assert (Hcx : cut_space space_encodings x = None).
  { apply (cut_space_prefix _ _ (TrimSpace u)); [|done].
    exists (EQ :: y). by rewrite Hxy. }
  assert (Hk : TrimSpace x = TrimRightSpace x).
  { unfold TrimSpace, TrimLeftSpace. by rewrite trim_left_id. }
  rewrite Hk. split_and!.
  - by apply TrimRightSpace_nonempty.
  - intros Hin. apply Hx. eapply elem_of_prefix; [exact Hin|].
    apply TrimRightSpace_prefix.
  - destruct encodings_nonempty as [_ H2].
    assert (Hkr : TrimRightSpace (TrimRightSpace x) = TrimRightSpace x).
    { apply TrimRightSpace_id. unfold TrimRightSpace at 1.
      rewrite reverse_involutive. apply trim_left_done; [done|].
      by rewrite length_reverse. }
    unfold TrimSpace, TrimLeftSpace. rewrite trim_left_id; [done|].
    eapply cut_space_prefix; [apply TrimRightSpace_prefix|done].
  - apply TrimRightSpace_id.
    apply (cut_space_prefix _ _ (reverse (TrimSpace u))); [|done].
    rewrite Hxy, reverse_app, reverse_cons, <-app_assoc. by eexists.
Qed.

Lemma parseEnvToMap_line (data k v : gostring) :
  parseEnvToMap data !! k = Some v →
  ∃ line, line ∈ ScanLines data ∧ parseLine line = Some (k, v).
Proof.
  unfold parseEnvToMap.
  assert (H : ∀ lines (m : gmap gostring gostring),
    foldl (λ result line, match parseLine line with
                          | Some (key, val) => <[key := val]> result
                          | None => result
                          end) m lines !! k = Some v →
    m !! k = Some v ∨ ∃ line, line ∈ lines ∧ parseLine line = Some (k, v)).
  { induction lines as [|l lines IH]; intros m; cbn [foldl]; [by left|].
    intros [Hm|(line & Hin & Hp)]%IH.
    - destruct (parseLine l) as [[key val]|] eqn:Hl; [|by left].
      apply lookup_insert_Some in Hm as [[<- <-]|[_ Hm]]; [|by left].
      right. exists l. split; [by left|done].
    - right. exists line. split; [by right|done]. }
  intros [Hm|Hl]%H; [by rewrite lookup_empty in Hm|done].
Qed.

(** X17.  Every entry the parser yields has a name that is not empty, holds
    no [=] and has no white space at either end, and a value without white
    space at its end.  So a value that ends in white space is never
    confirmed. *)
Theorem parsed_entries_are_trimmed (data k v : gostring) :
  parseEnvToMap data !! k = Some v →
  k ≠ [] ∧ EQ ∉ k ∧ TrimSpace k = k ∧ TrimRightSpace v = v.
Proof.
  intros (line & _ & Hp)%parseEnvToMap_line. by eapply parseLine_Some.
Qed.

Lemma parsed_entries_are_trimmed_witness :
  TrimSpace (bs "A B") = bs "A B" ∧ TrimRightSpace (bs " 1 2") = bs " 1 2".
Proof.
  refine (proj2 (proj2 (parsed_entries_are_trimmed
    (text ["  export  A B = 1 2  "]) (bs "A B") (bs " 1 2") _))).
  by vm_compute.
Defined.

(** ** Writing the same value again *)

(** The rewriting leaves the text as it is up to its first [=]. *)
Lemma subst_first_eq (key val : gostring) (s : gostring) :
  key_token key →
  ∀ (bol : bool) (a x : gostring),
    EQ ∉ a → subst key val bol O s = a ++ EQ :: x → ∃ y, s = a ++ EQ :: y.
Proof.
  intros [Hk _]. induction s as [|c t IH]; intros bol a x Ha.
  { by destruct a. }
  destruct (if bol then match_here key (c :: t) else None) as [[g n]|] eqn:Hm.
  - destruct bol; [|done].
    destruct (subst_match key val _ _ _ Hm) as [-> _].
    apply match_here_sound in Hm
      as (exp & v & rest & Hs & Hexp & Hv & Hrest & -> & ->).
    rewrite Hs, take_app_length. unfold assignment. intros Heq.
    assert (Heq' : a ++ EQ :: x
                   = (exp ++ key) ++ EQ :: (val ++ subst key val false O
                        (drop (length exp + length key + 1 + length v)
                           (exp ++ key ++ [EQ] ++ v ++ rest))))
      by (rewrite <-Heq; list_eq).
    apply first_eq_unique in Heq' as [-> _];
      [|done|intros [?%marker_no_eq|?]%elem_of_app; done].
    exists (v ++ rest). list_eq.
  - destruct (subst_step key val bol c t Hm) as [-> _].
    destruct a as [|d a]; simpl; intros Heq.
    + injection Heq as -> _. by exists t.
    + injection Heq as <- Heq. apply not_elem_of_cons in Ha as [_ Ha].
      destruct (IH _ _ _ Ha Heq) as [y ->]. by exists y.
Qed.

(** Where no line of the key starts, none starts after the rewriting of
    what follows. *)
Lemma subst_no_new_match (key val : gostring) (bol : bool) (c : ascii)
    (t : gostring) :
  key_token key →
  (if bol then match_here key (c :: t) else None) = None →
  (if bol then match_here key (c :: subst key val (bool_decide (c = LF)) O t)
   else None) = None.
Proof.
  intros Hk Hm. destruct bol; [|done]. apply eq_None_not_Some.
  intros (exp & rest & Heq & Hexp)%match_here_assigns.
  assert (Hs : subst key val false O (c :: t) = (exp ++ key) ++ EQ :: rest)
    by (cbn [subst]; rewrite Heq; list_eq).
  apply subst_first_eq in Hs as [y Hy];
    [|done|intros [?%marker_no_eq|?]%elem_of_app; by destruct Hk].
  assert (is_Some (match_here key (c :: t))) as [? ?]; [|congruence].
  apply match_here_assigns. exists exp, y. split; [|done]. rewrite Hy. list_eq.
Qed.

Lemma eol_subst (key val rest : gostring) :
  eol rest → eol (subst key val false O rest).
Proof. by destruct rest. Qed.

(** Rewriting what is rewritten changes nothing. *)
Lemma subst_idem (key val : gostring) :
  key_token key → LF ∉ val →
  ∀ (s : gostring) (bol : bool),
    subst key val bol O (subst key val bol O s) = subst key val bol O s
    ∧ hit key bol O (subst key val bol O s) = hit key bol O s.
Proof.
  intros Hk Hval s. remember (length s) as m eqn:Hlen. revert s Hlen.
  induction m as [m IH] using lt_wf_ind. intros s -> bol.
  destruct s as [|c t]; [done|].
  destruct (if bol then match_here key (c :: t) else None) as [[g n]|] eqn:Hm.
  - destruct bol; [|done].
    destruct (subst_match key val _ _ _ Hm) as [-> ->].
    pose proof (match_here_bounds _ _ _ _ Hm) as Hb.
    apply match_here_sound in Hm
      as (exp & v & rest & Hs & Hexp & Hv & Hrest & -> & ->).
    rewrite Hs, take_app_length, drop_line.
    set (R := subst key val false O rest).
    assert (Hm2 : match_here key (exp ++ key ++ [EQ] ++ val ++ R)
              = Some (length exp, (length exp + length key + 1 + length val)%nat)).
    { apply match_here_complete; [by destruct Hk|done..|by apply eol_subst]. }
    unfold assignment.
    assert (Hshape : exp ++ key ++ [EQ] ++ val ++ R
                     = (exp ++ key ++ [EQ] ++ val) ++ R) by list_eq.
    rewrite <-Hshape.
    destruct (subst_match key val _ _ _ Hm2) as [-> ->].
    rewrite take_app_length, drop_line. unfold assignment. split; [|done].
    destruct (IH (length rest)) with (s := rest) (bol := false) as [HR _];
      [|done|].
    { rewrite Hs, !length_app in Hb |- *. simpl in Hb |- *. lia. }
    fold R in HR. rewrite HR. list_eq.
  - destruct (subst_step key val bol c t Hm) as [-> ->].
    pose proof (subst_no_new_match key val bol c t Hk Hm) as Hm2.
    destruct (subst_step key val bol c _ Hm2) as [-> ->].
    destruct (IH (length t)) with (s := t) (bol := bool_decide (c = LF))
      as [-> ->]; [simpl; lia|done|done].
Qed.

(** A LF after the text is a LF after the rewritten text. *)
Lemma subst_snoc_LF (key val : gostring) :
  key_token key →
  ∀ (s : gostring) (bol : bool),
    subst key val bol O (s ++ [LF]) = subst key val bol O s ++ [LF]
    ∧ hit key bol O (s ++ [LF]) = hit key bol O s.
Proof.
  intros Hk s. remember (length s) as m eqn:Hlen. revert s Hlen.
  induction m as [m IH] using lt_wf_ind. intros s -> bol.
  destruct s as [|c t].
  { apply (subst_absent key val bol [LF]). intros p q Hpq _ Hq%assigns_has_eq.
    assert (EQ ∈ [LF]) as Hin by (rewrite Hpq; apply elem_of_app; by right).
    by apply list_elem_of_singleton in Hin. }
  destruct (if bol then match_here key (c :: t) else None) as [[g n]|] eqn:Hm.
  - destruct bol; [|done].
    destruct (subst_match key val _ _ _ Hm) as [-> ->].
    pose proof (match_here_bounds _ _ _ _ Hm) as Hb.
    apply match_here_sound in Hm
      as (exp & v & rest & Hs & Hexp & Hv & Hrest & -> & ->).
    rewrite Hs, take_app_length, drop_line.
    assert (Hshape : (exp ++ key ++ [EQ] ++ v ++ rest) ++ [LF]
                     = exp ++ key ++ [EQ] ++ v ++ (rest ++ [LF])) by list_eq.
    rewrite Hshape.
    assert (Hm2 : match_here key (exp ++ key ++ [EQ] ++ v ++ (rest ++ [LF]))
              = Some (length exp, (length exp + length key + 1 + length v)%nat)).
    { apply match_here_complete; [by destruct Hk|done..|by destruct rest]. }
    destruct (subst_match key val _ _ _ Hm2) as [-> ->].
    rewrite take_app_length, drop_line. split; [|done].
    destruct (IH (length rest)) with (s := rest) (bol := false) as [-> _];
      [|done|list_eq].
    rewrite Hs, !length_app in Hb |- *. simpl in Hb |- *. lia.
  - assert (Hm2 : (if bol then match_here key (c :: t ++ [LF]) else None) = None).
    { destruct bol; [|done]. apply eq_None_not_Some.
      intros (exp & r & Heq & Hexp)%match_here_assigns.
      assert (is_Some (match_here key (c :: t))) as [? ?]; [|congruence].
      apply match_here_assigns. exists exp.
      destruct r as [|z r _] using rev_ind.
      - assert (Heq' : (c :: t) ++ [LF] = (exp ++ key) ++ [EQ])
          by (rewrite <-app_comm_cons, Heq; list_eq).
        by apply app_inj_tail in Heq' as [_ ?].
      - exists r. split; [|done].
        assert (Heq' : (c :: t) ++ [LF] = (exp ++ key ++ [EQ] ++ r) ++ [z])
          by (rewrite <-app_comm_cons, Heq; list_eq).
        by apply app_inj_tail in Heq' as [? _]. }
    rewrite <-app_comm_cons.
    destruct (subst_step key val bol c t Hm) as [-> ->].
    destruct (subst_step key val bol c _ Hm2) as [-> ->].
    destruct (IH (length t)) with (s := t) (bol := bool_decide (c = LF))
      as [-> ->]; [simpl; lia|done|done].
Qed.

Lemma terminated_idem (content : gostring) :
  terminated (terminated content) = terminated content.
Proof. unfold terminated at 1. by rewrite terminated_ends. Qed.

Lemma rewriteEnv_idem (key val content out : gostring) :
  key_token key → LF ∉ val →
  rewriteEnv [(key, val)] [(key, val)] content = Some out →
  rewriteEnv [(key, val)] [(key, val)] out = Some out.
Proof.
  intros Hk Hval. rewrite !rewriteEnv_single.
  destruct (hit key true O content) eqn:Hh; intros [= <-].
  - destruct (subst_idem key val Hk Hval content true) as [Hs Hh2].
    rewrite Hh in Hh2. set (X := subst key val true O content) in *.
    assert (HT : subst key val true O (terminated X) = terminated X
                 ∧ hit key true O (terminated X) = true).
    { unfold terminated. destruct (HasSuffix X [LF]); [done|].
      destruct (subst_snoc_LF key val Hk X true) as [-> ->].
      by rewrite Hs, Hh2. }
    destruct HT as [-> ->]. by rewrite terminated_idem.
  - destruct (subst_absent key val true content) as [Hs _];
      [by apply hit_false_absent|].
    set (a := content ++ line_break content).
    assert (Ha : subst key val true O a = a ∧ bol_after a).
    { unfold a, line_break. case_bool_decide as Hn.
      { subst content. split; [done|by left]. }
      destruct (HasSuffix content [LF]) eqn:Hsuf; cbn [orb].
      - rewrite app_nil_r. split; [done|]. right.
        apply HasSuffix_spec in Hsuf as [r ->]. apply last_snoc.
      - destruct (subst_snoc_LF key val Hk content true) as [-> _].
        rewrite Hs. split; [done|]. right. apply last_snoc. }
    destruct Ha as [Ha Hbol].
    destruct (subst_frame key val [] val [LF] Hk (or_introl eq_refl) Hval eq_refl
                a true) as [Hf Hhit].
    { destruct Hbol as [->|?]; [by left|by right]. }
    rewrite Ha in Hf. rewrite !app_nil_l in Hf, Hhit.
    assert (Hout : content ++ line_break content ++ key ++ EQ :: val ++ [LF]
                   = a ++ key ++ [EQ] ++ val ++ [LF]) by (unfold a; list_eq).
    rewrite Hout, Hhit, Hf. unfold assignment. rewrite app_nil_l.
    assert (subst key val false O [LF] = [LF]) as -> by done.
    f_equal. unfold terminated.
    assert (HasSuffix (a ++ (key ++ [EQ] ++ val) ++ [LF]) [LF] = true) as ->.
    { apply HasSuffix_spec. exists (a ++ key ++ [EQ] ++ val). list_eq. }
    list_eq.
Qed.

(** X18.  Writing the same value again changes nothing.  After a successful
    [updateEnvFile] for one key, a second one for the same key and value
    that succeeds leaves every file as the first left it: the content of
    the target is rewritten to itself, with the same permission bits. *)
Theorem second_update_changes_nothing (E E' : env) (path K V : gostring)
    (w : world) :
  range_sound E → range_sound E' → key_token K → LF ∉ V →
  let r1 := updateEnvFile E path {[K := V]} w in
  let r2 := updateEnvFile E' path {[K := V]} r1.2 in
  r1.1 = Ok () → r2.1 = Ok () → fs r2.2 = fs r1.2.
Proof.
  intros HE HE' Hk HV r1 r2 H1 H2. unfold r2, r1 in *. clear r1 r2.
  destruct (updateEnvFile_run E path {[K := V]} w)
    as (r & w1 & mid & Hrun & _ & _ & Hr).
  rewrite Hrun in H1, H2 |- *. simpl in H1, H2 |- *. subst r.
  destruct Hr as (out & Hout & _ & Hfs & _).
  destruct (updateEnvFile_run E' path {[K := V]} w1)
    as (r' & w2 & mid' & Hrun' & _ & _ & Hr').
  rewrite Hrun' in H2 |- *. simpl in H2 |- *. subst r'.
  destruct Hr' as (out' & Hout' & _ & Hfs' & _).
  rewrite !range_single in Hout, Hout' by done.
  assert (Hp : fs w1 !! path = Some (File out (new_perm (fs w !! path))))
    by (by rewrite Hfs, lookup_insert_eq).
  rewrite Hp in Hout', Hfs'. simpl in Hout', Hfs'.
  rewrite (rewriteEnv_idem K V _ out Hk HV Hout) in Hout'. simplify_eq.
  rewrite Hfs'. by apply insert_id.
Qed.

Lemma second_update_changes_nothing_witness :
  let w1 := (updateEnvFile calm dotenv {[bs "A" := bs "9"]}
               (machine (text ["export A=1"; "B=2"; "A=3"]))).2 in
  fs (updateEnvFile calm dotenv {[bs "A" := bs "9"]} w1).2 = fs w1.
Proof.
  apply (second_update_changes_nothing calm calm dotenv (bs "A") (bs "9")
           (machine (text ["export A=1"; "B=2"; "A=3"]))
           calm_range_sound calm_range_sound).
  - split; apply (bool_decide_unpack _); by vm_compute.
  - apply (bool_decide_unpack _); by vm_compute.
  - by vm_compute.
  - by vm_compute.
Defined.
